(** * rag-a-octai: ingestion and query pipeline

    A shallow embedding of the TypeScript sources of the retrieval-augmented
    generation service (text processor, file handlers, chunker, vector store
    wrapper, ingestion and query orchestrators, prompt assembly), followed by
    the properties established about them.

    Conventions.
    - A JavaScript string is the list of its UTF-16 code units.
    - A JavaScript [number] is a rational, an infinity or NaN; only its
      comparisons and its truthiness are used by the code.
    - [async] functions run sequentially; a call is a state transformer that
      returns a value or the thrown error.  Every call that leaves the process
      (embedding service, chat model, vector database, PDF parser, text
      splitter, uuid generator) is appended to a call log, and its answer is
      taken from an oracle that may depend on the whole log so far.
    - Logging ([logger.info], [console.log], [console.error]) is left out. *)

From Stdlib Require Import ZArith NArith QArith Strings.String Strings.Ascii List Lia DecimalString.
From stdpp Require Import base list option gmap strings.

Local Open Scope N_scope.
Local Open Scope nat_scope.
Local Open Scope list_scope.

(** ** JavaScript strings *)

Module Js.

Definition char := N.
Definition jsstring := list char.

(** An ASCII literal as a JavaScript string. *)
Definition lit (s : string) : jsstring :=
  map N_of_ascii (list_ascii_of_string s).

Definition LF : char := 10%N.
Definition SP : char := 32%N.

(** LineTerminator of the language: LF, CR, LS, PS. *)
Definition is_line_terminator (c : char) : bool :=
  (c =? 10)%N || (c =? 13)%N || (c =? 8232)%N || (c =? 8233)%N.

(** WhiteSpace and LineTerminator code units: what [\s] matches and what
    [String.prototype.trim] strips. *)
Definition is_space (c : char) : bool :=
  ((9 <=? c) && (c <=? 13))%N || (c =? 32)%N || (c =? 160)%N || (c =? 5760)%N
  || ((8192 <=? c) && (c <=? 8202))%N || (c =? 8232)%N || (c =? 8233)%N
  || (c =? 8239)%N || (c =? 8287)%N || (c =? 12288)%N || (c =? 65279)%N.

Definition is_digit (c : char) : bool := ((48 <=? c) && (c <=? 57))%N.

Fixpoint trimStart (s : jsstring) : jsstring :=
  match s with
  | c :: s' => if is_space c then trimStart s' else s
  | [] => []
  end.

Definition trimEnd (s : jsstring) : jsstring := rev (trimStart (rev s)).

(** [s.trim()] *)
Definition trim (s : jsstring) : jsstring := trimEnd (trimStart s).

(** [parts.join(sep)] *)
Fixpoint join (sep : jsstring) (parts : list jsstring) : jsstring :=
  match parts with
  | [] => []
  | [p] => p
  | p :: ps => p ++ sep ++ join sep ps
  end.

(** Decimal digits of a natural number, as [String(n)] prints an integer. *)
Definition digits (n : nat) : jsstring :=
  lit (NilEmpty.string_of_uint (Nat.to_uint n)).

End Js.

(** ** Regular expressions

    A backtracking matcher for the fragment of ECMAScript regular expressions
    the text processor uses: literals, classes, [.], sequence, alternation,
    greedy and lazy bounded repetition, capture groups and back-references,
    the anchors [^] and [$], look-ahead, and a negative look-behind on one
    character class.  Flags [i] and [m] are parameters of the matcher. *)

Module Regex.
Import Js.

Inductive class_item :=
| One (c : char)
| Range (lo hi : char)
| Digit          (* \d *)
| Space.         (* \s *)

Inductive regex :=
| Eps
| Chr (c : char)
| Cls (items : list class_item)
| Dot
| Seq (r1 r2 : regex)
| Alt (r1 r2 : regex)
| Rep (min : nat) (max : option nat) (greedy : bool) (r : regex)
| Grp (i : nat) (r : regex)
| Ref (i : nat)
| Bol
| Eol
| Ahead (r : regex)
| NotAhead (r : regex)
| NotAfter (items : list class_item).

Definition item_matches (c : char) (it : class_item) : bool :=
  match it with
  | One d => (c =? d)%N
  | Range lo hi => ((lo <=? c) && (c <=? hi))%N
  | Digit => is_digit c
  | Space => is_space c
  end.

Definition class_matches (items : list class_item) (c : char) : bool :=
  existsb (item_matches c) items.

(** Canonicalize of the [i] flag.  The patterns compared under [i] are ASCII
    letters and the space, and a code unit outside ASCII never canonicalizes
    into ASCII, so folding the ASCII lower-case letters is exact for them. *)
Definition canonicalize (icase : bool) (c : char) : char :=
  if icase && (97 <=? c)%N && (c <=? 122)%N then (c - 32)%N else c.

Record mstate := MState {
  before : list char;            (* the consumed input, last unit first *)
  after : list char;             (* the input still ahead *)
  caps : list (nat * jsstring)   (* the captures set so far *)
}.

Definition get_cap (i : nat) (cs : list (nat * jsstring)) : jsstring :=
  match find (fun p => Nat.eqb (fst p) i) cs with
  | Some p => snd p
  | None => []
  end.

Definition set_cap (i : nat) (s : jsstring) (cs : list (nat * jsstring)) :=
  (i, s) :: filter (fun p => negb (Nat.eqb (fst p) i)) cs.

Fixpoint groups (r : regex) : list nat :=
  match r with
  | Seq a b | Alt a b => groups a ++ groups b
  | Rep _ _ _ a | Ahead a | NotAhead a => groups a
  | Grp i a => i :: groups a
  | _ => []
  end.

Definition clear_caps (gs : list nat) (st : mstate) : mstate :=
  MState (before st) (after st)
         (filter (fun p => negb (existsb (Nat.eqb (fst p)) gs)) (caps st)).

Definition under_max (cnt : nat) (mx : option nat) : bool :=
  match mx with
  | Some k => cnt <? k
  | None => true
  end.

(** Consume the literal [s] from the input (a back-reference). *)
Fixpoint eat (icase : bool) (s : jsstring) (st : mstate) : option mstate :=
  match s with
  | [] => Some st
  | c :: s' =>
    match after st with
    | d :: rest =>
      if (canonicalize icase c =? canonicalize icase d)%N
      then eat icase s' (MState (d :: before st) rest (caps st))
      else None
    | [] => None
    end
  end.

Definition at_bol (multiline : bool) (st : mstate) : bool :=
  match before st with
  | [] => true
  | c :: _ => multiline && is_line_terminator c
  end.

Definition at_eol (multiline : bool) (st : mstate) : bool :=
  match after st with
  | [] => true
  | c :: _ => multiline && is_line_terminator c
  end.

(** The first alternative, or else the second; the second is a thunk so
    that it is evaluated only on failure of the first. *)
Definition orelse {A} (a : option A) (b : unit -> option A) : option A :=
  match a with
  | Some _ => a
  | None => b tt
  end.

Section Matcher.
Variables (icase multiline : bool).

(** [run r st k]: match [r] at [st], then the continuation [k]; the first
    success in backtracking order.  A repetition runs at most
    [min + |input ahead|] iterations, which is all it can run: once [min] is
    reached an iteration that consumes nothing is rejected. *)
Fixpoint run (r : regex) (st : mstate) (k : mstate -> option mstate)
  {struct r} : option mstate :=
  match r with
  | Eps => k st
  | Chr c =>
    match after st with
    | d :: rest =>
      if (canonicalize icase c =? canonicalize icase d)%N
      then k (MState (d :: before st) rest (caps st)) else None
    | [] => None
    end
  | Cls items =>
    match after st with
    | d :: rest =>
      if class_matches items d
      then k (MState (d :: before st) rest (caps st)) else None
    | [] => None
    end
  | Dot =>
    match after st with
    | d :: rest =>
      if is_line_terminator d then None
      else k (MState (d :: before st) rest (caps st))
    | [] => None
    end
  | Seq a b => run a st (fun st' => run b st' k)
  | Alt a b => orelse (run a st k) (fun _ => run b st k)
  | Rep mn mx greedy a =>
    (fix iter (n cnt : nat) (st : mstate) {struct n} : option mstate :=
       let stop := fun _ : unit => if mn <=? cnt then k st else None in
       match n with
       | 0 => stop tt
       | S n' =>
         let more := fun _ : unit =>
           if under_max cnt mx then
             run a (clear_caps (groups a) st) (fun st' =>
               if (mn <=? cnt) && (length (after st') =? length (after st))
               then None
               else iter n' (S cnt) st')
           else None in
         if greedy then orelse (more tt) stop else orelse (stop tt) more
       end) (mn + length (after st)) 0 st
  | Grp i a =>
    run a st (fun st' =>
      let consumed := length (before st') - length (before st) in
      k (MState (before st') (after st')
                (set_cap i (rev (take consumed (before st'))) (caps st'))))
  | Ref i =>
    match eat icase (get_cap i (caps st)) st with
    | Some st' => k st'
    | None => None
    end
  | Bol => if at_bol multiline st then k st else None
  | Eol => if at_eol multiline st then k st else None
  | Ahead a =>
    match run a st Some with
    | Some st' => k (MState (before st) (after st) (caps st'))
    | None => None
    end
  | NotAhead a =>
    match run a st Some with
    | Some _ => None
    | None => k st
    end
  | NotAfter items =>
    match before st with
    | c :: _ => if class_matches items c then None else k st
    | [] => k st
    end
  end.

(** One piece of a replacement pattern: literal text or [$i]. *)
Inductive piece :=
| Text (s : jsstring)
| Dollar (i : nat).

Definition expand (tpl : list piece) (cs : list (nat * jsstring)) : jsstring :=
  flat_map (fun p => match p with
                     | Text s => s
                     | Dollar i => get_cap i cs
                     end) tpl.

(** The scan of [text.replace(/r/g, tpl)]: try a match at the current index;
    on success emit the expansion and go on from the end of the match (one
    unit further after an empty match); on failure copy one unit. *)
Fixpoint scan (n : nat) (r : regex) (tpl : list piece)
         (bef aft : list char) : jsstring :=
  match n with
  | 0 => aft
  | S n' =>
    match run r (MState bef aft []) Some with
    | Some st' =>
      let out := expand tpl (caps st') in
      if length (after st') =? length aft then
        match aft with
        | [] => out
        | c :: rest => out ++ c :: scan n' r tpl (c :: bef) rest
        end
      else out ++ scan n' r tpl (before st') (after st')
    | None =>
      match aft with
      | [] => []
      | c :: rest => c :: scan n' r tpl (c :: bef) rest
      end
    end
  end.

Definition replace_all (r : regex) (tpl : list piece) (text : jsstring) : jsstring :=
  scan (S (length text)) r tpl [] text.

End Matcher.

(** Notation helpers for writing patterns. *)
Fixpoint seq_of (rs : list regex) : regex :=
  match rs with
  | [] => Eps
  | [r] => r
  | r :: rs' => Seq r (seq_of rs')
  end.

Definition word (s : string) : regex := seq_of (map Chr (lit s)).
Definition star (r : regex) : regex := Rep 0 None true r.
Definition plus (r : regex) : regex := Rep 1 None true r.
Definition opt (r : regex) : regex := Rep 0 (Some 1) true r.
Definition at_least (n : nat) (r : regex) : regex := Rep n None true r.
Definition ws : regex := Cls [Space].
Definition digit : regex := Cls [Digit].

End Regex.

(** ** Text processor ([DefaultTextProcessor]) *)

Module TextProcessor.
Import Js Regex.

(** [[-\u2013\u2014]]: hyphen, en dash, em dash. *)
Definition dash : regex := Cls [One 45%N; One 8211%N; One 8212%N].
Definition dot : regex := Chr 46%N.
Definition newline : regex := Chr LF.

(** [/^\s*Page\s+\d+(\s+of\s+\d+)?\s*$/gim] *)
Definition re_page_word : regex :=
  seq_of [Bol; star ws; word "Page"; plus ws; plus digit;
          opt (Grp 1 (seq_of [plus ws; word "of"; plus ws; plus digit]));
          star ws; Eol].

(** [/^\s*\d+(\s+of\s+\d+)?\s*$/gm] *)
Definition re_page_bare : regex :=
  seq_of [Bol; star ws; plus digit;
          opt (Grp 1 (seq_of [plus ws; word "of"; plus ws; plus digit]));
          star ws; Eol].

(** [/^\s*[-\u2013\u2014]{1,}\s*\d+\s+of\s+\d+\s*[-\u2013\u2014]{1,}\s*$/gm] *)
Definition re_page_dashed_of : regex :=
  seq_of [Bol; star ws; at_least 1 dash; star ws; plus digit; plus ws;
          word "of"; plus ws; plus digit; star ws; at_least 1 dash;
          star ws; Eol].

(** [/^\s*[-\u2013\u2014]{1,}\s*\d+\s*[-\u2013\u2014]{1,}\s*$/gm] *)
Definition re_page_dashed : regex :=
  seq_of [Bol; star ws; at_least 1 dash; star ws; plus digit; star ws;
          at_least 1 dash; star ws; Eol].

Definition removePageNumbers (text : jsstring) : jsstring :=
  replace_all false true re_page_dashed []
    (replace_all false true re_page_dashed_of []
      (replace_all false true re_page_bare []
        (replace_all true true re_page_word [] text))).

(** [/^(Company Name|Document Title|Confidential).*$/gim] *)
Definition HEADER_REGEX : regex :=
  seq_of [Bol;
          Grp 1 (Alt (word "Company Name")
                     (Alt (word "Document Title") (word "Confidential")));
          star Dot; Eol].

Definition removeHeadersFooters (text : jsstring) : jsstring :=
  replace_all true true HEADER_REGEX [] text.

(** [/(?<![.!?:])\n(?!\n)/g] *)
Definition re_line_break : regex :=
  seq_of [NotAfter [One 46%N; One 33%N; One 63%N; One 58%N]; newline;
          NotAhead newline].

Definition fixLineBreaks (text : jsstring) : jsstring :=
  replace_all false false re_line_break [Text [SP]] text.

(** [/\n{3,}/g] *)
Definition re_blank_lines : regex := at_least 3 newline.

Definition normalizeParagraphs (text : jsstring) : jsstring :=
  replace_all false false re_blank_lines [Text [LF; LF]] text.

(** [/(.{0,})(\n\1)+/g], the source writing [.{0,}] as a starred dot. *)
Definition re_dup_paragraph : regex :=
  seq_of [Grp 1 (star Dot); plus (Grp 2 (Seq newline (Ref 1)))].

Definition removeDuplicateParagraphs (text : jsstring) : jsstring :=
  replace_all false false re_dup_paragraph [Dollar 1] text.

(** [/^(.+)(\n\1)+$/gm] *)
Definition re_dup_line : regex :=
  seq_of [Bol; Grp 1 (plus Dot); plus (Grp 2 (Seq newline (Ref 1))); Eol].

Definition removeDuplicateLines (text : jsstring) : jsstring :=
  replace_all false true re_dup_line [Dollar 1] text.

(** [/\n(?=[A-Z][A-Za-z\s]{3,}\n)/g] *)
Definition re_section : regex :=
  seq_of [newline;
          Ahead (seq_of [Cls [Range 65%N 90%N];
                         at_least 3 (Cls [Range 65%N 90%N; Range 97%N 122%N; Space]);
                         newline])].

Definition preserveSectionSpacing (text : jsstring) : jsstring :=
  replace_all false false re_section [Text [LF; LF]] text.

(** [/\s(?:\.{3,}|\u00b7{2,}|[-\u2013\u2014]{2,})\s*\d+\s*$/gm] *)
Definition re_toc_leader : regex :=
  seq_of [ws;
          Alt (at_least 3 dot) (Alt (at_least 2 (Chr 183%N)) (at_least 2 dash));
          star ws; plus digit; star ws; Eol].

Definition cleanTocLeaders (text : jsstring) : jsstring :=
  replace_all false true re_toc_leader [] text.

(** [/^(\d+(\.\d+)*\s+.+?)(\s\.{3,}\s*\d+)\s*$/gm] *)
Definition re_numbered_toc : regex :=
  seq_of [Bol;
          Grp 1 (seq_of [plus digit; star (Grp 2 (Seq dot (plus digit)));
                         plus ws; Rep 1 None false Dot]);
          Grp 3 (seq_of [ws; at_least 3 dot; star ws; plus digit]);
          star ws; Eol].

Definition cleanNumberedToc (text : jsstring) : jsstring :=
  replace_all false true re_numbered_toc [Dollar 1] text.

(** [/^.{20,}(\.{3,}.{0,}){2,}$/gm] *)
Definition re_leader_line : regex :=
  seq_of [Bol; at_least 20 Dot;
          at_least 2 (Grp 1 (Seq (at_least 3 dot) (at_least 0 Dot))); Eol].

Definition removeLeaderDotLinesSafe (text : jsstring) : jsstring :=
  replace_all false true re_leader_line [] text.

Definition processText (raw : jsstring) : jsstring :=
  match raw with
  | [] => []
  | _ =>
    let text := raw in
    let text := removePageNumbers text in
    let text := cleanTocLeaders text in
    let text := cleanNumberedToc text in
    let text := removeLeaderDotLinesSafe text in
    let text := removeHeadersFooters text in
    let text := fixLineBreaks text in
    let text := normalizeParagraphs text in
    let text := removeDuplicateLines text in
    let text := removeDuplicateParagraphs text in
    let text := preserveSectionSpacing text in
    trim text
  end.

End TextProcessor.

(** ** JavaScript numbers *)

Module Num.

Inductive number :=
| NaN
| NegInf
| Fin (q : Q)
| PosInf.

(** [a >= b] *)
Definition ge (a b : number) : bool :=
  match a, b with
  | NaN, _ => false
  | _, NaN => false
  | PosInf, _ => true
  | _, NegInf => true
  | NegInf, _ => false
  | Fin _, PosInf => false
  | Fin x, Fin y => Qle_bool y x
  end.

(** [a < b] *)
Definition lt (a b : number) : bool :=
  match a, b with
  | NaN, _ => false
  | _, NaN => false
  | PosInf, _ => false
  | _, NegInf => false
  | NegInf, _ => true
  | Fin _, PosInf => true
  | Fin x, Fin y => negb (Qle_bool y x)
  end.

(** ToBoolean on a number: false for [0], [-0] and [NaN]. *)
Definition truthy (a : number) : bool :=
  match a with
  | NaN => false
  | Fin q => negb (Qeq_bool q 0)
  | NegInf | PosInf => true
  end.

(** [x || d] for an optional number [x]. *)
Definition or_else (x : option number) (d : number) : number :=
  match x with
  | Some a => if truthy a then a else d
  | None => d
  end.

Definition of_nat (n : nat) : number := Fin (inject_Z (Z.of_nat n)).
Definition zero : number := of_nat 0.

End Num.

(** ** Data model and effects *)

Module Rag.
Import Js Num.

Definition vector := list number.

(** A value stored in a metadata object ([Record<string, any>]). *)
Inductive value :=
| VNum (n : number)
| VStr (s : jsstring).

Abbreviation metadata_t := (gmap (list N) value).

(** [interface Document] *)
Record Document := mkDocument {
  id : option jsstring;
  content : jsstring;
  metadata : option metadata_t
}.

(** [interface SearchResult extends Document] *)
Record SearchResult := mkSearchResult {
  doc : Document;
  score : number
}.

(** [interface UpsertItem] *)
Record UpsertItem := mkUpsertItem {
  item_id : jsstring;
  item_embedding : option vector;
  item_text : jsstring;
  item_metadata : option metadata_t
}.

(** [interface FileInfo]; the buffer is the list of its bytes. *)
Record FileInfo := mkFileInfo {
  originalname : jsstring;
  size : number;
  mimetype : jsstring;
  encoding : jsstring;
  buffer : list N
}.

(** [interface PromptContext] *)
Record PromptContext := mkPromptContext {
  question : jsstring;
  maxTokens : option number;
  sources : option (list Document)
}.

Record Message := mkMessage { role : jsstring; msg_content : jsstring }.
Record ChatRequest := mkChatRequest { chat_model : jsstring; messages : list Message }.

(** [interface ChunkingOptions] *)
Record ChunkingOptions := mkChunkingOptions {
  chunkSize : number;
  overlap : option number
}.

(** The answer of [collection.query]: parallel arrays, one row per query
    embedding, with nullable cells. *)
Record QueryResult := mkQueryResult {
  qr_ids : list (list jsstring);
  qr_documents : list (list (option jsstring));
  qr_metadatas : list (list (option metadata_t));
  qr_distances : list (list (option number))
}.

Inductive error :=
| Error (message : jsstring)
| TypeError.

(** How an awaited call ends: a value, a thrown error, or a promise that is
    never settled. *)
Inductive outcome (A : Type) :=
| Ok (a : A)
| Throw (e : error)
| Hang.
Arguments Ok {A} a.
Arguments Throw {A} e.
Arguments Hang {A}.

(** A handle on a collection or on a PDF parser. *)
Definition handle := nat.

(** The calls that leave the process. *)
Inductive call :=
| OllamaEmbed (model : jsstring) (input : list jsstring)
| GeminiEmbedContent (model : jsstring) (contents : list jsstring)
| OllamaChat (req : ChatRequest)
| GetOrCreateCollection (name : jsstring)
| CollectionUpsert (coll : handle) (ids : list jsstring)
    (embeddings : list vector) (documents : list jsstring)
    (metadatas : list metadata_t)
| CollectionQuery (coll : handle) (queryEmbeddings : list (option vector))
    (nResults : number)
| PdfNew (data : list N)
| PdfGetInfo (parser : handle)
| PdfGetText (parser : handle) (partial : option nat)
| PdfDestroy (parser : handle)
| SplitText (size : number) (chunkOverlap : number) (text : jsstring)
| UuidV4.

(** The outside world: what each call answers, given the calls made so far. *)
Record World := mkWorld {
  ollama_embed : list call -> jsstring -> list jsstring -> outcome (list vector);
  gemini_embedContent :
    list call -> jsstring -> list jsstring -> outcome (option (list vector));
  ollama_chat : list call -> ChatRequest -> outcome jsstring;
  chroma_getOrCreateCollection : list call -> jsstring -> outcome handle;
  chroma_upsert :
    list call -> handle -> list jsstring -> list vector -> list jsstring ->
    list metadata_t -> outcome unit;
  chroma_query :
    list call -> handle -> list (option vector) -> number -> outcome QueryResult;
  pdf_getInfo : list call -> list N -> outcome nat;
  pdf_getText : list call -> list N -> option nat -> outcome jsstring;
  splitter_splitText :
    list call -> number -> number -> jsstring -> outcome (list jsstring);
  uuid_v4 : list call -> jsstring;
  utf8_decode : list N -> jsstring
}.

(** [abstract class TextProcessor]: an implementation may throw. *)
Record TextProcessor := mkTextProcessor {
  processText : jsstring -> outcome jsstring
}.

Definition DefaultTextProcessor : TextProcessor :=
  mkTextProcessor (fun raw => Ok (TextProcessor.processText raw)).

(** The implementations of [abstract class FileHandler]. *)
Inductive FileHandler :=
| TextHandler (textProcessor : TextProcessor)
| PdfHandler (textProcessor : TextProcessor)
| PdfPageHandler (textProcessor : TextProcessor)
| NoopHandler.

Abbreviation HandlerResolveParameters := (gmap (list N) value).

(** An entry of [FileHandlerRegistry]: a handler or a factory. *)
Inductive registry_entry :=
| Ready (h : FileHandler)
| Factory (f : HandlerResolveParameters -> FileHandler).

(** The mutable state of the process: the call log, the module-level
    [HANDLER_REGISTRY], the handler held by the [FileHandlerContext], and the
    collection cache of the [ChromaVectorStore].  The registry holds the
    registered entries only: the properties a JavaScript object inherits from
    [Object.prototype] are not part of it. *)
Record state := mkState {
  log : list call;
  HANDLER_REGISTRY : gmap (list N) registry_entry;
  fileHandler : option FileHandler;
  cache : gmap (list N) handle
}.

Definition M (A : Type) : Type := state -> state * outcome A.

Definition ret {A} (a : A) : M A := fun s => (s, Ok a).

Definition throw {A} (e : error) : M A := fun s => (s, Throw e).

Definition bind {A B} (c : M A) (k : A -> M B) : M B :=
  fun s =>
    match c s with
    | (s', Ok a) => k a s'
    | (s', Throw e) => (s', Throw e)
    | (s', Hang) => (s', Hang)
    end.

Notation "x <- c ;; k" := (bind c (fun x => k))
  (at level 100, c at next level, right associativity).

(** Lift the outcome of a pure computation. *)
Definition lift {A} (o : outcome A) : M A := fun s => (s, o).

(** The state with one more call in its log. *)
Definition add_call (s : state) (c : call) : state :=
  mkState (log s ++ [c]) (HANDLER_REGISTRY s) (fileHandler s) (cache s).

(** An outside call: it is appended to the log and answered by the world
    from the calls made before it. *)
Definition extern {A} (c : call) (answer : list call -> outcome A) : M A :=
  fun s => (add_call s c, answer (log s)).

(** The calls a computation makes when started in [s]. *)
Definition calls_made {A} (c : M A) (s : state) : list call :=
  drop (length (log s)) (log (fst (c s))).

Definition is_embed_call (c : call) : bool :=
  match c with
  | OllamaEmbed _ _ | GeminiEmbedContent _ _ => true
  | _ => false
  end.

Definition is_upsert_call (c : call) : bool :=
  match c with
  | CollectionUpsert _ _ _ _ _ => true
  | _ => false
  end.

Definition is_chat_call (c : call) : bool :=
  match c with
  | OllamaChat _ => true
  | _ => false
  end.

Definition is_destroy_call (c : call) : bool :=
  match c with
  | PdfDestroy _ => true
  | _ => false
  end.

Definition is_get_collection (c : call) : bool :=
  match c with
  | GetOrCreateCollection _ => true
  | _ => false
  end.

(** The calls of text extraction and chunking: PDF parser, text splitter,
    uuid generator. *)
Definition is_extraction_call (c : call) : bool :=
  match c with
  | PdfNew _ | PdfGetInfo _ | PdfGetText _ _ | PdfDestroy _
  | SplitText _ _ _ | UuidV4 => true
  | _ => false
  end.

(** Every call the computation makes satisfies [P]; the log only grows. *)
Definition only_calls {A} (P : call -> bool) (c : M A) : Prop :=
  forall s, exists d, log (fst (c s)) = log s ++ d /\ forallb P d = true.

Definition is_retrieval_call (c : call) : bool :=
  match c with
  | OllamaEmbed _ _ | GeminiEmbedContent _ _ | GetOrCreateCollection _
  | CollectionQuery _ _ _ => true
  | _ => false
  end.

(** A call that leaves an open PDF parser open. *)
Definition keeps_parser (c : call) : bool := negb (is_destroy_call c).

(** The texts an embedding call carries. *)
Definition embed_call_input (c : call) : option (list jsstring) :=
  match c with
  | OllamaEmbed _ input => Some input
  | GeminiEmbedContent _ contents => Some contents
  | _ => None
  end.

Fixpoint mapM {A B} (f : A -> M B) (l : list A) : M (list B) :=
  match l with
  | [] => ret []
  | x :: xs => y <- f x ;; ys <- mapM f xs ;; ret (y :: ys)
  end.

(** [arr.map((x, index) => f x index)] for a pure callback. *)
Definition mapi {A B} (f : A -> nat -> B) (l : list A) : list B :=
  imap (fun i x => f x i) l.

(** [arr.map((x, index) => f x index)] for an effectful callback. *)
Definition mapiM {A B} (f : A -> nat -> M B) (l : list A) : M (list B) :=
  mapM (fun p => f (snd p) (fst p)) (imap (fun i x => (i, x)) l).

Section WithWorld.
Variable w : World.

(** *** File handlers *)

(** [new PDFParse({ data })]: the parser is identified by its position in
    the call log. *)
Record PDFParse := mkPDFParse { parser_id : handle; parser_data : list N }.

Definition new_PDFParse (data : list N) : M PDFParse :=
  fun s => extern (PdfNew data) (fun h => Ok (mkPDFParse (length h) data)) s.

Definition getInfo (p : PDFParse) : M nat :=
  extern (PdfGetInfo (parser_id p)) (fun h => pdf_getInfo w h (parser_data p)).

Definition getText (p : PDFParse) (partial : option nat) : M jsstring :=
  extern (PdfGetText (parser_id p) partial)
         (fun h => pdf_getText w h (parser_data p) partial).

Definition destroy (p : PDFParse) : M unit :=
  extern (PdfDestroy (parser_id p)) (fun _ => Ok tt).

(** What [handleFile] resolves to: [Document | Document[]]. *)
Inductive handled :=
| Single (d : Document)
| Multiple (ds : list Document).

(** [TextFileHandler.handleFile].  The text is processed inside the stream's
    [end] listener; an error there settles nothing. *)
Definition TextFileHandler_handleFile (textProcessor : TextProcessor)
           (fileInfo : FileInfo) : M Document :=
  let fileContent := utf8_decode w (buffer fileInfo) in
  match processText textProcessor fileContent with
  | Ok processedContent =>
    ret (mkDocument None processedContent
                    (Some {[ lit "mimeType" := VStr (lit "text") ]}))
  | Throw _ | Hang => lift Hang
  end.

(** [PdfFileHandler.handleFile] *)
Definition PdfFileHandler_handleFile (textProcessor : TextProcessor)
           (fileInfo : FileInfo) : M Document :=
  pdfParser <- new_PDFParse (buffer fileInfo) ;;
  total <- getInfo pdfParser ;;
  rawText <- getText pdfParser None ;;
  finalText <- lift (processText textProcessor rawText) ;;
  _ <- destroy pdfParser ;;
  ret (mkDocument None finalText
                  (Some {[ lit "totalPages" := VNum (of_nat total) ]})).

(** The body of the page loop of [PdfPageFileHandler.handleFile]. *)
Definition page_document (textProcessor : TextProcessor) (pdfParser : PDFParse)
           (total i : nat) : M Document :=
  rawText <- getText pdfParser (Some (i + 1)) ;;
  finalText <- lift (processText textProcessor rawText) ;;
  ret (mkDocument None finalText
         (Some (<[ lit "totalPages" := VNum (of_nat total) ]>
                  {[ lit "page" := VNum (of_nat (i + 1)) ]}))).

(** [PdfPageFileHandler.handleFile] *)
Definition PdfPageFileHandler_handleFile (textProcessor : TextProcessor)
           (fileInfo : FileInfo) : M (list Document) :=
  pdfParser <- new_PDFParse (buffer fileInfo) ;;
  total <- getInfo pdfParser ;;
  docs <- mapM (page_document textProcessor pdfParser total) (seq 0 total) ;;
  _ <- destroy pdfParser ;;
  ret docs.

(** [NoopFileHandler.handleFile] *)
Definition NoopFileHandler_handleFile (fileInfo : FileInfo) : M Document :=
  ret (mkDocument None [] None).

Definition FileHandler_handleFile (h : FileHandler) (fileInfo : FileInfo)
  : M handled :=
  match h with
  | TextHandler tp => d <- TextFileHandler_handleFile tp fileInfo ;; ret (Single d)
  | PdfHandler tp => d <- PdfFileHandler_handleFile tp fileInfo ;; ret (Single d)
  | PdfPageHandler tp =>
    ds <- PdfPageFileHandler_handleFile tp fileInfo ;; ret (Multiple ds)
  | NoopHandler => d <- NoopFileHandler_handleFile fileInfo ;; ret (Single d)
  end.

(** [registerFileHandlers]: [Object.assign(HANDLER_REGISTRY, registry)]. *)
Definition registerFileHandlers (registry : gmap (list N) registry_entry)
  : M unit :=
  fun s =>
    (mkState (log s) (registry ∪ HANDLER_REGISTRY s) (fileHandler s) (cache s),
     Ok tt).

(** [FileHandlerContext.setFileHandler] *)
Definition setFileHandler (mimetype : jsstring)
           (params : option HandlerResolveParameters) : M unit :=
  fun s =>
    match HANDLER_REGISTRY s !! mimetype with
    | None =>
      (s, Throw (Error (lit "No file handler found for MIME type: " ++ mimetype)))
    | Some handlerOrFactory =>
      let h := match handlerOrFactory with
               | Factory f => f (default ∅ params)
               | Ready h => h
               end in
      (mkState (log s) (HANDLER_REGISTRY s) (Some h) (cache s), Ok tt)
    end.

(** [FileHandlerContext.handleFile] *)
Definition handleFile (fileInfo : FileInfo) : M handled :=
  fun s =>
    match fileHandler s with
    | None => (s, Throw (Error (lit "File handler not set")))
    | Some h => FileHandler_handleFile h fileInfo s
    end.

(** *** Chunker *)

Inductive Chunker :=
| RecursiveChunker (options : ChunkingOptions).

(** [Chunker.assertChunkSizeGreaterThanOverlap] *)
Definition assertChunkSizeGreaterThanOverlap (chunkOptions : ChunkingOptions)
  : outcome unit :=
  match overlap chunkOptions with
  | Some o =>
    if ge o (chunkSize chunkOptions)
    then Throw (Error (lit "Overlap must be smaller than chunk size."))
    else Ok tt
  | None => Ok tt
  end.

(** [new RecursiveChunker(options)] *)
Definition new_RecursiveChunker (options : ChunkingOptions) : outcome Chunker :=
  match assertChunkSizeGreaterThanOverlap options with
  | Ok _ =>
    Ok (RecursiveChunker (mkChunkingOptions (chunkSize options) (overlap options)))
  | Throw e => Throw e
  | Hang => Hang
  end.

(** [Chunker.createChunk] *)
Definition createChunk (text : jsstring) (md : option metadata_t) : M Document :=
  u <- extern UuidV4 (fun h => Ok (uuid_v4 w h)) ;;
  ret (mkDocument (Some (lit "chunk-" ++ u)) text md).

(** [RecursiveChunker.chunk] *)
Definition chunk (c : Chunker) (text : jsstring) (md : option metadata_t)
  : M (list Document) :=
  match c with
  | RecursiveChunker options =>
    let chunkOverlap := default zero (overlap options) in
    chunks <- extern (SplitText (chunkSize options) chunkOverlap text)
                     (fun h => splitter_splitText w h (chunkSize options)
                                                  chunkOverlap text) ;;
    mapiM (fun ch index =>
             createChunk ch
               (Some (<[ lit "totalChunks" := VNum (of_nat (length chunks)) ]>
                        (<[ lit "chunk" := VNum (of_nat index) ]>
                           (default ∅ md)))))
          chunks
  end.

(** *** Embedding providers *)

Inductive BaseEmbedding :=
| OllamaEmbedding (model host : jsstring)
| GeminiEmbedding (model : jsstring).

(** [OllamaEmbedding.embed] and [GeminiEmbedding.embed] *)
Definition embed (e : BaseEmbedding) (texts : list jsstring) : M (list vector) :=
  match e with
  | OllamaEmbedding model _ =>
    extern (OllamaEmbed model texts) (fun h => ollama_embed w h model texts)
  | GeminiEmbedding model =>
    response <- extern (GeminiEmbedContent model texts)
                       (fun h => gemini_embedContent w h model texts) ;;
    match response with
    | None => throw (Error (lit "Failed to generate embeddings"))
    | Some embeddings => ret embeddings
    end
  end.

(** *** Vector store *)

Record ChromaVectorStore := mkChromaVectorStore { collectionName : jsstring }.

(** [ChromaVectorStore.getCollection] *)
Definition getCollection (store : ChromaVectorStore) : M handle :=
  fun s =>
    match cache s !! collectionName store with
    | Some collection => (s, Ok collection)
    | None =>
      (collection <- extern (GetOrCreateCollection (collectionName store))
                            (fun h => chroma_getOrCreateCollection w h
                                        (collectionName store)) ;;
       fun s' =>
         (mkState (log s') (HANDLER_REGISTRY s') (fileHandler s')
                  (<[ collectionName store := collection ]> (cache s')),
          Ok collection)) s
    end.

(** The parallel arrays [upsert] hands to the collection. *)
Definition upsert_ids (items : list UpsertItem) : list jsstring :=
  map item_id items.
Definition upsert_embeddings (items : list UpsertItem) : list vector :=
  map (fun item => default [] (item_embedding item)) items.
Definition upsert_documents (items : list UpsertItem) : list jsstring :=
  map item_text items.
Definition upsert_metadatas (items : list UpsertItem) : list metadata_t :=
  map (fun item => default ∅ (item_metadata item)) items.

(** [ChromaVectorStore.upsert] *)
Definition upsert (store : ChromaVectorStore) (items : list UpsertItem) : M unit :=
  collection <- getCollection store ;;
  extern (CollectionUpsert collection (upsert_ids items) (upsert_embeddings items)
                           (upsert_documents items) (upsert_metadatas items))
         (fun h => chroma_upsert w h collection (upsert_ids items)
                                 (upsert_embeddings items)
                                 (upsert_documents items)
                                 (upsert_metadatas items)).

(** One row of [results.documents[0].map(...)] in [search]. *)
Definition search_row (results : QueryResult) (d : option jsstring) (idx : nat)
  : outcome SearchResult :=
  match qr_ids results !! 0, qr_metadatas results !! 0, qr_distances results !! 0 with
  | Some ids0, Some metadatas0, Some distances0 =>
    Ok (mkSearchResult
          (mkDocument (ids0 !! idx)
                      (default [] d)
                      (Some (default ∅ (mjoin (metadatas0 !! idx)))))
          (or_else (mjoin (distances0 !! idx)) zero))
  | _, _, _ => Throw TypeError
  end.

(** [ChromaVectorStore.search] *)
Definition search (store : ChromaVectorStore) (queryVector : option vector)
           (topK : number) : M (list SearchResult) :=
  collection <- getCollection store ;;
  results <- extern (CollectionQuery collection [queryVector] topK)
                    (fun h => chroma_query w h collection [queryVector] topK) ;;
  match qr_documents results !! 0 with
  | None => throw TypeError
  | Some documents0 =>
    mapiM (fun d idx => lift (search_row results d idx)) documents0
  end.

(** *** Language model *)

Inductive LangModelBase :=
| OllamaLangModel (model host : jsstring).

(** [LangModelBase.buildContext] *)
Definition buildContext (promptCtx : PromptContext) : jsstring :=
  match sources promptCtx with
  | None | Some [] => []
  | Some srcs =>
    let contextParts :=
      mapi (fun d idx => lit "[" ++ digits (idx + 1) ++ lit "] " ++ content d)
           srcs in
    join [LF; LF] contextParts
  end.

Definition refusal : jsstring :=
  lit "You don't have any relevant information to answer this question. Please say so politely.".

(** [OllamaLangModel.buildContent] *)
Definition buildContent (context q : jsstring) : jsstring :=
  match context with
  | [] => lit "Question: " ++ q ++ [LF; LF] ++ refusal
  | _ =>
    lit "Context: " ++ context ++ [LF; LF] ++ lit "Question: " ++ q
        ++ [LF; LF] ++ lit "Answer:"
  end.

Definition system_instruction : jsstring :=
  lit "You are a helpful assistant. Use the following context to answer the question. If the context doesn't contain relevant information, say so politely.".

(** [OllamaLangModel.buildPrompt] *)
Definition buildPrompt (lm : LangModelBase) (promptCtx : PromptContext)
  : ChatRequest :=
  match lm with
  | OllamaLangModel model _ =>
    let context := buildContext promptCtx in
    let c := buildContent context (question promptCtx) in
    mkChatRequest model
      [mkMessage (lit "system") system_instruction; mkMessage (lit "user") c]
  end.

(** [OllamaLangModel.generateResponse] *)
Definition generateResponse (lm : LangModelBase) (promptCtx : PromptContext)
  : M jsstring :=
  let prompt := buildPrompt lm promptCtx in
  extern (OllamaChat prompt) (fun h => ollama_chat w h prompt).

(** *** Ingestion orchestrator *)

Record RagDataIngestor := mkRagDataIngestor {
  ing_chunker : Chunker;
  ing_embedding : BaseEmbedding;
  ing_store : ChromaVectorStore
}.

(** The metadata handed to the chunker:
    [{ source, mimeType, ...doc.metadata }]. *)
Definition chunk_metadata (file : FileInfo) (d : Document) : metadata_t :=
  default ∅ (metadata d)
  ∪ <[ lit "mimeType" := VStr (mimetype file) ]>
      {[ lit "source" := VStr (originalname file) ]}.

(** The body of the loop over [files] in [ingest]: the chunks of one file. *)
Definition file_chunks (ing : RagDataIngestor)
           (params : option HandlerResolveParameters) (file : FileInfo)
  : M (list Document) :=
  _ <- setFileHandler (mimetype file) params ;;
  result <- handleFile file ;;
  let docs := match result with
              | Multiple ds => ds
              | Single d => [d]
              end in
  per_doc <- mapM (fun d => chunk (ing_chunker ing) (content d)
                                  (Some (chunk_metadata file d))) docs ;;
  ret (concat per_doc).

(** The loop over [files]: [allChunks] once every file is processed. *)
Definition collectChunks (ing : RagDataIngestor)
           (params : option HandlerResolveParameters) (files : list FileInfo)
  : M (list Document) :=
  per_file <- mapM (file_chunks ing params) files ;;
  ret (concat per_file).

(** [allChunks.map<UpsertItem>((chunk, index) => ...)] *)
Definition upsertItems (allChunks : list Document) (embeddings : list vector)
  : list UpsertItem :=
  mapi (fun c index =>
          mkUpsertItem (default [] (id c)) (embeddings !! index) (content c)
                       (Some (default ∅ (metadata c))))
       allChunks.

(** [RagDataIngestor.ingest] *)
Definition ingest (ing : RagDataIngestor) (files : list FileInfo)
           (params : option HandlerResolveParameters) : M unit :=
  if length files =? 0 then
    throw (Error (lit "No files provided for ingestion"))
  else
    allChunks <- collectChunks ing params files ;;
    embeddings <- embed (ing_embedding ing) (map content allChunks) ;;
    upsert (ing_store ing) (upsertItems allChunks embeddings).

(** *** Query orchestrator *)

Record RagOrchestrator := mkRagOrchestrator {
  langModel : LangModelBase;
  embedding : BaseEmbedding;
  store : ChromaVectorStore
}.

(** [results.filter((result) => result.score >= (threshold || 0))] *)
Definition filterResults (threshold : option number) (results : list SearchResult)
  : list SearchResult :=
  List.filter (fun result => ge (score result) (or_else threshold zero)) results.

(** [RagOrchestrator.query] *)
Definition query (o : RagOrchestrator) (q : jsstring) (topK : number)
           (threshold maxTok : option number) : M jsstring :=
  queryEmbedding <- embed (embedding o) [q] ;;
  results <- search (store o) (queryEmbedding !! 0) topK ;;
  let filteredResults := filterResults threshold results in
  if length filteredResults =? 0 then ret []
  else
    let promptContext :=
      mkPromptContext q (Some (or_else maxTok (of_nat 512)))
                      (Some (map doc filteredResults)) in
    generateResponse (langModel o) promptContext.

End WithWorld.

Arguments ret {A} a s /.
Arguments throw {A} e s /.
Arguments lift {A} o s /.

End Rag.

(** ** Sample worlds and inputs

    Concrete collaborators on which the definitions are evaluated. *)

Module Samples.
Import Js Num Rag.

(** A toy PDF: one page per byte of the buffer, the page text being that
    byte; a splitter that keeps a text whole; an embedder that returns one
    vector per text; a collection that answers two rows. *)
Definition sample_query_result : QueryResult :=
  mkQueryResult
    [[lit "chunk-a"; lit "chunk-b"]]
    [[Some (lit "Paris is the capital of France."); Some (lit "Berlin.")]]
    [[None; None]]
    [[Some (of_nat 1); Some (Fin (1 # 2))]].

Definition sample_world : World :=
  mkWorld
    (fun _ _ texts => Ok (map (fun t => [of_nat (length t)]) texts))
    (fun _ _ texts => Ok (Some (map (fun t => [of_nat (length t)]) texts)))
    (fun _ _ => Ok (lit "Paris."))
    (fun _ _ => Ok 7)
    (fun _ _ _ _ _ _ => Ok tt)
    (fun _ _ _ _ => Ok sample_query_result)
    (fun _ data => Ok (length data))
    (fun _ data partial =>
       match partial with
       | Some p => Ok (take 1 (drop (p - 1) data))
       | None => Ok data
       end)
    (fun _ _ _ text => Ok (match text with [] => [] | _ => [text] end))
    (fun h => digits (length h))
    (fun bytes => bytes).

(** The same world with a PDF parser that fails to extract text. *)
Definition corrupt_pdf_world : World :=
  mkWorld
    (ollama_embed sample_world) (gemini_embedContent sample_world)
    (ollama_chat sample_world) (chroma_getOrCreateCollection sample_world)
    (chroma_upsert sample_world) (chroma_query sample_world)
    (pdf_getInfo sample_world)
    (fun _ _ _ => Throw (Error (lit "Invalid PDF structure")))
    (splitter_splitText sample_world) (uuid_v4 sample_world)
    (utf8_decode sample_world).

(** The registry as the entry point fills it. *)
Definition registry0 : gmap (list N) registry_entry :=
  <[ lit "application/pdf" := Ready (PdfPageHandler DefaultTextProcessor) ]>
    {[ lit "text/plain" := Ready (TextHandler DefaultTextProcessor) ]}.

Definition started : state := mkState [] registry0 None ∅.

Definition ollama_host : jsstring := lit "http://localhost:11434".

Definition sample_ingestor : RagDataIngestor :=
  mkRagDataIngestor
    (RecursiveChunker (mkChunkingOptions (of_nat 1000) (Some zero)))
    (OllamaEmbedding (lit "nomic-embed-text") ollama_host)
    (mkChromaVectorStore (lit "docs")).

Definition sample_orchestrator : RagOrchestrator :=
  mkRagOrchestrator
    (OllamaLangModel (lit "llama3") ollama_host)
    (OllamaEmbedding (lit "nomic-embed-text") ollama_host)
    (mkChromaVectorStore (lit "docs")).

Definition empty_txt : FileInfo :=
  mkFileInfo (lit "empty.txt") zero (lit "text/plain") (lit "7bit") [].

Definition paris_txt : FileInfo :=
  mkFileInfo (lit "paris.txt") (of_nat 31) (lit "text/plain") (lit "7bit")
             (lit "Paris is the capital of France.").

Definition two_page_pdf : FileInfo :=
  mkFileInfo (lit "two.pdf") (of_nat 2) (lit "application/pdf") (lit "7bit")
             (lit "ab").

(** Inputs with page numbers, duplicated lines and leader lines. *)
Definition representative_inputs : list jsstring :=
  [ lit "Hello world." ++ [LF] ++ lit "Page 12" ++ [LF] ++ lit "Hello again.";
    lit "Intro" ++ [LF] ++ lit "Page 3 of 10" ++ [LF] ++ lit "Body text here."
        ++ [LF] ++ lit "Body text here." ++ [LF] ++ lit "More.";
    lit "- 12 -" ++ [LF] ++ lit "text" ++ [LF] ++ lit "-- 3 of 9 --" ++ [LF]
        ++ lit "text2";
    lit "Line one." ++ [LF] ++ lit "Line one." ++ [LF] ++ lit "Line one."
        ++ [LF] ++ lit "Line two.";
    lit "Chapter One .... 14" ++ [LF] ++ lit "Real text.";
    lit "1.2 Section Title .... 14" ++ [LF] ++ lit "next";
    lit "para" ++ [LF; LF] ++ lit "para" ++ [LF; LF] ++ lit "other" ].

(** An item to upsert that has no embedding. *)
Definition bare_item : UpsertItem :=
  mkUpsertItem (lit "chunk-0") None (lit "text without a vector") None.

(** The steps of ingesting the two-page PDF in the sample world. *)
Definition pdf_collect :=
  collectChunks sample_world sample_ingestor None [two_page_pdf] started.
Definition pdf_chunks : list Document :=
  match snd pdf_collect with
  | Ok cs => cs
  | _ => []
  end.
Definition pdf_embed :=
  embed sample_world (ing_embedding sample_ingestor) (map content pdf_chunks)
        (fst pdf_collect).
Definition pdf_embeddings : list vector :=
  match snd pdf_embed with
  | Ok es => es
  | _ => []
  end.
Definition pdf_collection :=
  getCollection sample_world (ing_store sample_ingestor) (fst pdf_embed).

(** The steps of ingesting the empty text file in the sample world. *)
Definition empty_collect :=
  collectChunks sample_world sample_ingestor None [empty_txt] started.

(** The retrieval steps of a query in the sample world. *)
Definition sample_question : jsstring := lit "What is the capital of France?".
Definition query_embed :=
  embed sample_world (embedding sample_orchestrator) [sample_question] started.
Definition query_embedding : list vector :=
  match snd query_embed with
  | Ok es => es
  | _ => []
  end.
Definition query_search :=
  search sample_world (store sample_orchestrator) (query_embedding !! 0)
         (of_nat 3) (fst query_embed).
Definition query_results : list SearchResult :=
  match snd query_search with
  | Ok rs => rs
  | _ => []
  end.

(** A table-of-contents line whose title is a number: title, dot leader,
    page number. *)
Definition numeric_toc_line : jsstring := lit "2024 .... 7".

(** A header label behind one leading space. *)
Definition indented_label : jsstring := lit " Confidential".

End Samples.

(** ** Application layer: configuration, factories and routes *)

Module App.
Import Js Num Rag.

(** The object exported by [config.ts], once the environment is read. *)
Record Config := mkConfig {
  port : number;
  debugMode : bool;
  cfg_chunkSize : number;
  chunkOverlap : number;
  topK : number;
  embeddingModel : jsstring;
  generationModel : jsstring;
  ollamaHost : jsstring;
  geminiApiKey : jsstring;
  chromaHost : jsstring;
  chromaPort : number;
  chromaCollection : jsstring;
  cfg_maxTokens : number;
  retrievalThreshold : number;
  langSmithApiKey : jsstring;
  langSmithTracing : bool;
  langSmithEndpoint : jsstring
}.

(** [createRagOrchestrator] *)
Definition createRagOrchestrator (config : Config) : RagOrchestrator :=
  mkRagOrchestrator
    (OllamaLangModel (generationModel config) (ollamaHost config))
    (OllamaEmbedding (embeddingModel config) (ollamaHost config))
    (mkChromaVectorStore (chromaCollection config)).

(** [createRagDataIngestor]; the constructor of the chunker may throw. *)
Definition createRagDataIngestor (config : Config) : outcome RagDataIngestor :=
  match new_RecursiveChunker
          (mkChunkingOptions (cfg_chunkSize config) (Some (chunkOverlap config))) with
  | Ok chunker =>
    Ok (mkRagDataIngestor chunker
          (OllamaEmbedding (embeddingModel config) (ollamaHost config))
          (mkChromaVectorStore (chromaCollection config)))
  | Throw e => Throw e
  | Hang => Hang
  end.

(** The JSON bodies the two routes send. *)
Inductive json_body :=
| QueryResponse (response : jsstring)
| ErrorBody (error : jsstring)
| IngestSuccess
| IngestError (message : jsstring) (thrown : error).

Record HttpResponse := mkHttpResponse { status : nat; body : json_body }.

(** [try { c } catch (error) { handler error }] *)
Definition try_catch {A} (c : M A) (handler : error -> M A) : M A :=
  fun s =>
    match c s with
    | (s', Throw e) => handler e s'
    | r => r
    end.

Section Routes.
Variable w : World.

(** The handler of [POST /query].  The body is an object whose [query] is
    absent or a string. *)
Definition query_route (config : Config) (ragOrchestrator : RagOrchestrator)
           (body_query : option jsstring) : M HttpResponse :=
  match body_query with
  | None | Some [] =>
    ret (mkHttpResponse 400 (ErrorBody (lit "Query is required")))
  | Some q =>
    try_catch
      (response <- query w ragOrchestrator q (topK config)
                         (Some (retrievalThreshold config))
                         (Some (cfg_maxTokens config)) ;;
       ret (mkHttpResponse 200 (QueryResponse response)))
      (fun _ => ret (mkHttpResponse 500 (ErrorBody (lit "Internal server error"))))
  end.

(** The handler of [POST /ingest], after [multer] has filled [req.files]. *)
Definition ingestion_route (ragDataIngestor : RagDataIngestor)
           (files : list FileInfo) (req_query : HandlerResolveParameters)
  : M HttpResponse :=
  try_catch
    (_ <- ingest w ragDataIngestor files (Some req_query) ;;
     ret (mkHttpResponse 200 IngestSuccess))
    (fun error =>
       ret (mkHttpResponse 500 (IngestError (lit "Ingestion failed") error))).

End Routes.

End App.

(** ** The text processor's passes, written directly

    Each function below says, without a regular expression, what one pass
    does to the text; the properties relate it to the pass. *)

Module Direct.
Import Js.

Definition is_sentence_end (c : char) : bool :=
  (c =? 46)%N || (c =? 33)%N || (c =? 63)%N || (c =? 58)%N.

Definition starts_with_LF (s : jsstring) : bool :=
  match s with
  | c :: _ => (c =? LF)%N
  | [] => false
  end.

(** A line feed becomes a space unless the unit before it ends a sentence or
    the unit after it is a line feed; [prev] is the unit before [s]. *)
Fixpoint join_lines (prev : option char) (s : jsstring) : jsstring :=
  match s with
  | [] => []
  | c :: rest =>
    (if (c =? LF)%N
        && negb (match prev with Some p => is_sentence_end p | None => false end)
        && negb (starts_with_LF rest)
     then SP else c) :: join_lines (Some c) rest
  end.

Definition has_LF (s : jsstring) : bool := existsb (fun c => (c =? LF)%N) s.

(** The number of line feeds at the head of [s]. *)
Fixpoint lead (s : jsstring) : nat :=
  match s with
  | c :: rest => if (c =? LF)%N then S (lead rest) else 0
  | [] => 0
  end.

(** A line feed with two line feeds or more right behind it is dropped, so
    that a run of line feeds keeps two of them at most. *)
Fixpoint squeeze (s : jsstring) : jsstring :=
  match s with
  | [] => []
  | c :: rest =>
    if (c =? LF)%N && (2 <=? lead rest) then squeeze rest else c :: squeeze rest
  end.

(** A line feed read as a space. *)
Definition blur (c : char) : char := if (c =? LF)%N then SP else c.

End Direct.

(** ** What a match does to the matcher state *)

Module MatchSpec.
Import Js Regex.

(** The repetition loop of [run], the matcher of the body being a
    parameter. *)
Definition rep_iter
           (body : mstate -> (mstate -> option mstate) -> option mstate)
           (gs : list nat) (mn : nat) (mx : option nat) (greedy : bool)
           (k : mstate -> option mstate) :=
  fix iter (n cnt : nat) (st : mstate) {struct n} : option mstate :=
    let stop := fun _ : unit => if mn <=? cnt then k st else None in
    match n with
    | 0 => stop tt
    | S n' =>
      let more := fun _ : unit =>
        if under_max cnt mx then
          body (clear_caps gs st) (fun st' =>
            if (mn <=? cnt) && (length (after st') =? length (after st))
            then None
            else iter n' (S cnt) st')
        else None in
      if greedy then orelse (more tt) stop else orelse (stop tt) more
    end.

(** The least number of units a match of the pattern consumes. *)
Fixpoint min_len (r : regex) : nat :=
  match r with
  | Chr _ | Cls _ | Dot => 1
  | Seq a b => min_len a + min_len b
  | Alt a b => Nat.min (min_len a) (min_len b)
  | Rep mn _ _ a => mn * min_len a
  | Grp _ a => min_len a
  | _ => 0
  end.

(** The units a match of the pattern may consume. *)
Fixpoint consumable (icase : bool) (r : regex) (c : char) : bool :=
  match r with
  | Chr d => (canonicalize icase d =? canonicalize icase c)%N
  | Cls items => class_matches items c
  | Dot => negb (is_line_terminator c)
  | Seq a b | Alt a b => consumable icase a c || consumable icase b c
  | Rep _ _ _ a | Grp _ a => consumable icase a c
  | Ref _ => true
  | _ => false
  end.

(** From [st] to [st'] the matcher consumed [mid]. *)
Definition consumed (mid : list char) (st st' : mstate) : Prop :=
  after st = mid ++ after st' /\ before st' = rev mid ++ before st.

(** What one match of [r] from [st] to [st'] guarantees: it consumed a
    segment of the input ahead, of at least [min_len r] units that [r] may
    consume, and it left the captures of other patterns alone. *)
Definition step (icase : bool) (r : regex) (n : nat) (st st' : mstate) : Prop :=
  exists mid,
    consumed mid st st'
    /\ n <= length mid
    /\ forallb (consumable icase r) mid = true
    /\ forall i, ~ In i (groups r) -> get_cap i (caps st') = get_cap i (caps st).

End MatchSpec.

(** ** State invariants *)

Module Invariants.
Import Js Num Rag.


End Invariants.

(** ** More sample inputs *)

Module AppSamples.
Import Js Num Rag App Samples.

Definition sample_config : Config :=
  mkConfig (of_nat 3000) false (of_nat 1000) zero (of_nat 3)
           (lit "nomic-embed-text") (lit "llama3") ollama_host (lit "")
           (lit "localhost") (Fin (8000 # 1)) (lit "docs") (of_nat 1000)
           (Fin (35 # 100)) (lit "") false (lit "").

(** A text processor that always throws. *)
Definition failing_processor : TextProcessor :=
  mkTextProcessor (fun _ => Throw (Error (lit "processing failed"))).

(** A world whose embedding service is down. *)
Definition embed_down_world : World :=
  mkWorld
    (fun _ _ _ => Throw (Error (lit "connect ECONNREFUSED")))
    (gemini_embedContent sample_world)
    (ollama_chat sample_world) (chroma_getOrCreateCollection sample_world)
    (chroma_upsert sample_world) (chroma_query sample_world)
    (pdf_getInfo sample_world) (pdf_getText sample_world)
    (splitter_splitText sample_world) (uuid_v4 sample_world)
    (utf8_decode sample_world).


(** The steps of ingesting the sample text while the embedder is down. *)
Definition down_collect :=
  collectChunks embed_down_world sample_ingestor None [paris_txt] started.
Definition down_chunks : list Document :=
  match snd down_collect with
  | Ok cs => cs
  | _ => []
  end.
Definition down_embed :=
  embed embed_down_world (ing_embedding sample_ingestor) (map content down_chunks)
        (fst down_collect).

(** A world whose vector database refuses connections. *)
Definition chroma_down_world : World :=
  mkWorld
    (ollama_embed sample_world) (gemini_embedContent sample_world)
    (ollama_chat sample_world)
    (fun _ _ => Throw (Error (lit "connect ECONNREFUSED")))
    (chroma_upsert sample_world) (chroma_query sample_world)
    (pdf_getInfo sample_world) (pdf_getText sample_world)
    (splitter_splitText sample_world) (uuid_v4 sample_world)
    (utf8_decode sample_world).

(** A state in which the collection is already cached. *)
Definition warm : state :=
  fst (getCollection sample_world (mkChromaVectorStore (lit "docs")) started).

(** A world whose collection is empty: the query answers one empty row. *)
Definition empty_index_world : World :=
  mkWorld
    (ollama_embed sample_world) (gemini_embedContent sample_world)
    (ollama_chat sample_world) (chroma_getOrCreateCollection sample_world)
    (chroma_upsert sample_world)
    (fun _ _ _ _ => Ok (mkQueryResult [[]] [[]] [[]] [[]]))
    (pdf_getInfo sample_world) (pdf_getText sample_world)
    (splitter_splitText sample_world) (uuid_v4 sample_world)
    (utf8_decode sample_world).

(** A world whose collection answers without any row. *)
Definition no_row_world : World :=
  mkWorld
    (ollama_embed sample_world) (gemini_embedContent sample_world)
    (ollama_chat sample_world) (chroma_getOrCreateCollection sample_world)
    (chroma_upsert sample_world)
    (fun _ _ _ _ => Ok (mkQueryResult [] [] [] []))
    (pdf_getInfo sample_world) (pdf_getText sample_world)
    (splitter_splitText sample_world) (uuid_v4 sample_world)
    (utf8_decode sample_world).

End AppSamples.

(** * Properties *)

(** ** Text processor *)

Module TextProcessorFacts.
Import Js Regex TextProcessor Samples.

Lemma processText_empty : processText [] = [].
Proof. reflexivity. Qed.

(** The leader and the page number of the line are cut off, and its title,
    a number, is left. *)
Lemma processText_numeric_toc_line :
  processText numeric_toc_line = lit "2024".
Proof. vm_compute. reflexivity. Qed.

(** A line that holds only a number is a page number. *)
Lemma processText_bare_number : processText (lit "2024") = [].
Proof. vm_compute. reflexivity. Qed.

(** The label behind a space survives the first pass, because the header
    pattern is anchored at the line start; trimming then exposes it. *)
Lemma processText_indented_label :
  processText indented_label = lit "Confidential"
  /\ processText (lit "Confidential") = [].
Proof. split; vm_compute; reflexivity. Qed.

(** C4, as stated, fails: [processText] is not idempotent on every input,
    and not on every input with a table-of-contents leader line.  On the line
    [2024 .... 7] the first pass cuts the leader and leaves [2024], which
    the second pass deletes as a page number. *)
Lemma processText_idempotent_counterexample :
  ~ (forall x : jsstring, processText (processText x) = processText x).
Proof.
  intros H. specialize (H numeric_toc_line).
  rewrite processText_numeric_toc_line, processText_bare_number in H.
  discriminate H.
Qed.

(** C4, amended: [processText] is idempotent on the representative inputs,
    which contain page-number lines, duplicated lines and table-of-contents
    leader lines: processing the processed text again changes nothing. *)
Theorem processText_idempotent_on_representatives :
  Forall (fun x => processText (processText x) = processText x)
         representative_inputs.
Proof.
  unfold representative_inputs.
  repeat (apply List.Forall_cons; [vm_compute; reflexivity |]).
  apply List.Forall_nil.
Qed.

End TextProcessorFacts.

(** ** Lists and the effect layer *)

Module RagLemmas.
Import Js Num Rag.

Lemma lookup_map {A B} (f : A -> B) (l : list A) (i : nat) :
  map f l !! i = f <$> (l !! i).
Proof.
  revert i. induction l as [|x l IH]; intros [|i]; simpl; auto.
Qed.

Lemma lookup_mapi {A B} (f : A -> nat -> B) (l : list A) (i : nat) :
  mapi f l !! i = (fun x => f x i) <$> (l !! i).
Proof. unfold mapi. apply list_lookup_imap. Qed.

Lemma length_mapi {A B} (f : A -> nat -> B) (l : list A) :
  length (mapi f l) = length l.
Proof. unfold mapi. apply length_imap. Qed.

Lemma lt_not_ge (a b : number) : lt a b = true -> ge a b = false.
Proof.
  destruct a, b; simpl; try discriminate; try reflexivity.
  intros H. apply negb_true_iff in H. exact H.
Qed.

Lemma join_cons_nonempty (sep p : jsstring) (ps : list jsstring) :
  p <> [] -> join sep (p :: ps) <> [].
Proof.
  intros Hp. destruct ps; simpl; [exact Hp |].
  destruct p; [contradiction | discriminate].
Qed.

Lemma bind_ok {A B} (c : M A) (k : A -> M B) s s' a :
  c s = (s', Ok a) -> bind c k s = k a s'.
Proof. intros H. unfold bind. rewrite H. reflexivity. Qed.

Lemma bind_throw {A B} (c : M A) (k : A -> M B) s s' e :
  c s = (s', Throw e) -> bind c k s = (s', Throw e).
Proof. intros H. unfold bind. rewrite H. reflexivity. Qed.

Lemma bind_hang {A B} (c : M A) (k : A -> M B) s s' :
  c s = (s', Hang) -> bind c k s = (s', Hang).
Proof. intros H. unfold bind. rewrite H. reflexivity. Qed.

Lemma run_eq {A} (r : state * outcome A) (o : outcome A) :
  snd r = o -> r = (fst r, o).
Proof. destruct r. simpl. intros ->. reflexivity. Qed.

Lemma calls_made_nil {A} (c : M A) s :
  fst (c s) = s -> calls_made c s = [].
Proof. intros H. unfold calls_made. rewrite H. apply drop_all. Qed.

End RagLemmas.

(** ** Chunker construction *)

Module ChunkerFacts.
Import Js Num Rag RagLemmas.

(** C9. With both [overlap] and [chunkSize] given: when
    [overlap >= chunkSize] the constructor of the chunker throws the error
    [Overlap must be smaller than chunk size.], and when
    [overlap < chunkSize] it returns the chunker holding these options. *)
Theorem chunker_construction (size ov : number) :
  (ge ov size = true ->
   new_RecursiveChunker (mkChunkingOptions size (Some ov))
   = Throw (Error (lit "Overlap must be smaller than chunk size.")))
  /\
  (lt ov size = true ->
   new_RecursiveChunker (mkChunkingOptions size (Some ov))
   = Ok (RecursiveChunker (mkChunkingOptions size (Some ov)))).
Proof.
  unfold new_RecursiveChunker, assertChunkSizeGreaterThanOverlap. simpl.
  split; intros H.
  - rewrite H. reflexivity.
  - rewrite (lt_not_ge _ _ H). reflexivity.
Qed.

Lemma chunker_construction_witness :
  new_RecursiveChunker (mkChunkingOptions (of_nat 100) (Some (of_nat 100)))
  = Throw (Error (lit "Overlap must be smaller than chunk size."))
  /\
  new_RecursiveChunker (mkChunkingOptions (of_nat 1000) (Some (of_nat 200)))
  = Ok (RecursiveChunker (mkChunkingOptions (of_nat 1000) (Some (of_nat 200)))).
Proof.
  split.
  - apply (proj1 (chunker_construction (of_nat 100) (of_nat 100))).
    reflexivity.
  - apply (proj2 (chunker_construction (of_nat 1000) (of_nat 200))).
    reflexivity.
Defined.

(** Without an overlap the constructor succeeds whatever the chunk size. *)
Lemma chunker_construction_no_overlap (size : number) :
  new_RecursiveChunker (mkChunkingOptions size None)
  = Ok (RecursiveChunker (mkChunkingOptions size None)).
Proof. reflexivity. Qed.

End ChunkerFacts.

(** ** Prompt assembly *)

Module PromptFacts.
Import Js Num Rag RagLemmas.

Lemma buildContext_nonempty q mt d ds :
  buildContext (mkPromptContext q mt (Some (d :: ds))) <> [].
Proof.
  unfold buildContext, mapi. cbn [sources]. rewrite imap_cons.
  apply join_cons_nonempty. intros H. apply (f_equal length) in H.
  rewrite length_app in H. change (length (lit "[")) with 1 in H.
  simpl in H. lia.
Qed.

(** C8. The request built for the chat model has a system message and then
    the user message.  Without sources (absent or empty list) the user
    message is the question followed by the statement that no relevant
    information is available and the instruction to say so politely.  With
    sources it is [Context: ] followed by the sources in their order, each
    as [[i] text] with [i] counted from 1 and separated by a blank line, then
    [Question: ] with the question, then the cue [Answer:]. *)
Theorem buildPrompt_user_message (model host q : jsstring) (mt : option number) :
  let no_context :=
    lit "Question: " ++ q ++ [LF; LF]
    ++ lit "You don't have any relevant information to answer this question. Please say so politely." in
  let user_of ctx :=
    messages (buildPrompt (OllamaLangModel model host) ctx) !! 1 in
  user_of (mkPromptContext q mt None) = Some (mkMessage (lit "user") no_context)
  /\ user_of (mkPromptContext q mt (Some [])) = Some (mkMessage (lit "user") no_context)
  /\ forall d ds,
      user_of (mkPromptContext q mt (Some (d :: ds)))
      = Some (mkMessage (lit "user")
                (lit "Context: "
                 ++ join [LF; LF]
                      (mapi (fun src idx =>
                               lit "[" ++ digits (idx + 1) ++ lit "] " ++ content src)
                            (d :: ds))
                 ++ [LF; LF] ++ lit "Question: " ++ q ++ [LF; LF] ++ lit "Answer:")).
Proof.
  cbv zeta. split; [reflexivity | split; [reflexivity |]].
  intros d ds. unfold buildPrompt. cbn [messages]. cbn [lookup list_lookup].
  pose proof (buildContext_nonempty q mt d ds) as Hne.
  unfold buildContent. cbn [question].
  destruct (buildContext (mkPromptContext q mt (Some (d :: ds)))) eqn:E;
    [contradiction |].
  rewrite <- E. reflexivity.
Qed.

End PromptFacts.

(** ** The call log *)

Module CallLog.
Import Js Num Rag RagLemmas.

Section Only.
Context (P : call -> bool).

Lemma only_ret {A} (a : A) : only_calls P (ret a).
Proof. intros s. exists []. simpl. rewrite app_nil_r. auto. Qed.

Lemma only_throw {A} (e : error) : only_calls P (@throw A e).
Proof. intros s. exists []. simpl. rewrite app_nil_r. auto. Qed.

Lemma only_lift {A} (o : outcome A) : only_calls P (lift o).
Proof. intros s. exists []. simpl. rewrite app_nil_r. auto. Qed.

Lemma only_extern {A} (c : call) (answer : list call -> outcome A) :
  P c = true -> only_calls P (extern c answer).
Proof. intros H s. exists [c]. simpl. rewrite H. auto. Qed.

Lemma only_bind {A B} (c : M A) (k : A -> M B) :
  only_calls P c -> (forall a, only_calls P (k a)) -> only_calls P (bind c k).
Proof.
  intros Hc Hk s. destruct (Hc s) as [d [Hd Pd]]. unfold bind.
  destruct (c s) as [s' [a | e | ]] eqn:E; simpl in Hd.
  - destruct (Hk a s') as [d' [Hd' Pd']].
    exists (d ++ d'). rewrite Hd', Hd, app_assoc, forallb_app, Pd, Pd'. auto.
  - exists d. auto.
  - exists d. auto.
Qed.

Lemma only_mapM {A B} (f : A -> M B) (l : list A) :
  (forall x, only_calls P (f x)) -> only_calls P (mapM f l).
Proof.
  intros Hf. induction l as [|x l IH]; simpl.
  - apply only_ret.
  - apply only_bind; [apply Hf |]. intros y.
    apply only_bind; [apply IH |]. intros ys. apply only_ret.
Qed.

Lemma only_mapiM {A B} (f : A -> nat -> M B) (l : list A) :
  (forall x i, only_calls P (f x i)) -> only_calls P (mapiM f l).
Proof. intros Hf. unfold mapiM. apply only_mapM. intros [i x]. apply Hf. Qed.

(** A computation chosen by inspecting the state. *)
Lemma only_by_state {A} (c : M A) (pick : state -> M A) :
  (forall s, c s = pick s s) -> (forall s0, only_calls P (pick s0)) ->
  only_calls P c.
Proof. intros Heq Hp s. rewrite Heq. apply Hp. Qed.

End Only.

Lemma only_calls_made {A} (P : call -> bool) (c : M A) s :
  only_calls P c -> forallb P (calls_made c s) = true.
Proof.
  intros H. destruct (H s) as [d [Hd Pd]]. unfold calls_made.
  rewrite Hd, drop_app_length. exact Pd.
Qed.

Lemma only_weaken {A} (P Q : call -> bool) (c : M A) :
  (forall x, P x = true -> Q x = true) -> only_calls P c -> only_calls Q c.
Proof.
  intros HPQ H s. destruct (H s) as [d [Hd Pd]]. exists d. split; [exact Hd |].
  rewrite forallb_forall in *. intros x Hx. apply HPQ, Pd, Hx.
Qed.

(** The log after a computation is the log before it followed by the calls
    the computation made. *)
Lemma log_grows {A} (P : call -> bool) (c : M A) s :
  only_calls P c -> log (fst (c s)) = log s ++ calls_made c s.
Proof.
  intros H. destruct (H s) as [d [Hd _]]. unfold calls_made.
  rewrite Hd, drop_app_length. reflexivity.
Qed.

Lemma filter_all_false {A} (P Q : A -> bool) (l : list A) :
  forallb P l = true -> (forall x, P x = true -> Q x = false) ->
  List.filter Q l = [].
Proof.
  intros H HPQ. induction l as [|x l IH]; simpl in *; [reflexivity |].
  apply andb_true_iff in H as [Hx Hl]. rewrite (HPQ x Hx). apply IH, Hl.
Qed.

End CallLog.

(** ** Vector store *)

Module VectorStoreFacts.
Import Js Num Rag RagLemmas CallLog Samples.

Lemma getCollection_calls w store :
  only_calls is_get_collection (getCollection w store).
Proof.
  intros s. unfold getCollection.
  destruct (cache s !! collectionName store) as [c|].
  - exists []. simpl. rewrite app_nil_r. auto.
  - unfold bind, extern.
    destruct (chroma_getOrCreateCollection w (log s) (collectionName store));
      simpl; exists [GetOrCreateCollection (collectionName store)]; auto.
Qed.

Lemma upsert_runs w store items s s1 coll :
  getCollection w store s = (s1, Ok coll) ->
  upsert w store items s
  = (add_call s1 (CollectionUpsert coll (upsert_ids items) (upsert_embeddings items)
                                   (upsert_documents items) (upsert_metadatas items)),
     chroma_upsert w (log s1) coll (upsert_ids items) (upsert_embeddings items)
                   (upsert_documents items) (upsert_metadatas items)).
Proof. intros H. unfold upsert. rewrite (bind_ok _ _ _ _ _ H). reflexivity. Qed.

Lemma upsert_arrays_length (items : list UpsertItem) :
  length (upsert_ids items) = length items
  /\ length (upsert_embeddings items) = length items
  /\ length (upsert_documents items) = length items
  /\ length (upsert_metadatas items) = length items.
Proof.
  unfold upsert_ids, upsert_embeddings, upsert_documents, upsert_metadatas.
  rewrite !length_map. auto.
Qed.

(** C10. When the collection is available, [upsert] of a batch in which the
    item at index [i] has no embedding does not fail on its own account: it
    makes the collection call, whose answer is its result, and the embedding
    array of that call holds the empty vector at index [i], next to the
    item's id and text at the same index. *)
Theorem upsert_absent_embedding w store (items : list UpsertItem) s s1 coll i item :
  getCollection w store s = (s1, Ok coll) ->
  items !! i = Some item ->
  item_embedding item = None ->
  exists ids embs docs metas,
    upsert w store items s
    = (add_call s1 (CollectionUpsert coll ids embs docs metas),
       chroma_upsert w (log s1) coll ids embs docs metas)
    /\ embs !! i = Some []
    /\ ids !! i = Some (item_id item)
    /\ docs !! i = Some (item_text item)
    /\ length embs = length items.
Proof.
  intros Hget Hi Hnone.
  exists (upsert_ids items), (upsert_embeddings items),
         (upsert_documents items), (upsert_metadatas items).
  split; [apply upsert_runs, Hget |].
  unfold upsert_ids, upsert_embeddings, upsert_documents.
  rewrite !lookup_map, Hi, length_map. simpl. rewrite Hnone. auto.
Qed.

Lemma upsert_absent_embedding_witness :
  exists ids embs docs metas,
    upsert sample_world (mkChromaVectorStore (lit "docs")) [bare_item] started
    = (add_call (fst (getCollection sample_world (mkChromaVectorStore (lit "docs")) started))
                (CollectionUpsert 7 ids embs docs metas),
       chroma_upsert sample_world
         (log (fst (getCollection sample_world (mkChromaVectorStore (lit "docs")) started)))
         7 ids embs docs metas)
    /\ embs !! 0 = Some []
    /\ ids !! 0 = Some (item_id bare_item)
    /\ docs !! 0 = Some (item_text bare_item)
    /\ length embs = length [bare_item].
Proof.
  apply (upsert_absent_embedding sample_world (mkChromaVectorStore (lit "docs"))
           [bare_item] started _ 7 0 bare_item); reflexivity.
Defined.

End VectorStoreFacts.

(** ** Which calls each component makes *)

Module Footprint.
Import Js Num Rag RagLemmas CallLog VectorStoreFacts.

Ltac calls :=
  repeat first
    [ apply only_ret | apply only_throw | apply only_lift
    | apply only_extern; reflexivity
    | apply only_bind; [| intros ?]
    | apply only_mapM; intros ?
    | apply only_mapiM; intros ? ? ].

Lemma calls_made_bind_ok {A B} P Q (c : M A) (k : A -> M B) s s' a :
  only_calls P c -> only_calls Q (k a) -> c s = (s', Ok a) ->
  calls_made (bind c k) s = calls_made c s ++ calls_made (k a) s'.
Proof.
  intros Hc Hk E.
  pose proof (log_grows P c s Hc) as L1. rewrite E in L1. simpl in L1.
  pose proof (log_grows Q (k a) s' Hk) as L2.
  unfold calls_made at 1. rewrite (bind_ok _ _ _ _ _ E), L2, L1.
  rewrite <- app_assoc, drop_app_length. reflexivity.
Qed.

Lemma calls_made_bind_stop {A B} (c : M A) (k : A -> M B) s :
  (forall a, snd (c s) <> Ok a) ->
  calls_made (bind c k) s = calls_made c s.
Proof.
  intros H. unfold calls_made, bind.
  destruct (c s) as [s' [a | e | ]]; [destruct (H a); reflexivity | |];
    reflexivity.
Qed.

Lemma calls_made_extern {A} (c : call) (answer : list call -> outcome A) s :
  calls_made (extern c answer) s = [c].
Proof. unfold calls_made, extern. simpl. apply drop_app_length. Qed.

Section WithWorld.
Variable w : World.

Lemma handler_calls h f :
  only_calls is_extraction_call (FileHandler_handleFile w h f).
Proof.
  destruct h as [tp | tp | tp | ]; unfold FileHandler_handleFile.
  - unfold TextFileHandler_handleFile.
    destruct (processText tp (utf8_decode w (buffer f))); calls.
  - unfold PdfFileHandler_handleFile, new_PDFParse, getInfo, getText, destroy.
    calls.
  - unfold PdfPageFileHandler_handleFile, page_document, new_PDFParse, getInfo,
      getText, destroy.
    calls.
  - unfold NoopFileHandler_handleFile. calls.
Qed.

Lemma handleFile_calls f : only_calls is_extraction_call (handleFile w f).
Proof.
  intros s. unfold handleFile. destruct (fileHandler s) as [h|].
  - apply handler_calls.
  - exists []. simpl. rewrite app_nil_r. auto.
Qed.

Lemma setFileHandler_calls P mimetype params :
  only_calls P (setFileHandler mimetype params).
Proof.
  intros s. unfold setFileHandler.
  destruct (HANDLER_REGISTRY s !! mimetype); exists []; simpl;
    rewrite app_nil_r; auto.
Qed.

Lemma chunk_calls c text md : only_calls is_extraction_call (chunk w c text md).
Proof. destruct c. unfold chunk, createChunk. calls. Qed.

Lemma file_chunks_calls ing params file :
  only_calls is_extraction_call (file_chunks w ing params file).
Proof.
  unfold file_chunks.
  apply only_bind; [apply setFileHandler_calls | intros _].
  apply only_bind; [apply handleFile_calls | intros result].
  apply only_bind; [| intros; apply only_ret].
  apply only_mapM. intros d. apply chunk_calls.
Qed.

Lemma collectChunks_calls ing params files :
  only_calls is_extraction_call (collectChunks w ing params files).
Proof.
  unfold collectChunks.
  apply only_bind; [| intros; apply only_ret].
  apply only_mapM. intros f. apply file_chunks_calls.
Qed.

Lemma embed_calls e texts : only_calls is_embed_call (embed w e texts).
Proof.
  destruct e; unfold embed; [calls |].
  apply only_bind; [calls | intros [es|]; calls].
Qed.

(** An embedding makes exactly one call, and the call carries the texts. *)
Lemma embed_one_call e texts s :
  exists c, calls_made (embed w e texts) s = [c]
            /\ is_embed_call c = true
            /\ embed_call_input c = Some texts.
Proof.
  destruct e as [model host | model]; unfold embed.
  - exists (OllamaEmbed model texts). rewrite calls_made_extern. auto.
  - exists (GeminiEmbedContent model texts). unfold calls_made, bind, extern.
    destruct (gemini_embedContent w (log s) model texts) as [[es|] | err | ];
      simpl; rewrite drop_app_length; auto.
Qed.

Lemma upsert_calls store items :
  only_calls (fun c => is_get_collection c || is_upsert_call c)
             (upsert w store items).
Proof.
  unfold upsert. apply only_bind.
  - eapply only_weaken; [| apply getCollection_calls].
    intros x Hx. rewrite Hx. reflexivity.
  - intros coll. apply only_extern. reflexivity.
Qed.

End WithWorld.

End Footprint.

(** ** Ingestion *)

Module IngestFacts.
Import Js Num Rag RagLemmas CallLog VectorStoreFacts Footprint Samples.

(** The sample start state is the empty process after the registration the
    entry point performs. *)
Lemma started_registered :
  registerFileHandlers registry0 (mkState [] ∅ None ∅) = (started, Ok tt).
Proof.
  unfold registerFileHandlers, started. cbn [log HANDLER_REGISTRY fileHandler cache].
  rewrite (right_id_L ∅ (∪)). reflexivity.
Qed.

(** C6. [ingest] of the empty file list throws the error
    [No files provided for ingestion] at once: the state it returns is the
    one it started in (log, registry, handler and collection cache alike),
    and it makes no call to an extractor, an embedding provider or the vector
    store. *)
Theorem ingest_empty_file_list w ing params s :
  ingest w ing [] params s
  = (s, Throw (Error (lit "No files provided for ingestion")))
  /\ calls_made (ingest w ing [] params) s = [].
Proof.
  split; [reflexivity |]. apply calls_made_nil. reflexivity.
Qed.

Lemma ingest_nonempty w ing files params :
  files <> [] ->
  ingest w ing files params
  = (allChunks <- collectChunks w ing params files ;;
     embeddings <- embed w (ing_embedding ing) (map content allChunks) ;;
     upsert w (ing_store ing) (upsertItems allChunks embeddings)).
Proof. intros H. destruct files; [contradiction | reflexivity]. Qed.

Lemma upsert_no_embed_calls w store items s :
  List.filter is_embed_call (calls_made (upsert w store items) s) = [].
Proof.
  eapply filter_all_false.
  - apply only_calls_made, upsert_calls.
  - intros [] H; simpl in H; try discriminate; reflexivity.
Qed.

(** Whatever the providers answer, an ingestion that reaches the embedding
    step makes exactly one embedding call, over the texts of all chunks. *)
Lemma ingest_embed_calls w ing files params s s1 allChunks :
  files <> [] ->
  collectChunks w ing params files s = (s1, Ok allChunks) ->
  exists e,
    calls_made (embed w (ing_embedding ing) (map content allChunks)) s1 = [e]
    /\ embed_call_input e = Some (map content allChunks)
    /\ List.filter is_embed_call (calls_made (ingest w ing files params) s) = [e].
Proof.
  intros Hne Hc.
  destruct (embed_one_call w (ing_embedding ing) (map content allChunks) s1)
    as [e [He [Hemb Hin]]].
  exists e. split; [exact He | split; [exact Hin |]].
  rewrite (ingest_nonempty _ _ _ _ Hne).
  assert (Hrest :
    List.filter is_embed_call
      (calls_made
         (embeddings <- embed w (ing_embedding ing) (map content allChunks) ;;
          upsert w (ing_store ing) (upsertItems allChunks embeddings)) s1) = [e]).
  { destruct (embed w (ing_embedding ing) (map content allChunks) s1)
      as [s2 r] eqn:E.
    destruct r as [embeddings | err | ].
    - rewrite (calls_made_bind_ok is_embed_call
                 (fun c => is_get_collection c || is_upsert_call c)
                 _ _ _ _ _ (embed_calls _ _ _) (upsert_calls _ _ _) E).
      rewrite List.filter_app, He, upsert_no_embed_calls. simpl.
      rewrite Hemb. reflexivity.
    - rewrite calls_made_bind_stop by (rewrite E; discriminate).
      rewrite He. simpl. rewrite Hemb. reflexivity.
    - rewrite calls_made_bind_stop by (rewrite E; discriminate).
      rewrite He. simpl. rewrite Hemb. reflexivity. }
  assert (Hk : only_calls (fun _ => true)
                 (embeddings <- embed w (ing_embedding ing) (map content allChunks) ;;
                  upsert w (ing_store ing) (upsertItems allChunks embeddings))).
  { apply only_bind.
    - eapply only_weaken; [| apply embed_calls]. auto.
    - intros a. eapply only_weaken; [| apply upsert_calls]. auto. }
  rewrite (calls_made_bind_ok is_extraction_call (fun _ => true)
             _ _ _ _ _ (collectChunks_calls _ _ _ _) Hk Hc).
  rewrite List.filter_app, Hrest.
  rewrite (filter_all_false is_extraction_call is_embed_call).
  - reflexivity.
  - apply only_calls_made, collectChunks_calls.
  - intros [] H; simpl in H; try discriminate; reflexivity.
Qed.

Lemma upsert_calls_made w store items s s1 coll :
  getCollection w store s = (s1, Ok coll) ->
  calls_made (upsert w store items) s
  = calls_made (getCollection w store) s
    ++ [CollectionUpsert coll (upsert_ids items) (upsert_embeddings items)
                         (upsert_documents items) (upsert_metadatas items)].
Proof.
  intros Hg.
  pose proof (log_grows _ _ s (getCollection_calls w store)) as L.
  rewrite Hg in L. simpl in L.
  unfold calls_made at 1. rewrite (upsert_runs _ _ _ _ _ _ Hg). simpl.
  rewrite L, <- app_assoc, drop_app_length. reflexivity.
Qed.

Lemma upsertItems_length allChunks embeddings :
  length (upsertItems allChunks embeddings) = length allChunks.
Proof. unfold upsertItems. apply length_mapi. Qed.

Lemma upsertItems_lookup allChunks embeddings i c :
  allChunks !! i = Some c ->
  upsertItems allChunks embeddings !! i
  = Some (mkUpsertItem (default [] (id c)) (embeddings !! i) (content c)
                       (Some (default ∅ (metadata c)))).
Proof. intros H. unfold upsertItems. rewrite lookup_mapi, H. reflexivity. Qed.

(** A run that obtains chunks, embeddings and the collection ends with one
    upsert of the items built from them, the only upsert call of the run. *)
Lemma ingest_reaches_upsert w ing files params s s1 allChunks s2 embeddings s3 coll :
  files <> [] ->
  collectChunks w ing params files s = (s1, Ok allChunks) ->
  embed w (ing_embedding ing) (map content allChunks) s1 = (s2, Ok embeddings) ->
  getCollection w (ing_store ing) s2 = (s3, Ok coll) ->
  let items := upsertItems allChunks embeddings in
  let request :=
    CollectionUpsert coll (upsert_ids items) (upsert_embeddings items)
                     (upsert_documents items) (upsert_metadatas items) in
  ingest w ing files params s
  = (add_call s3 request,
     chroma_upsert w (log s3) coll (upsert_ids items) (upsert_embeddings items)
                   (upsert_documents items) (upsert_metadatas items))
  /\ List.filter is_upsert_call (calls_made (ingest w ing files params) s)
     = [request].
Proof.
  intros Hne Hc He Hg items request.
  assert (Hrun : ingest w ing files params s
                 = upsert w (ing_store ing) items s2).
  { rewrite (ingest_nonempty _ _ _ _ Hne).
    rewrite (bind_ok _ _ _ _ _ Hc), (bind_ok _ _ _ _ _ He). reflexivity. }
  split; [rewrite Hrun; apply upsert_runs, Hg |].
  rewrite (ingest_nonempty _ _ _ _ Hne).
  assert (Hu : only_calls (fun c => is_get_collection c || is_upsert_call c)
                 (upsert w (ing_store ing) items)) by apply upsert_calls.
  assert (Hk : only_calls (fun _ => true)
                 (embeddings0 <- embed w (ing_embedding ing) (map content allChunks) ;;
                  upsert w (ing_store ing) (upsertItems allChunks embeddings0))).
  { apply only_bind.
    - eapply only_weaken; [| apply embed_calls]. auto.
    - intros a. eapply only_weaken; [| apply upsert_calls]. auto. }
  rewrite (calls_made_bind_ok is_extraction_call (fun _ => true)
             _ _ _ _ _ (collectChunks_calls _ _ _ _) Hk Hc).
  rewrite (calls_made_bind_ok is_embed_call
             (fun c => is_get_collection c || is_upsert_call c)
             _ _ _ _ _ (embed_calls _ _ _) Hu He).
  rewrite (upsert_calls_made _ _ _ _ _ _ Hg), !List.filter_app.
  rewrite (filter_all_false is_extraction_call is_upsert_call);
    [| apply only_calls_made, collectChunks_calls
     | intros [] H; simpl in H; try discriminate; reflexivity].
  rewrite (filter_all_false is_embed_call is_upsert_call);
    [| apply only_calls_made, embed_calls
     | intros [] H; simpl in H; try discriminate; reflexivity].
  rewrite (filter_all_false is_get_collection is_upsert_call);
    [| apply only_calls_made, getCollection_calls
     | intros [] H; simpl in H; try discriminate; reflexivity].
  reflexivity.
Qed.

(** C2. Take a non-empty batch whose files yield the chunks [allChunks], for
    which the embedder returns [embeddings] and the collection is available.
    Then [ingest] ends with one collection upsert, whose answer is its
    result; over the whole run it makes exactly one embedding call, carrying
    the texts of all chunks in their order, and exactly one upsert call.  The
    four arrays of that call have the length of [allChunks], and at every
    index [i] they hold the id, the text and the metadata of the [i]-th chunk
    and the [i]-th vector of [embeddings]. *)
Theorem ingest_pairs_chunks_with_embeddings
        w ing files params s s1 (allChunks : list Document) s2
        (embeddings : list vector) s3 coll :
  files <> [] ->
  collectChunks w ing params files s = (s1, Ok allChunks) ->
  embed w (ing_embedding ing) (map content allChunks) s1 = (s2, Ok embeddings) ->
  getCollection w (ing_store ing) s2 = (s3, Ok coll) ->
  exists e ids embs docs metas,
    ingest w ing files params s
    = (add_call s3 (CollectionUpsert coll ids embs docs metas),
       chroma_upsert w (log s3) coll ids embs docs metas)
    /\ List.filter is_embed_call (calls_made (ingest w ing files params) s) = [e]
    /\ embed_call_input e = Some (map content allChunks)
    /\ List.filter is_upsert_call (calls_made (ingest w ing files params) s)
       = [CollectionUpsert coll ids embs docs metas]
    /\ length ids = length allChunks
    /\ length embs = length allChunks
    /\ length docs = length allChunks
    /\ length metas = length allChunks
    /\ forall i c,
        allChunks !! i = Some c ->
        ids !! i = Some (default [] (id c))
        /\ docs !! i = Some (content c)
        /\ metas !! i = Some (default ∅ (metadata c))
        /\ forall v, embeddings !! i = Some v -> embs !! i = Some v.
Proof.
  intros Hne Hc He Hg.
  destruct (ingest_embed_calls w ing files params s s1 allChunks Hne Hc)
    as [e [_ [Hin Hfilter]]].
  destruct (ingest_reaches_upsert w ing files params s s1 allChunks s2
              embeddings s3 coll Hne Hc He Hg) as [Hrun Hups].
  set (items := upsertItems allChunks embeddings) in *.
  exists e, (upsert_ids items), (upsert_embeddings items),
         (upsert_documents items), (upsert_metadatas items).
  split; [exact Hrun |]. split; [exact Hfilter |]. split; [exact Hin |].
  split; [exact Hups |].
  destruct (upsert_arrays_length items) as [L1 [L2 [L3 L4]]].
  unfold items in L1, L2, L3, L4. rewrite upsertItems_length in L1, L2, L3, L4.
  repeat (split; [assumption |]).
  intros i c Hi.
  unfold upsert_ids, upsert_embeddings, upsert_documents, upsert_metadatas, items.
  rewrite !lookup_map, (upsertItems_lookup _ _ _ _ Hi). simpl.
  repeat (split; [reflexivity |]).
  intros v Hv. rewrite Hv. reflexivity.
Qed.

Lemma ingest_pairs_chunks_with_embeddings_witness :
  exists e ids embs docs metas,
    ingest sample_world sample_ingestor [two_page_pdf] None started
    = (add_call (fst pdf_collection) (CollectionUpsert 7 ids embs docs metas),
       chroma_upsert sample_world (log (fst pdf_collection)) 7 ids embs docs metas)
    /\ List.filter is_embed_call
         (calls_made (ingest sample_world sample_ingestor [two_page_pdf] None) started)
       = [e]
    /\ embed_call_input e = Some (map content pdf_chunks)
    /\ List.filter is_upsert_call
         (calls_made (ingest sample_world sample_ingestor [two_page_pdf] None) started)
       = [CollectionUpsert 7 ids embs docs metas]
    /\ length ids = length pdf_chunks
    /\ length embs = length pdf_chunks
    /\ length docs = length pdf_chunks
    /\ length metas = length pdf_chunks
    /\ forall i c,
        pdf_chunks !! i = Some c ->
        ids !! i = Some (default [] (id c))
        /\ docs !! i = Some (content c)
        /\ metas !! i = Some (default ∅ (metadata c))
        /\ forall v, pdf_embeddings !! i = Some v -> embs !! i = Some v.
Proof.
  apply (ingest_pairs_chunks_with_embeddings
           sample_world sample_ingestor [two_page_pdf] None started
           (fst pdf_collect) pdf_chunks (fst pdf_embed) pdf_embeddings
           (fst pdf_collection) 7).
  - discriminate.
  - apply run_eq. vm_compute. reflexivity.
  - apply run_eq. vm_compute. reflexivity.
  - apply run_eq. vm_compute. reflexivity.
Defined.


(** The empty text file in the sample world: the splitter is asked once and
    returns no chunk, and then the embedder and the collection are called
    all the same, with empty arrays. *)
Lemma ingest_empty_txt_calls :
  snd empty_collect = Ok []
  /\ calls_made (ingest sample_world sample_ingestor [empty_txt] None) started
     = [ SplitText (of_nat 1000) zero [];
         OllamaEmbed (lit "nomic-embed-text") [];
         GetOrCreateCollection (lit "docs");
         CollectionUpsert 7 [] [] [] [] ].
Proof. split; vm_compute; reflexivity. Qed.

(** C3, as stated, fails: a non-empty batch whose files yield no chunk still
    makes an embedding call and an upsert call.  The empty text file in the
    sample world is such a batch. *)
Lemma ingest_zero_chunks_counterexample :
  ~ (forall w ing files params s s1,
        files <> [] ->
        collectChunks w ing params files s = (s1, Ok []) ->
        List.filter is_embed_call (calls_made (ingest w ing files params) s) = []
        /\ List.filter is_upsert_call (calls_made (ingest w ing files params) s) = []).
Proof.
  intros H.
  destruct (H sample_world sample_ingestor [empty_txt] None started
              (fst empty_collect)) as [Hembed _].
  - discriminate.
  - apply run_eq. vm_compute. reflexivity.
  - rewrite (proj2 ingest_empty_txt_calls) in Hembed. discriminate Hembed.
Qed.

(** C3, amended.  A non-empty batch whose files yield no chunk produces zero
    chunks, and [ingest] still makes exactly one embedding call, carrying the
    empty list of texts; when that call returns vectors and the collection is
    available, [ingest] ends with one upsert call whose id, embedding,
    document and metadata arrays are all empty, the only upsert call of the
    run, and the answer of that call is its result. *)
Theorem ingest_zero_chunks_still_calls w ing files params s s1 :
  files <> [] ->
  collectChunks w ing params files s = (s1, Ok []) ->
  exists e,
    List.filter is_embed_call (calls_made (ingest w ing files params) s) = [e]
    /\ embed_call_input e = Some []
    /\ forall s2 embeddings s3 coll,
        embed w (ing_embedding ing) [] s1 = (s2, Ok embeddings) ->
        getCollection w (ing_store ing) s2 = (s3, Ok coll) ->
        ingest w ing files params s
        = (add_call s3 (CollectionUpsert coll [] [] [] []),
           chroma_upsert w (log s3) coll [] [] [] [])
        /\ List.filter is_upsert_call (calls_made (ingest w ing files params) s)
           = [CollectionUpsert coll [] [] [] []].
Proof.
  intros Hne Hc.
  destruct (ingest_embed_calls w ing files params s s1 [] Hne Hc)
    as [e [_ [Hin Hfilter]]].
  exists e. split; [exact Hfilter |]. split; [exact Hin |].
  intros s2 embeddings s3 coll He Hg.
  exact (ingest_reaches_upsert w ing files params s s1 [] s2 embeddings s3 coll
           Hne Hc He Hg).
Qed.

Lemma ingest_zero_chunks_still_calls_witness :
  exists e,
    List.filter is_embed_call
      (calls_made (ingest sample_world sample_ingestor [empty_txt] None) started)
    = [e]
    /\ embed_call_input e = Some []
    /\ forall s2 embeddings s3 coll,
        embed sample_world (ing_embedding sample_ingestor) [] (fst empty_collect)
        = (s2, Ok embeddings) ->
        getCollection sample_world (ing_store sample_ingestor) s2 = (s3, Ok coll) ->
        ingest sample_world sample_ingestor [empty_txt] None started
        = (add_call s3 (CollectionUpsert coll [] [] [] []),
           chroma_upsert sample_world (log s3) coll [] [] [] [])
        /\ List.filter is_upsert_call
             (calls_made (ingest sample_world sample_ingestor [empty_txt] None) started)
           = [CollectionUpsert coll [] [] [] []].
Proof.
  apply (ingest_zero_chunks_still_calls sample_world sample_ingestor [empty_txt]
           None started (fst empty_collect)).
  - discriminate.
  - apply run_eq. vm_compute. reflexivity.
Defined.

End IngestFacts.

(** ** Query *)

Module QueryFacts.
Import Js Num Rag RagLemmas CallLog VectorStoreFacts Footprint Samples.

Lemma or_else_absent d : or_else None d = d.
Proof. reflexivity. Qed.

Lemma or_else_nan d : or_else (Some NaN) d = d.
Proof. reflexivity. Qed.

Lemma or_else_truthy t d : truthy t = true -> or_else (Some t) d = t.
Proof. intros H. simpl. rewrite H. reflexivity. Qed.

Lemma filter_sublist {A} (p : A -> bool) (l : list A) :
  sublist (List.filter p l) l.
Proof.
  induction l as [|x l IH]; simpl; [constructor |].
  destruct (p x); constructor; exact IH.
Qed.

Lemma search_calls w st v topK :
  only_calls is_retrieval_call (search w st v topK).
Proof.
  unfold search. apply only_bind.
  - eapply only_weaken; [| apply getCollection_calls].
    intros [] H; simpl in H; try discriminate; reflexivity.
  - intros coll. apply only_bind; [apply only_extern; reflexivity |].
    intros results. destruct (qr_documents results !! 0); calls.
Qed.

Lemma retrieval_calls w o q topK :
  only_calls is_retrieval_call
    (queryEmbedding <- embed w (embedding o) [q] ;;
     search w (store o) (queryEmbedding !! 0) topK).
Proof.
  apply only_bind.
  - eapply only_weaken; [| apply embed_calls].
    intros [] H; simpl in H; try discriminate; reflexivity.
  - intros qe. apply search_calls.
Qed.

(** [generateResponse] makes one call, to the chat model, with the prompt
    built from the context it is given. *)
Lemma generateResponse_call w lm ctx s :
  calls_made (generateResponse w lm ctx) s = [OllamaChat (buildPrompt lm ctx)].
Proof. unfold generateResponse. apply calls_made_extern. Qed.

(** The sample query with threshold NaN: both rows pass the filter
    [score >= (NaN || 0)], and the chat model is called. *)
Lemma query_nan_threshold_runs :
  snd (query sample_world sample_orchestrator sample_question (of_nat 3)
             (Some NaN) None started) = Ok (lit "Paris.")
  /\ List.filter (fun r => ge (score r) NaN) query_results = []
  /\ length (List.filter is_chat_call
               (calls_made (query sample_world sample_orchestrator sample_question
                                  (of_nat 3) (Some NaN) None) started)) = 1.
Proof. repeat split; vm_compute; reflexivity. Qed.

(** The sample query with threshold 5, above every score: the answer is
    empty and the only calls are those of the retrieval. *)
Lemma query_high_threshold_runs :
  snd (query sample_world sample_orchestrator sample_question (of_nat 3)
             (Some (of_nat 5)) None started) = Ok []
  /\ calls_made (query sample_world sample_orchestrator sample_question
                       (of_nat 3) (Some (of_nat 5)) None) started
     = [ OllamaEmbed (lit "nomic-embed-text") [sample_question];
         GetOrCreateCollection (lit "docs");
         CollectionQuery 7 [Some [of_nat 30]] (of_nat 3) ].
Proof. split; vm_compute; reflexivity. Qed.

(** C1, as stated, fails: with the supplied threshold NaN no score is at
    least the threshold, so [query] would have to return the empty string
    without calling the generator, whereas the code compares against
    [threshold || 0], which is 0, keeps both sample rows and calls the
    generator. *)
Lemma query_threshold_counterexample :
  ~ (forall w o q topK threshold maxTok s qe s1 results s2,
        embed w (embedding o) [q] s = (s1, Ok qe) ->
        search w (store o) (qe !! 0) topK s1 = (s2, Ok results) ->
        List.filter (fun r => ge (score r) (default zero threshold)) results = [] ->
        query w o q topK threshold maxTok s = (s2, Ok [])).
Proof.
  intros H.
  specialize (H sample_world sample_orchestrator sample_question (of_nat 3)
                (Some NaN) None started query_embedding (fst query_embed)
                query_results (fst query_search)).
  assert (Hq : snd (query sample_world sample_orchestrator sample_question
                          (of_nat 3) (Some NaN) None started) = Ok []).
  { rewrite H; [reflexivity | | |].
    - apply run_eq. vm_compute. reflexivity.
    - apply run_eq. vm_compute. reflexivity.
    - apply (proj1 (proj2 query_nan_threshold_runs)). }
  rewrite (proj1 query_nan_threshold_runs) in Hq. discriminate Hq.
Qed.

(** C1, amended.  After the question is embedded and the store searched,
    [query] keeps the results whose score is at least the cutoff
    [threshold || 0]: the supplied threshold, or 0 when the threshold is not
    supplied, is 0 or is NaN.  The survivors are a subsequence of the results,
    in retrieval order.  If none survives, [query] returns the empty string
    in the state the search left, and the run contains no call to the chat
    model.  Otherwise [query] is the generator's [generateResponse] on the
    question and the survivors, in that order. *)
Theorem query_filters_then_generates
        w o q topK threshold maxTok s qe s1 (results : list SearchResult) s2 :
  embed w (embedding o) [q] s = (s1, Ok qe) ->
  search w (store o) (qe !! 0) topK s1 = (s2, Ok results) ->
  let cutoff :=
    match threshold with
    | Some t => if truthy t then t else zero
    | None => zero
    end in
  let survivors := List.filter (fun r => ge (score r) cutoff) results in
  sublist survivors results
  /\ (survivors = [] ->
      query w o q topK threshold maxTok s = (s2, Ok [])
      /\ List.filter is_chat_call (calls_made (query w o q topK threshold maxTok) s)
         = [])
  /\ (survivors <> [] ->
      query w o q topK threshold maxTok s
      = generateResponse w (langModel o)
          (mkPromptContext q (Some (or_else maxTok (of_nat 512)))
                           (Some (map doc survivors))) s2).
Proof.
  intros He Hs cutoff survivors.
  assert (Hq : query w o q topK threshold maxTok s
               = (if length survivors =? 0 then ret []
                  else generateResponse w (langModel o)
                         (mkPromptContext q (Some (or_else maxTok (of_nat 512)))
                                          (Some (map doc survivors)))) s2).
  { unfold query. rewrite (bind_ok _ _ _ _ _ He), (bind_ok _ _ _ _ _ Hs).
    reflexivity. }
  split; [apply filter_sublist |]. split.
  - intros Hnil. rewrite Hq, Hnil. simpl. split; [reflexivity |].
    assert (Hsame : calls_made (query w o q topK threshold maxTok) s
                    = calls_made (queryEmbedding <- embed w (embedding o) [q] ;;
                                  search w (store o) (queryEmbedding !! 0) topK) s).
    { unfold calls_made. rewrite Hq, Hnil, (bind_ok _ _ _ _ _ He), Hs.
      reflexivity. }
    rewrite Hsame.
    eapply filter_all_false.
    + apply only_calls_made, retrieval_calls.
    + intros [] H; simpl in H; try discriminate; reflexivity.
  - intros Hne. rewrite Hq. destruct survivors; [contradiction | reflexivity].
Qed.

Lemma query_filters_then_generates_witness :
  let cutoff := if truthy (Fin (9 # 10)) then Fin (9 # 10) else zero in
  let survivors := List.filter (fun r => ge (score r) cutoff) query_results in
  sublist survivors query_results
  /\ (survivors = [] ->
      query sample_world sample_orchestrator sample_question (of_nat 3)
            (Some (Fin (9 # 10))) None started
      = (fst query_search, Ok [])
      /\ List.filter is_chat_call
           (calls_made (query sample_world sample_orchestrator sample_question
                              (of_nat 3) (Some (Fin (9 # 10))) None) started)
         = [])
  /\ (survivors <> [] ->
      query sample_world sample_orchestrator sample_question (of_nat 3)
            (Some (Fin (9 # 10))) None started
      = generateResponse sample_world (langModel sample_orchestrator)
          (mkPromptContext sample_question (Some (or_else None (of_nat 512)))
                           (Some (map doc survivors)))
          (fst query_search)).
Proof.
  apply (query_filters_then_generates
           sample_world sample_orchestrator sample_question (of_nat 3)
           (Some (Fin (9 # 10))) None started query_embedding (fst query_embed)
           query_results (fst query_search)).
  - apply run_eq. vm_compute. reflexivity.
  - apply run_eq. vm_compute. reflexivity.
Defined.

End QueryFacts.

(** ** PDF handlers *)

Module PdfFacts.
Import Js Num Rag RagLemmas CallLog Footprint Samples.

Lemma page_keys_differ : lit "totalPages" <> lit "page".
Proof. intros H. vm_compute in H. discriminate H. Qed.

Lemma page_document_metadata total i :
  let md : metadata_t :=
    <[ lit "totalPages" := VNum (of_nat total) ]>
      {[ lit "page" := VNum (of_nat (i + 1)) ]} in
  md !! lit "page" = Some (VNum (of_nat (i + 1)))
  /\ md !! lit "totalPages" = Some (VNum (of_nat total)).
Proof.
  cbv zeta. split.
  - rewrite lookup_insert_ne by apply page_keys_differ.
    apply lookup_singleton_eq.
  - apply lookup_insert_eq.
Qed.

Section Pages.
Context (w : World) (tp : TextProcessor) (p : PDFParse) (n : nat).
Hypothesis text_ok :
  forall h page, 1 <= page <= n ->
                 exists t, pdf_getText w h (parser_data p) (Some page) = Ok t.
Hypothesis process_ok : forall t, exists t', processText tp t = Ok t'.

(** The page loop over the indices [l], all below [n], returns one document
    per index, tagged with the page number [index + 1] and the total [n]. *)
Lemma page_loop (l : list nat) :
  Forall (fun i => i < n) l ->
  forall s, exists s' docs,
    mapM (page_document w tp p n) l s = (s', Ok docs)
    /\ length docs = length l
    /\ forall j i, l !! j = Some i ->
         exists d md, docs !! j = Some d /\ metadata d = Some md
                      /\ md !! lit "page" = Some (VNum (of_nat (i + 1)))
                      /\ md !! lit "totalPages" = Some (VNum (of_nat n)).
Proof.
  induction l as [|i l IH]; intros Hl s.
  - exists s, []. simpl. repeat split; auto. intros j i H. discriminate H.
  - apply Forall_cons in Hl as [Hi Hl].
    destruct (text_ok (log s) (i + 1)) as [t Ht]; [lia |].
    destruct (process_ok t) as [t' Ht'].
    destruct (IH Hl (add_call s (PdfGetText (parser_id p) (Some (i + 1)))))
      as [s' [docs [Hrun [Hlen Htag]]]].
    exists s'. eexists (_ :: docs).
    split; [| split].
    + assert (Hstep : page_document w tp p n i s
                      = (add_call s (PdfGetText (parser_id p) (Some (i + 1))),
                         Ok (mkDocument None t'
                               (Some (<[ lit "totalPages" := VNum (of_nat n) ]>
                                        {[ lit "page" := VNum (of_nat (i + 1)) ]}))))).
      { unfold page_document, getText, bind, extern. rewrite Ht. simpl.
        rewrite Ht'. reflexivity. }
      cbn [mapM]. rewrite (bind_ok _ _ _ _ _ Hstep), (bind_ok _ _ _ _ _ Hrun).
      reflexivity.
    + simpl. rewrite Hlen. reflexivity.
    + intros [|j] i' Hj; simpl in Hj.
      * injection Hj as <-. eexists _, _. split; [reflexivity |].
        split; [reflexivity |]. apply page_document_metadata.
      * apply Htag, Hj.
Qed.

End Pages.

(** C7. For a PDF that the parser reports to have [n] pages, and whose pages
    1 to [n] it extracts, the per-page handler returns exactly [n]
    documents, and the document at position [i] (counted from 1) has
    metadata [page = i] and [totalPages = n]. *)
Theorem pdf_page_handler_tags_pages w tp (f : FileInfo) s n :
  (forall h, pdf_getInfo w h (buffer f) = Ok n) ->
  (forall h page, 1 <= page <= n ->
                  exists t, pdf_getText w h (buffer f) (Some page) = Ok t) ->
  (forall t, exists t', processText tp t = Ok t') ->
  exists s' (docs : list Document),
    PdfPageFileHandler_handleFile w tp f s = (s', Ok docs)
    /\ length docs = n
    /\ forall i, 1 <= i <= n ->
         exists d md, docs !! (i - 1) = Some d /\ metadata d = Some md
                      /\ md !! lit "page" = Some (VNum (of_nat i))
                      /\ md !! lit "totalPages" = Some (VNum (of_nat n)).
Proof.
  intros Hinfo Htext Hproc.
  set (p := mkPDFParse (length (log s)) (buffer f)).
  set (s1 := add_call (add_call s (PdfNew (buffer f))) (PdfGetInfo (parser_id p))).
  destruct (page_loop w tp p n Htext Hproc (seq 0 n)) with (s := s1)
    as [s2 [docs [Hrun [Hlen Htag]]]].
  { apply Forall_forall. intros i Hi. apply elem_of_seq in Hi. lia. }
  exists (add_call s2 (PdfDestroy (parser_id p))), docs.
  split; [| split].
  - unfold PdfPageFileHandler_handleFile, new_PDFParse, getInfo, destroy.
    unfold bind at 1. unfold extern at 1. cbn [fst snd].
    unfold bind at 1. unfold extern at 1. cbn [parser_data log add_call].
    rewrite Hinfo. fold p. fold s1.
    unfold bind at 1. rewrite Hrun. reflexivity.
  - rewrite Hlen. apply length_seq.
  - intros i Hi.
    destruct (Htag (i - 1) (i - 1)) as [d [md [Hd [Hmd [Hpage Htot]]]]].
    { apply lookup_seq_lt. lia. }
    exists d, md. replace (i - 1 + 1) with i in Hpage by lia. auto.
Qed.

Lemma pdf_page_handler_tags_pages_witness :
  exists s' (docs : list Document),
    PdfPageFileHandler_handleFile sample_world DefaultTextProcessor two_page_pdf
                                  started = (s', Ok docs)
    /\ length docs = 2
    /\ forall i, 1 <= i <= 2 ->
         exists d md, docs !! (i - 1) = Some d /\ metadata d = Some md
                      /\ md !! lit "page" = Some (VNum (of_nat i))
                      /\ md !! lit "totalPages" = Some (VNum (of_nat 2)).
Proof.
  apply (pdf_page_handler_tags_pages sample_world DefaultTextProcessor
           two_page_pdf started 2).
  - intros h. reflexivity.
  - intros h page Hp. eexists. reflexivity.
  - intros t. eexists. reflexivity.
Defined.


Lemma page_loop_calls w tp p total l :
  only_calls keeps_parser (mapM (page_document w tp p total) l).
Proof. unfold page_document, getText. calls. Qed.

(** The run of the per-page handler, by the answers of the parser. *)
Lemma pdf_page_handler_run w tp f s :
  let p := mkPDFParse (length (log s)) (buffer f) in
  let s1 := add_call s (PdfNew (buffer f)) in
  let s2 := add_call s1 (PdfGetInfo (parser_id p)) in
  PdfPageFileHandler_handleFile w tp f s
  = match pdf_getInfo w (log s1) (buffer f) with
    | Ok total =>
      match mapM (page_document w tp p total) (seq 0 total) s2 with
      | (s3, Ok docs) => (add_call s3 (PdfDestroy (parser_id p)), Ok docs)
      | (s3, Throw e) => (s3, Throw e)
      | (s3, Hang) => (s3, Hang)
      end
    | Throw e => (s2, Throw e)
    | Hang => (s2, Hang)
    end.
Proof.
  cbv zeta.
  unfold PdfPageFileHandler_handleFile, new_PDFParse, getInfo, destroy, bind,
    extern.
  cbn [parser_data parser_id log add_call].
  destruct (pdf_getInfo w (log s ++ [PdfNew (buffer f)]) (buffer f))
    as [total | e | ]; reflexivity.
Qed.

(** The two ways the per-page handler ends.  Either it returns documents,
    and then the parser it opened is destroyed by the last call of the run and
    by no other; or it does not return documents, and then the run contains
    no call that destroys the parser. *)
Lemma pdf_page_handler_release w tp f s :
  let run := PdfPageFileHandler_handleFile w tp f s in
  let made := calls_made (PdfPageFileHandler_handleFile w tp f) s in
  (exists docs d,
      snd run = Ok docs
      /\ made = PdfNew (buffer f) :: d ++ [PdfDestroy (length (log s))]
      /\ forallb keeps_parser d = true)
  \/ ((forall docs, snd run <> Ok docs)
      /\ exists d, made = PdfNew (buffer f) :: d /\ forallb keeps_parser d = true).
Proof.
  cbv zeta. unfold calls_made. rewrite pdf_page_handler_run. cbv zeta.
  set (p := mkPDFParse (length (log s)) (buffer f)).
  set (s1 := add_call s (PdfNew (buffer f))).
  set (s2 := add_call s1 (PdfGetInfo (parser_id p))).
  assert (Hs2 : forall d, drop (length (log s)) (log s2 ++ d)
                          = PdfNew (buffer f) :: PdfGetInfo (parser_id p) :: d).
  { intros d. unfold s2, s1. cbn [log add_call].
    rewrite <- !app_assoc. rewrite drop_app_length. reflexivity. }
  destruct (pdf_getInfo w (log s1) (buffer f)) as [total | e | ].
  - pose proof (log_grows _ _ s2 (page_loop_calls w tp p total (seq 0 total))) as L.
    pose proof (only_calls_made _ _ s2 (page_loop_calls w tp p total (seq 0 total))) as K.
    set (d := calls_made (mapM (page_document w tp p total) (seq 0 total)) s2) in *.
    destruct (mapM (page_document w tp p total) (seq 0 total) s2) as [s3 r].
    cbn [fst] in L.
    destruct r as [docs | e | ]; cbn [fst snd].
    + left. exists docs, (PdfGetInfo (parser_id p) :: d).
      split; [reflexivity |]. split; [| exact K].
      cbn [log add_call]. rewrite L, <- app_assoc, Hs2. reflexivity.
    + right. split; [intros docs; discriminate |].
      exists (PdfGetInfo (parser_id p) :: d). split; [| exact K].
      rewrite L, Hs2. reflexivity.
    + right. split; [intros docs; discriminate |].
      exists (PdfGetInfo (parser_id p) :: d). split; [| exact K].
      rewrite L, Hs2. reflexivity.
  - right. split; [intros docs; discriminate |].
    exists [PdfGetInfo (parser_id p)]. split; [| reflexivity].
    cbn [fst]. rewrite <- (app_nil_r (log s2)), Hs2. reflexivity.
  - right. split; [intros docs; discriminate |].
    exists [PdfGetInfo (parser_id p)]. split; [| reflexivity].
    cbn [fst]. rewrite <- (app_nil_r (log s2)), Hs2. reflexivity.
Qed.

(** The run of the whole-document handler, by the answers of the parser and
    of the text processor. *)
Lemma pdf_handler_run w tp f s :
  let p := mkPDFParse (length (log s)) (buffer f) in
  let s1 := add_call s (PdfNew (buffer f)) in
  let s2 := add_call s1 (PdfGetInfo (parser_id p)) in
  let s3 := add_call s2 (PdfGetText (parser_id p) None) in
  PdfFileHandler_handleFile w tp f s
  = match pdf_getInfo w (log s1) (buffer f) with
    | Ok total =>
      match pdf_getText w (log s2) (buffer f) None with
      | Ok rawText =>
        match processText tp rawText with
        | Ok finalText =>
          (add_call s3 (PdfDestroy (parser_id p)),
           Ok (mkDocument None finalText
                          (Some {[ lit "totalPages" := VNum (of_nat total) ]})))
        | Throw e => (s3, Throw e)
        | Hang => (s3, Hang)
        end
      | Throw e => (s3, Throw e)
      | Hang => (s3, Hang)
      end
    | Throw e => (s2, Throw e)
    | Hang => (s2, Hang)
    end.
Proof.
  cbv zeta.
  unfold PdfFileHandler_handleFile, new_PDFParse, getInfo, getText, destroy,
    bind, extern.
  cbn [parser_data parser_id log add_call].
  destruct (pdf_getInfo w (log s ++ [PdfNew (buffer f)]) (buffer f))
    as [total | e | ]; reflexivity.
Qed.

(** The whole-document handler releases the parser exactly when it returns
    a document. *)
Lemma pdf_handler_release w tp f s :
  let run := PdfFileHandler_handleFile w tp f s in
  let made := calls_made (PdfFileHandler_handleFile w tp f) s in
  (exists d, snd run = Ok d
             /\ made = [ PdfNew (buffer f); PdfGetInfo (length (log s));
                         PdfGetText (length (log s)) None;
                         PdfDestroy (length (log s)) ])
  \/ ((forall d, snd run <> Ok d)
      /\ exists rest, made = PdfNew (buffer f) :: rest
                      /\ forallb keeps_parser rest = true).
Proof.
  cbv zeta. unfold calls_made. rewrite pdf_handler_run. cbv zeta.
  cbn [parser_id].
  destruct (pdf_getInfo w _ (buffer f)) as [total | e | ];
    [destruct (pdf_getText w _ (buffer f) None) as [rawText | e | ];
     [destruct (processText tp rawText) as [finalText | e | ] | |] | |];
    cbn [fst snd log add_call]; rewrite <- ?app_assoc, drop_app_length;
    first [ left; eexists; split; reflexivity
          | right; split; [intros d; discriminate |];
            eexists; split; reflexivity ].
Qed.

Lemma keeps_parser_not_destroy (l : list call) :
  forallb keeps_parser l = true -> List.filter is_destroy_call l = [].
Proof.
  intros H. apply (filter_all_false keeps_parser is_destroy_call l H).
  intros x Hx. unfold keeps_parser in Hx. apply negb_true_iff in Hx. exact Hx.
Qed.

(** Whenever the per-page handler does not return documents, it has opened
    a parser and made no call that destroys it. *)
Lemma pdf_page_handler_error_keeps_parser w tp f s :
  (forall docs, snd (PdfPageFileHandler_handleFile w tp f s) <> Ok docs) ->
  exists rest,
    calls_made (PdfPageFileHandler_handleFile w tp f) s = PdfNew (buffer f) :: rest
    /\ List.filter is_destroy_call
         (calls_made (PdfPageFileHandler_handleFile w tp f) s) = [].
Proof.
  intros Herr.
  destruct (pdf_page_handler_release w tp f s)
    as [[docs [d [Hok _]]] | [_ [d [Hmade Hd]]]].
  - destruct (Herr docs Hok).
  - exists d. split; [exact Hmade |]. rewrite Hmade. simpl.
    apply keeps_parser_not_destroy, Hd.
Qed.

(** The same for the whole-document handler. *)
Lemma pdf_handler_error_keeps_parser w tp f s :
  (forall d, snd (PdfFileHandler_handleFile w tp f s) <> Ok d) ->
  exists rest,
    calls_made (PdfFileHandler_handleFile w tp f) s = PdfNew (buffer f) :: rest
    /\ List.filter is_destroy_call
         (calls_made (PdfFileHandler_handleFile w tp f) s) = [].
Proof.
  intros Herr.
  destruct (pdf_handler_release w tp f s)
    as [[d [Hok _]] | [_ [rest [Hmade Hrest]]]].
  - destruct (Herr d Hok).
  - exists rest. split; [exact Hmade |]. rewrite Hmade. simpl.
    apply keeps_parser_not_destroy, Hrest.
Qed.

(** C5, at the failing input: a PDF for which the parser reports two pages
    and then fails to extract text.  Both handlers open a parser, throw the
    parser's error, and return without any call that destroys the parser:
    the calls they made are the ones listed. *)
Theorem pdf_parser_not_released_on_error :
  let page_run :=
    PdfPageFileHandler_handleFile corrupt_pdf_world DefaultTextProcessor
                                  two_page_pdf started in
  let whole_run :=
    PdfFileHandler_handleFile corrupt_pdf_world DefaultTextProcessor
                              two_page_pdf started in
  snd page_run = Throw (Error (lit "Invalid PDF structure"))
  /\ log (fst page_run)
     = [PdfNew (buffer two_page_pdf); PdfGetInfo 0; PdfGetText 0 (Some 1)]
  /\ snd whole_run = Throw (Error (lit "Invalid PDF structure"))
  /\ log (fst whole_run)
     = [PdfNew (buffer two_page_pdf); PdfGetInfo 0; PdfGetText 0 None].
Proof. cbv zeta. repeat split; vm_compute; reflexivity. Qed.

(** On the same file in the sample world, where extraction succeeds, the
    parser is destroyed by the last call. *)
Lemma pdf_parser_released_on_success :
  log (fst (PdfPageFileHandler_handleFile sample_world DefaultTextProcessor
                                          two_page_pdf started))
  = [PdfNew (buffer two_page_pdf); PdfGetInfo 0; PdfGetText 0 (Some 1);
     PdfGetText 0 (Some 2); PdfDestroy 0].
Proof. vm_compute. reflexivity. Qed.

End PdfFacts.

(** * Further properties *)

(** ** Vector store: collection cache and search rows *)

Module StoreExtras.
Import Js Num Rag RagLemmas CallLog VectorStoreFacts Footprint IngestFacts.
Import Samples AppSamples.

Lemma no_calls_nil (l : list call) : forallb (fun _ => false) l = true -> l = [].
Proof. destruct l; [reflexivity | discriminate]. Qed.

Lemma getCollection_ok_cached w store s s1 coll :
  getCollection w store s = (s1, Ok coll) ->
  cache s1 !! collectionName store = Some coll.
Proof.
  unfold getCollection.
  destruct (cache s !! collectionName store) as [c|] eqn:E.
  - intros [= <- <-]. exact E.
  - unfold bind, extern.
    destruct (chroma_getOrCreateCollection w (log s) (collectionName store));
      [| discriminate | discriminate].
    intros [= <- <-]. simpl. apply lookup_insert_eq.
Qed.

Lemma getCollection_hit w store s coll :
  cache s !! collectionName store = Some coll ->
  getCollection w store s = (s, Ok coll).
Proof. intros H. unfold getCollection. rewrite H. reflexivity. Qed.

Lemma mapM_pure {A B} (f : A -> M B) (g : A -> B) (l : list A) s :
  (forall x s0, f x s0 = (s0, Ok (g x))) ->
  mapM f l s = (s, Ok (map g l)).
Proof.
  intros Hf. induction l as [|x l IH]; [reflexivity |].
  cbn [mapM map]. rewrite (bind_ok _ _ _ _ _ (Hf x s)), (bind_ok _ _ _ _ _ IH).
  reflexivity.
Qed.

Lemma search_tail_calls (results : QueryResult) :
  only_calls (fun _ => false)
    (match qr_documents results !! 0 with
     | None => throw TypeError
     | Some documents0 =>
       mapiM (fun d idx => lift (search_row results d idx)) documents0
     end).
Proof. destruct (qr_documents results !! 0); calls. Qed.

(** X1. Once [getCollection] has returned a collection, it returns the same
    collection from the cache without any call, and every later [upsert] or
    [search] on the store makes exactly one call, the collection operation
    itself: the collection is created at most once. *)
Theorem getCollection_created_once w store s s1 coll :
  getCollection w store s = (s1, Ok coll) ->
  getCollection w store s1 = (s1, Ok coll)
  /\ length (calls_made (getCollection w store) s) <= 1
  /\ (forall items,
        calls_made (upsert w store items) s1
        = [CollectionUpsert coll (upsert_ids items) (upsert_embeddings items)
                            (upsert_documents items) (upsert_metadatas items)])
  /\ (forall v k,
        calls_made (search w store v k) s1 = [CollectionQuery coll [v] k]).
Proof.
  intros H. pose proof (getCollection_ok_cached _ _ _ _ _ H) as Hc.
  pose proof (getCollection_hit w store s1 coll Hc) as Hhit.
  split; [exact Hhit |]. split; [| split].
  - unfold calls_made, getCollection.
    destruct (cache s !! collectionName store).
    + simpl. rewrite drop_all. simpl. lia.
    + unfold bind, extern.
      destruct (chroma_getOrCreateCollection w (log s) (collectionName store));
        simpl; rewrite drop_app_length; simpl; lia.
  - intros items. rewrite (upsert_calls_made _ _ _ _ _ _ Hhit).
    rewrite (calls_made_nil (getCollection w store) s1) by (rewrite Hhit; reflexivity).
    reflexivity.
  - intros v k. unfold search.
    assert (Hk : only_calls (fun _ => true)
              (results <- extern (CollectionQuery coll [v] k)
                                 (fun h => chroma_query w h coll [v] k) ;;
               match qr_documents results !! 0 with
               | None => throw TypeError
               | Some documents0 =>
                 mapiM (fun d idx => lift (search_row results d idx)) documents0
               end)).
    { apply only_bind; [apply only_extern; reflexivity |].
      intros results. eapply only_weaken; [| apply search_tail_calls]. auto. }
    rewrite (calls_made_bind_ok is_get_collection (fun _ => true)
               _ _ s1 s1 coll (getCollection_calls _ _) Hk Hhit).
    rewrite (calls_made_nil (getCollection w store) s1)
      by (rewrite Hhit; reflexivity).
    cbn [app].
    destruct (chroma_query w (log s1) coll [v] k) as [results | e | ] eqn:Eq.
    + rewrite (calls_made_bind_ok (fun _ => true) (fun _ => false)
                 (extern (CollectionQuery coll [v] k)
                         (fun h => chroma_query w h coll [v] k))
                 _ s1 (add_call s1 (CollectionQuery coll [v] k)) results).
      * rewrite calls_made_extern.
        rewrite (no_calls_nil _ (only_calls_made _ _ _ (search_tail_calls results))).
        reflexivity.
      * apply only_extern. reflexivity.
      * apply search_tail_calls.
      * unfold extern. rewrite Eq. reflexivity.
    + rewrite calls_made_bind_stop.
      * apply calls_made_extern.
      * intros a. unfold extern. cbn [snd]. rewrite Eq. discriminate.
    + rewrite calls_made_bind_stop.
      * apply calls_made_extern.
      * intros a. unfold extern. cbn [snd]. rewrite Eq. discriminate.
Qed.

Lemma getCollection_created_once_witness :
  let store := mkChromaVectorStore (lit "docs") in
  let s1 := fst (getCollection sample_world store started) in
  getCollection sample_world store s1 = (s1, Ok 7)
  /\ length (calls_made (getCollection sample_world store) started) <= 1
  /\ (forall items,
        calls_made (upsert sample_world store items) s1
        = [CollectionUpsert 7 (upsert_ids items) (upsert_embeddings items)
                            (upsert_documents items) (upsert_metadatas items)])
  /\ (forall v k,
        calls_made (search sample_world store v k) s1 = [CollectionQuery 7 [v] k]).
Proof.
  cbv zeta.
  apply (getCollection_created_once sample_world (mkChromaVectorStore (lit "docs"))
           started).
  reflexivity.
Defined.

(** X2. A failed creation of the collection is not cached: the cache is left
    as it was, and the next [getCollection] asks the database again. *)
Theorem getCollection_failure_not_cached w store s s1 e :
  getCollection w store s = (s1, Throw e) ->
  cache s1 = cache s
  /\ calls_made (getCollection w store) s1
     = [GetOrCreateCollection (collectionName store)].
Proof.
  unfold getCollection at 1.
  destruct (cache s !! collectionName store) as [c|] eqn:E; [discriminate |].
  unfold bind, extern.
  destruct (chroma_getOrCreateCollection w (log s) (collectionName store));
    [discriminate | | discriminate].
  intros [= <- <-]. split; [reflexivity |].
  unfold calls_made, getCollection. cbn [cache add_call]. rewrite E.
  unfold bind, extern.
  destruct (chroma_getOrCreateCollection w _ (collectionName store));
    simpl; rewrite drop_app_length; reflexivity.
Qed.

Lemma getCollection_failure_not_cached_witness :
  let store := mkChromaVectorStore (lit "docs") in
  let s1 := fst (getCollection chroma_down_world store started) in
  cache s1 = cache started
  /\ calls_made (getCollection chroma_down_world store) s1
     = [GetOrCreateCollection (collectionName store)].
Proof.
  cbv zeta.
  apply (getCollection_failure_not_cached chroma_down_world
           (mkChromaVectorStore (lit "docs")) started _
           (Error (lit "connect ECONNREFUSED"))).
  reflexivity.
Defined.

Lemma or_else_zero_not_nan (x : option number) :
  or_else x zero <> NaN
  /\ (truthy (or_else x zero) = true \/ or_else x zero = zero).
Proof.
  destruct x as [a|]; simpl.
  - destruct (truthy a) eqn:T.
    + split; [| left; exact T]. intros ->. discriminate T.
    + split; [discriminate | right; reflexivity].
  - split; [discriminate | right; reflexivity].
Qed.

Lemma map_imap_pair {A B} (g : nat * A -> B) (l : list A) (f : nat -> nat) :
  map g (imap (fun i x => (f i, x)) l) = imap (fun i x => g (f i, x)) l.
Proof.
  revert f. induction l as [|x l IH]; intros f; [reflexivity |].
  cbn [imap map]. f_equal. apply (IH (f ∘ S)).
Qed.

Lemma search_run (w : World) (store : ChromaVectorStore) (v : option vector)
      (k : number) (s s1 : state) (coll : handle) (results : QueryResult)
      (docs0 : list (option jsstring)) (ids0 : list jsstring)
      (metas0 : list (option metadata_t)) (dists0 : list (option number)) :
  getCollection w store s = (s1, Ok coll) ->
  chroma_query w (log s1) coll [v] k = Ok results ->
  qr_documents results !! 0 = Some docs0 ->
  qr_ids results !! 0 = Some ids0 ->
  qr_metadatas results !! 0 = Some metas0 ->
  qr_distances results !! 0 = Some dists0 ->
  search w store v k s
  = (add_call s1 (CollectionQuery coll [v] k),
     Ok (mapi (fun (d : option jsstring) idx =>
                 mkSearchResult
                   (mkDocument (ids0 !! idx) (default [] d)
                               (Some (default ∅ (mjoin (metas0 !! idx)))))
                   (or_else (mjoin (dists0 !! idx)) zero))
              docs0)).
Proof.
  intros Hg Hq Hd Hi Hm Hs. unfold search.
  rewrite (bind_ok _ _ _ _ _ Hg).
  assert (Hx : extern (CollectionQuery coll [v] k)
                      (fun h => chroma_query w h coll [v] k) s1
               = (add_call s1 (CollectionQuery coll [v] k), Ok results)).
  { unfold extern. rewrite Hq. reflexivity. }
  rewrite (bind_ok _ _ _ _ _ Hx). cbv beta. rewrite Hd. unfold mapiM, mapi.
  rewrite (mapM_pure _ (fun p : nat * option jsstring =>
                          mkSearchResult
                            (mkDocument (ids0 !! fst p) (default [] (snd p))
                               (Some (default ∅ (mjoin (metas0 !! fst p)))))
                            (or_else (mjoin (dists0 !! fst p)) zero))).
  - rewrite (map_imap_pair _ docs0 (fun i => i)). reflexivity.
  - intros [i d] s0. unfold search_row. cbn [fst snd]. rewrite Hi, Hm, Hs.
    reflexivity.
Qed.

(** X3. When the collection answers a query with a row of documents, ids,
    metadatas and distances, [search] returns one result per document of the
    row, in the row's order: the result at index [i] has the id at index [i],
    the document text (the empty string for a null document) and the
    metadata (the empty object for a null one).  Its score is the distance
    at index [i], or 0 when that distance is missing, null, 0 or NaN: no
    result has a NaN score. *)
Theorem search_rows (w : World) (store : ChromaVectorStore) (v : option vector)
        (k : number) (s s1 : state) (coll : handle) (results : QueryResult)
        (docs0 : list (option jsstring)) (ids0 : list jsstring)
        (metas0 : list (option metadata_t)) (dists0 : list (option number)) :
  getCollection w store s = (s1, Ok coll) ->
  chroma_query w (log s1) coll [v] k = Ok results ->
  qr_documents results !! 0 = Some docs0 ->
  qr_ids results !! 0 = Some ids0 ->
  qr_metadatas results !! 0 = Some metas0 ->
  qr_distances results !! 0 = Some dists0 ->
  exists rs : list SearchResult,
    search w store v k s = (add_call s1 (CollectionQuery coll [v] k), Ok rs)
    /\ length rs = length docs0
    /\ (forall i (d : option jsstring),
          docs0 !! i = Some d ->
          exists r, rs !! i = Some r
                    /\ id (doc r) = ids0 !! i
                    /\ content (doc r) = default [] d
                    /\ metadata (doc r) = Some (default ∅ (mjoin (metas0 !! i)))
                    /\ score r = or_else (mjoin (dists0 !! i)) zero)
    /\ (forall i r, rs !! i = Some r -> score r <> NaN).
Proof.
  intros Hg Hq Hd Hi Hm Hs. eexists. split; [| split; [| split]].
  - apply (search_run _ _ _ _ _ _ _ _ _ _ _ _ Hg Hq Hd Hi Hm Hs).
  - apply length_mapi.
  - intros i d Hdi. eexists. rewrite lookup_mapi, Hdi. cbn [fmap option_fmap option_map].
    split; [reflexivity |]. cbn [doc id content metadata score]. auto.
  - intros i r Hr. rewrite lookup_mapi in Hr.
    destruct (docs0 !! i) as [d|]; [| discriminate Hr].
    injection Hr as <-. cbn [score]. apply or_else_zero_not_nan.
Qed.

Lemma search_rows_witness :
  exists rs : list SearchResult,
    search sample_world (mkChromaVectorStore (lit "docs")) (Some [of_nat 1])
           (of_nat 3) started
    = (add_call warm (CollectionQuery 7 [Some [of_nat 1]] (of_nat 3)), Ok rs)
    /\ length rs = 2
    /\ (forall i (d : option jsstring),
          [Some (lit "Paris is the capital of France."); Some (lit "Berlin.")] !! i
          = Some d ->
          exists r, rs !! i = Some r
                    /\ id (doc r) = [lit "chunk-a"; lit "chunk-b"] !! i
                    /\ content (doc r) = default [] d
                    /\ metadata (doc r)
                       = Some (default ∅ (mjoin ([None; None] !! i)))
                    /\ score r
                       = or_else (mjoin ([Some (of_nat 1); Some (Fin (1 # 2))] !! i))
                                 zero)
    /\ (forall i r, rs !! i = Some r -> score r <> NaN).
Proof.
  apply (search_rows sample_world (mkChromaVectorStore (lit "docs"))
           (Some [of_nat 1]) (of_nat 3) started warm 7 sample_query_result
           [Some (lit "Paris is the capital of France."); Some (lit "Berlin.")]
           [lit "chunk-a"; lit "chunk-b"] [None; None]
           [Some (of_nat 1); Some (Fin (1 # 2))]);
    reflexivity.
Defined.

(** X4. When the answer of the collection has no row at all, [search] throws
    a [TypeError] after the query call; when its row of documents is empty,
    [search] returns the empty list, whatever the other arrays hold. *)
Theorem search_without_rows w store v k s s1 coll (results : QueryResult) :
  getCollection w store s = (s1, Ok coll) ->
  chroma_query w (log s1) coll [v] k = Ok results ->
  (qr_documents results = [] ->
   search w store v k s
   = (add_call s1 (CollectionQuery coll [v] k), Throw TypeError))
  /\ (qr_documents results !! 0 = Some [] ->
      search w store v k s = (add_call s1 (CollectionQuery coll [v] k), Ok [])).
Proof.
  intros Hg Hq.
  assert (Hx : extern (CollectionQuery coll [v] k)
                      (fun h => chroma_query w h coll [v] k) s1
               = (add_call s1 (CollectionQuery coll [v] k), Ok results)).
  { unfold extern. rewrite Hq. reflexivity. }
  split; intros Hd; unfold search;
    rewrite (bind_ok _ _ _ _ _ Hg), (bind_ok _ _ _ _ _ Hx); cbv beta;
    rewrite Hd; reflexivity.
Qed.

Lemma search_without_rows_witness :
  search no_row_world (mkChromaVectorStore (lit "docs")) None (of_nat 3) started
  = (add_call warm (CollectionQuery 7 [None] (of_nat 3)), Throw TypeError)
  /\ search empty_index_world (mkChromaVectorStore (lit "docs")) None (of_nat 3)
            started
     = (add_call warm (CollectionQuery 7 [None] (of_nat 3)), Ok []).
Proof.
  split.
  - apply (proj1 (search_without_rows no_row_world
                    (mkChromaVectorStore (lit "docs")) None (of_nat 3) started
                    warm 7 (mkQueryResult [] [] [] []) eq_refl eq_refl)).
    reflexivity.
  - apply (proj2 (search_without_rows empty_index_world
                    (mkChromaVectorStore (lit "docs")) None (of_nat 3) started
                    warm 7 (mkQueryResult [[]] [[]] [[]] [[]]) eq_refl eq_refl)).
    reflexivity.
Defined.

End StoreExtras.

(** ** Chunker and the chunks of a text file *)

Module ChunkExtras.
Import Js Num Rag RagLemmas CallLog VectorStoreFacts Footprint IngestFacts.
Import Samples AppSamples.

Lemma key_chunk_total : lit "totalChunks" <> lit "chunk".
Proof. intros H. vm_compute in H. discriminate H. Qed.

Lemma chunk_loop (w : World) (F : nat -> option metadata_t) (l : list jsstring) :
  forall (f : nat -> nat) (s : state),
  exists s' (docs : list Document),
    mapM (fun p : nat * jsstring => createChunk w (snd p) (F (fst p)))
         (imap (fun i x => (f i, x)) l) s = (s', Ok docs)
    /\ log s' = log s ++ replicate (length l) UuidV4
    /\ length docs = length l
    /\ forall i (x : jsstring),
        l !! i = Some x ->
        exists u, docs !! i = Some (mkDocument (Some (lit "chunk-" ++ u)) x (F (f i))).
Proof.
  induction l as [|x l IH]; intros f s.
  - exists s, []. cbn [imap mapM length replicate]. rewrite app_nil_r.
    repeat split; auto. intros i y H. discriminate H.
  - destruct (IH (f ∘ S) (add_call s UuidV4)) as [s' [docs [Hrun [Hlog [Hlen Hdocs]]]]].
    exists s'.
    exists (mkDocument (Some (lit "chunk-" ++ uuid_v4 w (log s))) x (F (f 0)) :: docs).
    split; [| split; [| split]].
    + cbn [imap mapM].
      assert (Hstep : createChunk w (snd (f 0, x)) (F (fst (f 0, x))) s
                      = (add_call s UuidV4,
                         Ok (mkDocument (Some (lit "chunk-" ++ uuid_v4 w (log s)))
                                        x (F (f 0))))) by reflexivity.
      rewrite (bind_ok _ _ _ _ _ Hstep), (bind_ok _ _ _ _ _ Hrun). reflexivity.
    + rewrite Hlog. cbn [log add_call length replicate].
      rewrite <- app_assoc. reflexivity.
    + cbn [length]. rewrite Hlen. reflexivity.
    + intros [|i] y Hy.
      * injection Hy as <-. eexists. reflexivity.
      * apply (Hdocs i y Hy).
Qed.

(** What [chunk] returns when the splitter answers with [pieces]. *)
Lemma chunk_run (w : World) (options : ChunkingOptions) (text : jsstring)
      (md : option metadata_t) (s : state) (pieces : list jsstring) :
  splitter_splitText w (log s) (chunkSize options)
                     (default zero (overlap options)) text = Ok pieces ->
  exists s' (docs : list Document),
    chunk w (RecursiveChunker options) text md s = (s', Ok docs)
    /\ calls_made (chunk w (RecursiveChunker options) text md) s
       = SplitText (chunkSize options) (default zero (overlap options)) text
         :: replicate (length pieces) UuidV4
    /\ length docs = length pieces
    /\ forall i (p : jsstring),
        pieces !! i = Some p ->
        exists d u (m : metadata_t),
          docs !! i = Some d
          /\ id d = Some (lit "chunk-" ++ u)
          /\ content d = p
          /\ metadata d = Some m
          /\ m !! lit "chunk" = Some (VNum (of_nat i))
          /\ m !! lit "totalChunks" = Some (VNum (of_nat (length pieces)))
          /\ forall key : jsstring,
              key <> lit "chunk" -> key <> lit "totalChunks" ->
              m !! key = default ∅ md !! key.
Proof.
  intros Hsplit.
  set (F := fun index : nat =>
              Some (<[ lit "totalChunks" := VNum (of_nat (length pieces)) ]>
                      (<[ lit "chunk" := VNum (of_nat index) ]> (default ∅ md)))).
  set (call0 := SplitText (chunkSize options) (default zero (overlap options)) text).
  destruct (chunk_loop w F pieces (fun i => i) (add_call s call0))
    as [s' [docs [Hrun [Hlog [Hlen Hdocs]]]]].
  assert (Hchunk : chunk w (RecursiveChunker options) text md s = (s', Ok docs)).
  { unfold chunk.
    assert (Hx : extern call0
                   (fun h => splitter_splitText w h (chunkSize options)
                               (default zero (overlap options)) text) s
                 = (add_call s call0, Ok pieces)).
    { unfold extern. rewrite Hsplit. reflexivity. }
    fold call0. rewrite (bind_ok _ _ _ _ _ Hx). exact Hrun. }
  exists s', docs. split; [exact Hchunk |]. split; [| split; [exact Hlen |]].
  - unfold calls_made. rewrite Hchunk. cbn [fst]. rewrite Hlog.
    cbn [log add_call]. rewrite <- app_assoc, drop_app_length. reflexivity.
  - intros i p Hp. destruct (Hdocs i p Hp) as [u Hu].
    eexists _, u, _. split; [exact Hu |]. cbn [id content metadata].
    repeat (split; [reflexivity |]). split; [| split].
    + rewrite lookup_insert_ne by apply key_chunk_total. apply lookup_insert_eq.
    + apply lookup_insert_eq.
    + intros key H1 H2. rewrite !lookup_insert_ne by congruence. reflexivity.
Qed.

(** X5. When the text splitter answers with [pieces], [chunk] returns one
    document per piece, in the splitter's order, after one splitter call and
    one uuid call per piece.  The document at index [i] has an id that starts
    with [chunk-], the piece as its content, and metadata in which [chunk] is
    [i] and [totalChunks] is the number of pieces, overriding such keys of the
    caller, every other key being the caller's.  No piece gives no document. *)
Theorem chunk_documents (w : World) (options : ChunkingOptions) (text : jsstring)
        (md : option metadata_t) (s : state) (pieces : list jsstring) :
  splitter_splitText w (log s) (chunkSize options)
                     (default zero (overlap options)) text = Ok pieces ->
  exists s' (docs : list Document),
    chunk w (RecursiveChunker options) text md s = (s', Ok docs)
    /\ calls_made (chunk w (RecursiveChunker options) text md) s
       = SplitText (chunkSize options) (default zero (overlap options)) text
         :: replicate (length pieces) UuidV4
    /\ length docs = length pieces
    /\ forall i (p : jsstring),
        pieces !! i = Some p ->
        exists d u (m : metadata_t),
          docs !! i = Some d
          /\ id d = Some (lit "chunk-" ++ u)
          /\ content d = p
          /\ metadata d = Some m
          /\ m !! lit "chunk" = Some (VNum (of_nat i))
          /\ m !! lit "totalChunks" = Some (VNum (of_nat (length pieces)))
          /\ forall key : jsstring,
              key <> lit "chunk" -> key <> lit "totalChunks" ->
              m !! key = default ∅ md !! key.
Proof. exact (chunk_run w options text md s pieces). Qed.

Lemma chunk_documents_witness :
  let options := mkChunkingOptions (of_nat 1000) (Some zero) in
  let text := lit "Paris is the capital of France." in
  let md : option metadata_t := Some {[ lit "chunk" := VStr (lit "mine") ]} in
  exists s' (docs : list Document),
    chunk sample_world (RecursiveChunker options) text md started = (s', Ok docs)
    /\ calls_made (chunk sample_world (RecursiveChunker options) text md) started
       = SplitText (chunkSize options) (default zero (overlap options)) text
         :: replicate (length [text]) UuidV4
    /\ length docs = length [text]
    /\ forall i (p : jsstring),
        [text] !! i = Some p ->
        exists d u (m : metadata_t),
          docs !! i = Some d
          /\ id d = Some (lit "chunk-" ++ u)
          /\ content d = p
          /\ metadata d = Some m
          /\ m !! lit "chunk" = Some (VNum (of_nat i))
          /\ m !! lit "totalChunks" = Some (VNum (of_nat (length [text])))
          /\ forall key : jsstring,
              key <> lit "chunk" -> key <> lit "totalChunks" ->
              m !! key = default ∅ md !! key.
Proof.
  cbv zeta.
  apply (chunk_documents sample_world (mkChunkingOptions (of_nat 1000) (Some zero))
           (lit "Paris is the capital of France.")
           (Some {[ lit "chunk" := VStr (lit "mine") ]}) started
           [lit "Paris is the capital of France."]).
  reflexivity.
Defined.

Lemma keys_differ :
  lit "mimeType" <> lit "chunk" /\ lit "mimeType" <> lit "totalChunks"
  /\ lit "source" <> lit "chunk" /\ lit "source" <> lit "totalChunks"
  /\ lit "mimeType" <> lit "source".
Proof.
  repeat split; intros H; vm_compute in H; discriminate H.
Qed.

(** X6. The chunks of a text file.  When the registry maps the file's MIME
    type to the text handler with the default processor and the splitter
    answers with [pieces] on the processed text of the file, the chunks of
    the file are one per piece, in order, and the metadata of each holds
    [source], the file's name; [mimeType], the handler's literal [text]
    (which replaces the file's declared MIME type); [chunk], its index; and
    [totalChunks], the number of pieces. *)
Theorem text_file_chunks (w : World) (ing : RagDataIngestor)
        (options : ChunkingOptions) (params : option HandlerResolveParameters)
        (file : FileInfo) (s : state) (pieces : list jsstring) :
  ing_chunker ing = RecursiveChunker options ->
  HANDLER_REGISTRY s !! mimetype file
  = Some (Ready (TextHandler DefaultTextProcessor)) ->
  splitter_splitText w (log s) (chunkSize options)
    (default zero (overlap options))
    (TextProcessor.processText (utf8_decode w (buffer file))) = Ok pieces ->
  exists s' (docs : list Document),
    file_chunks w ing params file s = (s', Ok docs)
    /\ length docs = length pieces
    /\ forall i (p : jsstring),
        pieces !! i = Some p ->
        exists d (m : metadata_t),
          docs !! i = Some d
          /\ content d = p
          /\ metadata d = Some m
          /\ m !! lit "source" = Some (VStr (originalname file))
          /\ m !! lit "mimeType" = Some (VStr (lit "text"))
          /\ m !! lit "chunk" = Some (VNum (of_nat i))
          /\ m !! lit "totalChunks" = Some (VNum (of_nat (length pieces))).
Proof.
  intros Hchunker Hreg Hsplit.
  set (text := TextProcessor.processText (utf8_decode w (buffer file))) in *.
  set (d0 := mkDocument None text (Some {[ lit "mimeType" := VStr (lit "text") ]})).
  set (sa := mkState (log s) (HANDLER_REGISTRY s)
                     (Some (TextHandler DefaultTextProcessor)) (cache s)).
  destruct (chunk_run w options text (Some (chunk_metadata file d0)) sa pieces Hsplit)
    as [s' [docs [Hrun [_ [Hlen Hdocs]]]]].
  exists s', docs. split; [| split; [exact Hlen |]].
  - unfold file_chunks.
    assert (H1 : setFileHandler (mimetype file) params s = (sa, Ok tt)).
    { unfold setFileHandler. rewrite Hreg. reflexivity. }
    assert (H2 : handleFile w file sa = (sa, Ok (Single d0))) by reflexivity.
    rewrite (bind_ok _ _ _ _ _ H1), (bind_ok _ _ _ _ _ H2). cbv beta iota.
    rewrite Hchunker.
    assert (H3 : mapM (fun d => chunk w (RecursiveChunker options) (content d)
                                      (Some (chunk_metadata file d))) [d0] sa
                 = (s', Ok [docs])).
    { cbn [mapM]. cbv beta. change (content d0) with text.
      rewrite (bind_ok _ _ _ _ _ Hrun). reflexivity. }
    rewrite (bind_ok _ _ _ _ _ H3). cbn [ret concat].
    rewrite app_nil_r. reflexivity.
  - intros i p Hp.
    destruct (Hdocs i p Hp) as [d [u [m [Hd [_ [Hc [Hm [Hi [Ht Hother]]]]]]]]].
    destruct keys_differ as [K1 [K2 [K3 [K4 K5]]]].
    exists d, m. repeat (split; [assumption |]).
    split; [| split; [| split; assumption]].
    + rewrite (Hother _ K3 K4). cbn [default from_option Datatypes.id].
      unfold chunk_metadata. cbn [metadata d0 default from_option Datatypes.id].
      rewrite lookup_union_r by (apply lookup_singleton_ne; exact K5).
      rewrite lookup_insert_ne by exact K5. apply lookup_singleton_eq.
    + rewrite (Hother _ K1 K2). cbn [default from_option Datatypes.id].
      unfold chunk_metadata. cbn [metadata d0 default from_option Datatypes.id].
      apply lookup_union_Some_l. apply lookup_singleton_eq.
Qed.

Lemma text_file_chunks_witness :
  exists s' (docs : list Document),
    file_chunks sample_world sample_ingestor None paris_txt started = (s', Ok docs)
    /\ length docs = length [lit "Paris is the capital of France."]
    /\ forall i (p : jsstring),
        [lit "Paris is the capital of France."] !! i = Some p ->
        exists d (m : metadata_t),
          docs !! i = Some d
          /\ content d = p
          /\ metadata d = Some m
          /\ m !! lit "source" = Some (VStr (originalname paris_txt))
          /\ m !! lit "mimeType" = Some (VStr (lit "text"))
          /\ m !! lit "chunk" = Some (VNum (of_nat i))
          /\ m !! lit "totalChunks"
             = Some (VNum (of_nat (length [lit "Paris is the capital of France."]))).
Proof.
  apply (text_file_chunks sample_world sample_ingestor
           (mkChunkingOptions (of_nat 1000) (Some zero)) None paris_txt started
           [lit "Paris is the capital of France."]).
  - reflexivity.
  - reflexivity.
  - vm_compute. reflexivity.
Defined.

End ChunkExtras.

(** ** Ingestion: failures and the handler registry *)

Module IngestExtras.
Import Js Num Rag RagLemmas CallLog VectorStoreFacts Footprint IngestFacts.
Import Invariants Samples AppSamples.












(** An ingestion whose extraction does not return chunks ends in the state
    and with the error of the extraction, and the only calls it makes are
    those of extraction and chunking. *)
Lemma ingest_after_failed_extraction w ing files params s :
  files <> [] ->
  (forall cs, snd (collectChunks w ing params files s) <> Ok cs) ->
  fst (ingest w ing files params s) = fst (collectChunks w ing params files s)
  /\ (forall e, snd (collectChunks w ing params files s) = Throw e ->
                snd (ingest w ing files params s) = Throw e)
  /\ snd (ingest w ing files params s) <> Ok tt
  /\ forallb is_extraction_call (calls_made (ingest w ing files params) s) = true.
Proof.
  intros Hne Hfail. rewrite (ingest_nonempty _ _ _ _ Hne).
  pose proof (only_calls_made _ _ s (collectChunks_calls w ing params files)) as K.
  rewrite calls_made_bind_stop by exact Hfail.
  split; [| split; [| split; [| exact K]]].
  - unfold bind. destruct (collectChunks w ing params files s) as [s1 [cs | e | ]];
      [destruct (Hfail cs); reflexivity | reflexivity | reflexivity].
  - intros e He. unfold bind.
    destruct (collectChunks w ing params files s) as [s1 [cs | e' | ]];
      cbn [snd] in *; [discriminate | injection He as ->; reflexivity | discriminate].
  - unfold bind. destruct (collectChunks w ing params files s) as [s1 [cs | e | ]];
      [destruct (Hfail cs); reflexivity | discriminate | discriminate].
Qed.

(** X7. All or nothing, extraction side: when the extraction or the chunking
    of any file of a non-empty batch fails, [ingest] fails with the same
    error in the state the failure left, and the calls it has made are only
    those of extraction and chunking: no embedding call, no call to the
    vector store. *)
Theorem ingest_stops_at_extraction_failure
        (w : World) (ing : RagDataIngestor) (files : list FileInfo)
        (params : option HandlerResolveParameters) (s : state) :
  files <> [] ->
  (forall cs, snd (collectChunks w ing params files s) <> Ok cs) ->
  fst (ingest w ing files params s) = fst (collectChunks w ing params files s)
  /\ (forall e, snd (collectChunks w ing params files s) = Throw e ->
                snd (ingest w ing files params s) = Throw e)
  /\ snd (ingest w ing files params s) <> Ok tt
  /\ forallb is_extraction_call (calls_made (ingest w ing files params) s) = true.
Proof. exact (ingest_after_failed_extraction w ing files params s). Qed.

Lemma ingest_stops_at_extraction_failure_witness :
  fst (ingest corrupt_pdf_world sample_ingestor [two_page_pdf] None started)
  = fst (collectChunks corrupt_pdf_world sample_ingestor None [two_page_pdf] started)
  /\ (forall e,
        snd (collectChunks corrupt_pdf_world sample_ingestor None [two_page_pdf]
                           started) = Throw e ->
        snd (ingest corrupt_pdf_world sample_ingestor [two_page_pdf] None started)
        = Throw e)
  /\ snd (ingest corrupt_pdf_world sample_ingestor [two_page_pdf] None started)
     <> Ok tt
  /\ forallb is_extraction_call
       (calls_made (ingest corrupt_pdf_world sample_ingestor [two_page_pdf] None)
                   started) = true.
Proof.
  apply (ingest_stops_at_extraction_failure corrupt_pdf_world sample_ingestor
           [two_page_pdf] None started).
  - discriminate.
  - intros cs. vm_compute. discriminate.
Defined.

(** X8. All or nothing, embedding side: when the chunks are there and the
    embedding call throws, [ingest] throws the same error right after that
    call; the vector store is not contacted, neither to get the collection
    nor to upsert. *)
Theorem ingest_stops_at_embedding_failure
        (w : World) (ing : RagDataIngestor) (files : list FileInfo)
        (params : option HandlerResolveParameters) (s s1 : state)
        (allChunks : list Document) (s2 : state) (e : error) :
  files <> [] ->
  collectChunks w ing params files s = (s1, Ok allChunks) ->
  embed w (ing_embedding ing) (map content allChunks) s1 = (s2, Throw e) ->
  ingest w ing files params s = (s2, Throw e)
  /\ List.filter is_upsert_call (calls_made (ingest w ing files params) s) = []
  /\ List.filter is_get_collection (calls_made (ingest w ing files params) s) = []
  /\ cache s2 = cache s1.
Proof.
  intros Hne Hc He. rewrite (ingest_nonempty _ _ _ _ Hne).
  assert (Hk : only_calls (fun _ => true)
                 (embeddings <- embed w (ing_embedding ing) (map content allChunks) ;;
                  upsert w (ing_store ing) (upsertItems allChunks embeddings))).
  { apply only_bind.
    - eapply only_weaken; [| apply embed_calls]. auto.
    - intros a. eapply only_weaken; [| apply upsert_calls]. auto. }
  rewrite (calls_made_bind_ok is_extraction_call (fun _ => true)
             _ _ _ _ _ (collectChunks_calls _ _ _ _) Hk Hc).
  rewrite calls_made_bind_stop by (rewrite He; discriminate).
  rewrite !List.filter_app.
  split; [| split; [| split]].
  - rewrite (bind_ok _ _ _ _ _ Hc). apply (bind_throw _ _ _ _ _ He).
  - rewrite (filter_all_false is_extraction_call is_upsert_call);
      [| apply only_calls_made, collectChunks_calls
       | intros [] H; simpl in H; try discriminate; reflexivity].
    rewrite (filter_all_false is_embed_call is_upsert_call);
      [| apply only_calls_made, embed_calls
       | intros [] H; simpl in H; try discriminate; reflexivity].
    reflexivity.
  - rewrite (filter_all_false is_extraction_call is_get_collection);
      [| apply only_calls_made, collectChunks_calls
       | intros [] H; simpl in H; try discriminate; reflexivity].
    rewrite (filter_all_false is_embed_call is_get_collection);
      [| apply only_calls_made, embed_calls
       | intros [] H; simpl in H; try discriminate; reflexivity].
    reflexivity.
  - destruct (ing_embedding ing) as [model host | model]; unfold embed in He.
    + unfold extern in He. injection He as <- _. reflexivity.
    + unfold bind, extern in He.
      destruct (gemini_embedContent w (log s1) model (map content allChunks))
        as [[es|] | err | ]; cbn in He; injection He as <-; reflexivity.
Qed.

Lemma ingest_stops_at_embedding_failure_witness :
  ingest embed_down_world sample_ingestor [paris_txt] None started
  = (fst down_embed, Throw (Error (lit "connect ECONNREFUSED")))
  /\ List.filter is_upsert_call
       (calls_made (ingest embed_down_world sample_ingestor [paris_txt] None) started)
     = []
  /\ List.filter is_get_collection
       (calls_made (ingest embed_down_world sample_ingestor [paris_txt] None) started)
     = []
  /\ cache (fst down_embed) = cache (fst down_collect).
Proof.
  apply (ingest_stops_at_embedding_failure embed_down_world sample_ingestor
           [paris_txt] None started (fst down_collect) down_chunks
           (fst down_embed) (Error (lit "connect ECONNREFUSED"))).
  - discriminate.
  - apply run_eq. vm_compute. reflexivity.
  - apply run_eq. vm_compute. reflexivity.
Defined.



(** X10. [registerFileHandlers] merges its argument into the registry, the
    later registration winning: a MIME type of the argument resolves to the
    argument's entry, any other MIME type to the entry it had before, and
    nothing else in the state changes.  A following [setFileHandler] for a
    type of the argument installs that entry's handler, a factory being
    applied to the parameters (the empty object when there are none). *)
Theorem registerFileHandlers_last_wins
        (registry : gmap (list N) registry_entry) (s : state) :
  let s' := fst (registerFileHandlers registry s) in
  snd (registerFileHandlers registry s) = Ok tt
  /\ (forall (m : jsstring) (e : registry_entry),
        registry !! m = Some e -> HANDLER_REGISTRY s' !! m = Some e)
  /\ (forall m : jsstring,
        registry !! m = None -> HANDLER_REGISTRY s' !! m = HANDLER_REGISTRY s !! m)
  /\ (forall (m : jsstring) (e : registry_entry) params,
        registry !! m = Some e ->
        snd (setFileHandler m params s') = Ok tt
        /\ fileHandler (fst (setFileHandler m params s'))
           = Some (match e with
                   | Factory f => f (default ∅ params)
                   | Ready h => h
                   end))
  /\ log s' = log s /\ cache s' = cache s /\ fileHandler s' = fileHandler s.
Proof.
  cbv zeta. unfold registerFileHandlers. cbn [fst snd HANDLER_REGISTRY log cache fileHandler].
  split; [reflexivity |].
  assert (Hl : forall (m : jsstring) (e : registry_entry),
             registry !! m = Some e ->
             (registry ∪ HANDLER_REGISTRY s) !! m = Some e).
  { intros m e H. apply lookup_union_Some_l. exact H. }
  split; [exact Hl |]. split.
  - intros m H. apply lookup_union_r. exact H.
  - split; [| auto].
    intros m e params H. unfold setFileHandler.
    cbn [HANDLER_REGISTRY]. rewrite (Hl m e H). destruct e; split; reflexivity.
Qed.

End IngestExtras.

(** ** Query: token budget and retrieval failures *)

Module QueryExtras.
Import Js Num Rag RagLemmas CallLog VectorStoreFacts Footprint IngestFacts QueryFacts.
Import Samples AppSamples.

(** X11. The token budget never reaches the chat model: the request built
    for a prompt context does not depend on its [maxTokens], and so [query]
    returns the same answer, state and calls whatever [maxTokens] it is
    given. *)
Theorem query_ignores_maxTokens
        (w : World) (o : RagOrchestrator) (q : jsstring) (topK : number)
        (threshold maxTok maxTok' : option number) (s : state) :
  (forall lm mt mt' srcs,
      buildPrompt lm (mkPromptContext q mt srcs)
      = buildPrompt lm (mkPromptContext q mt' srcs))
  /\ query w o q topK threshold maxTok s = query w o q topK threshold maxTok' s.
Proof.
  split.
  - intros [model host] mt mt' srcs. reflexivity.
  - unfold query, generateResponse. destruct (langModel o). reflexivity.
Qed.

(** X12. When the embedding of the question or the search of the store does
    not return results, [query] ends in the same state with the same error,
    and the calls it has made are retrieval calls only: the chat model is not
    called. *)
Theorem query_stops_at_retrieval_failure
        (w : World) (o : RagOrchestrator) (q : jsstring) (topK : number)
        (threshold maxTok : option number) (s : state) :
  let retrieval :=
    (queryEmbedding <- embed w (embedding o) [q] ;;
     search w (store o) (queryEmbedding !! 0) topK) in
  (forall rs, snd (retrieval s) <> Ok rs) ->
  fst (query w o q topK threshold maxTok s) = fst (retrieval s)
  /\ (forall e, snd (retrieval s) = Throw e ->
                snd (query w o q topK threshold maxTok s) = Throw e)
  /\ (forall answer, snd (query w o q topK threshold maxTok s) <> Ok answer)
  /\ forallb is_retrieval_call (calls_made (query w o q topK threshold maxTok) s)
     = true.
Proof.
  cbv zeta. intros Hfail.
  pose proof (only_calls_made _ _ s (retrieval_calls w o q topK)) as K.
  unfold calls_made in *. unfold query. unfold bind in *.
  destruct (embed w (embedding o) [q] s) as [s1 [qe | e | ]]; cbn [fst snd] in *.
  - destruct (search w (store o) (qe !! 0) topK s1) as [s2 [rs | e | ]];
      cbn [fst snd] in *.
    + destruct (Hfail rs). reflexivity.
    + repeat split; auto. intros e' [= ->]. reflexivity.
    + repeat split; auto; discriminate.
  - repeat split; auto. intros e' [= ->]. reflexivity.
  - repeat split; auto; discriminate.
Qed.

Lemma query_stops_at_retrieval_failure_witness :
  let retrieval :=
    (queryEmbedding <- embed embed_down_world (embedding sample_orchestrator)
                             [sample_question] ;;
     search embed_down_world (store sample_orchestrator) (queryEmbedding !! 0)
            (of_nat 3)) in
  fst (query embed_down_world sample_orchestrator sample_question (of_nat 3)
             None None started) = fst (retrieval started)
  /\ (forall e, snd (retrieval started) = Throw e ->
                snd (query embed_down_world sample_orchestrator sample_question
                           (of_nat 3) None None started) = Throw e)
  /\ (forall answer,
        snd (query embed_down_world sample_orchestrator sample_question
                   (of_nat 3) None None started) <> Ok answer)
  /\ forallb is_retrieval_call
       (calls_made (query embed_down_world sample_orchestrator sample_question
                          (of_nat 3) None None) started) = true.
Proof.
  cbv zeta.
  apply (query_stops_at_retrieval_failure embed_down_world sample_orchestrator
           sample_question (of_nat 3) None None started).
  intros rs. vm_compute. discriminate.
Defined.

End QueryExtras.

(** ** PDF handlers: the returned document and the parser *)

Module PdfExtras.
Import Js Num Rag RagLemmas CallLog VectorStoreFacts Footprint PdfFacts.
Import Samples AppSamples.

(** X13. For a PDF whose parser reports [n] pages and extracts the text [t],
    which the text processor turns into [t'], the whole-document handler
    returns exactly one document with content [t'] and metadata
    [totalPages = n], after four calls: it opens a parser, asks for the
    information and the full text, and destroys the parser as its last
    call. *)
Theorem pdf_handler_document
        (w : World) (tp : TextProcessor) (f : FileInfo) (s : state)
        (n : nat) (t t' : jsstring) :
  (forall h, pdf_getInfo w h (buffer f) = Ok n) ->
  (forall h, pdf_getText w h (buffer f) None = Ok t) ->
  processText tp t = Ok t' ->
  snd (PdfFileHandler_handleFile w tp f s)
  = Ok (mkDocument None t' (Some {[ lit "totalPages" := VNum (of_nat n) ]}))
  /\ calls_made (PdfFileHandler_handleFile w tp f) s
     = [ PdfNew (buffer f); PdfGetInfo (length (log s));
         PdfGetText (length (log s)) None; PdfDestroy (length (log s)) ].
Proof.
  intros Hinfo Htext Hproc. unfold calls_made.
  rewrite pdf_handler_run. cbv zeta. rewrite Hinfo, Htext, Hproc.
  cbn [fst snd parser_id log add_call].
  split; [reflexivity |].
  rewrite <- !app_assoc, drop_app_length. reflexivity.
Qed.

Lemma pdf_handler_document_witness :
  snd (PdfFileHandler_handleFile sample_world DefaultTextProcessor two_page_pdf
                                 started)
  = Ok (mkDocument None (lit "ab") (Some {[ lit "totalPages" := VNum (of_nat 2) ]}))
  /\ calls_made (PdfFileHandler_handleFile sample_world DefaultTextProcessor
                                           two_page_pdf) started
     = [ PdfNew (buffer two_page_pdf); PdfGetInfo (length (log started));
         PdfGetText (length (log started)) None;
         PdfDestroy (length (log started)) ].
Proof.
  apply (pdf_handler_document sample_world DefaultTextProcessor two_page_pdf
           started 2 (lit "ab") (lit "ab")).
  - intros h. reflexivity.
  - intros h. reflexivity.
  - vm_compute. reflexivity.
Defined.

(** X14. Both PDF handlers open exactly one parser, as their first call.
    They destroy it exactly when they return a result: then the destroy call
    is the last call of the run and the only one; on every other outcome the
    run contains no destroy call. *)
Theorem pdf_parser_destroyed_iff_returned
        (w : World) (tp : TextProcessor) (f : FileInfo) (s : state) :
  let page_made := calls_made (PdfPageFileHandler_handleFile w tp f) s in
  let whole_made := calls_made (PdfFileHandler_handleFile w tp f) s in
  let destroyed := [PdfDestroy (length (log s))] in
  head page_made = Some (PdfNew (buffer f))
  /\ head whole_made = Some (PdfNew (buffer f))
  /\ match snd (PdfPageFileHandler_handleFile w tp f s) with
     | Ok _ => List.filter is_destroy_call page_made = destroyed
               /\ last page_made = Some (PdfDestroy (length (log s)))
     | _ => List.filter is_destroy_call page_made = []
     end
  /\ match snd (PdfFileHandler_handleFile w tp f s) with
     | Ok _ => List.filter is_destroy_call whole_made = destroyed
               /\ last whole_made = Some (PdfDestroy (length (log s)))
     | _ => List.filter is_destroy_call whole_made = []
     end.
Proof.
  cbv zeta.
  destruct (pdf_page_handler_release w tp f s)
    as [[docs [d [Hok [Hmade Hd]]]] | [Herr [d [Hmade Hd]]]];
    destruct (pdf_handler_release w tp f s)
      as [[doc [Hok' Hmade']] | [Herr' [d' [Hmade' Hd']]]];
    rewrite Hmade, Hmade'; (split; [reflexivity |]); (split; [reflexivity |]).
  all: split.
  all: try (rewrite Hok; split;
            [ simpl; rewrite List.filter_app, (keeps_parser_not_destroy _ Hd);
              reflexivity
            | change (PdfNew (buffer f) :: d ++ [PdfDestroy (length (log s))])
                with ((PdfNew (buffer f) :: d) ++ [PdfDestroy (length (log s))]);
              apply last_snoc ]).
  all: try (rewrite Hok'; split; reflexivity).
  all: try (destruct (snd (PdfPageFileHandler_handleFile w tp f s)) as [docs0 | |];
            [ destruct (Herr docs0); reflexivity
            | simpl; apply keeps_parser_not_destroy, Hd
            | simpl; apply keeps_parser_not_destroy, Hd ]).
  all: try (destruct (snd (PdfFileHandler_handleFile w tp f s)) as [doc0 | |];
            [ destruct (Herr' doc0); reflexivity
            | simpl; apply keeps_parser_not_destroy, Hd'
            | simpl; apply keeps_parser_not_destroy, Hd' ]).
Qed.

End PdfExtras.

(** ** Text handler, embedders and routes *)

Module AppExtras.
Import Js Num Rag RagLemmas CallLog VectorStoreFacts Footprint IngestFacts.
Import App Samples AppSamples.

(** X15. The text handler makes no outside call and never rejects.  When the
    text processor returns, the handler returns one document: the processed
    decoding of the buffer with metadata [mimeType = text].  When the text
    processor throws, the handler's promise is left pending, and so is an
    [ingest] whose first file goes to that handler: it neither returns nor
    throws, and makes no call. *)
Theorem text_handler_never_rejects
        (w : World) (tp : TextProcessor) (ing : RagDataIngestor)
        (file : FileInfo) (rest : list FileInfo)
        (params : option HandlerResolveParameters) (s : state) :
  (forall e, snd (TextFileHandler_handleFile w tp file s) <> Throw e)
  /\ fst (TextFileHandler_handleFile w tp file s) = s
  /\ (forall t,
        processText tp (utf8_decode w (buffer file)) = Ok t ->
        snd (TextFileHandler_handleFile w tp file s)
        = Ok (mkDocument None t (Some {[ lit "mimeType" := VStr (lit "text") ]})))
  /\ (forall e,
        processText tp (utf8_decode w (buffer file)) = Throw e ->
        snd (TextFileHandler_handleFile w tp file s) = Hang
        /\ (HANDLER_REGISTRY s !! mimetype file = Some (Ready (TextHandler tp)) ->
            snd (ingest w ing (file :: rest) params s) = Hang
            /\ calls_made (ingest w ing (file :: rest) params) s = [])).
Proof.
  unfold TextFileHandler_handleFile.
  destruct (processText tp (utf8_decode w (buffer file))) as [t | e | ] eqn:E;
    (split; [intros e0; discriminate |]); (split; [reflexivity |]);
    (split; [intros t0 H; try discriminate H; injection H as ->; reflexivity |]);
    intros e0 H; try discriminate H.
  split; [reflexivity |]. intros Hreg.
  assert (Hrun : ingest w ing (file :: rest) params s
                 = (mkState (log s) (HANDLER_REGISTRY s) (Some (TextHandler tp))
                            (cache s), Hang)).
  { unfold ingest. cbn [length Nat.eqb]. unfold collectChunks. cbn [mapM].
    unfold file_chunks, bind, setFileHandler. rewrite Hreg.
    unfold handleFile. cbn [fileHandler FileHandler_handleFile].
    unfold bind, TextFileHandler_handleFile. rewrite E. reflexivity. }
  unfold calls_made. rewrite Hrun. cbn [fst snd log].
  split; [reflexivity | apply drop_all].
Qed.

(** X16. An embedder makes exactly one call to its service for a batch,
    carrying all the texts in their order, whatever the service answers.  The
    Ollama embedder returns the service's answer as it is; the Gemini embedder
    returns the embeddings of the answer and throws
    [Failed to generate embeddings] when the answer has none. *)
Theorem embed_single_call
        (w : World) (model host : jsstring) (texts : list jsstring) (s : state) :
  calls_made (embed w (OllamaEmbedding model host) texts) s
  = [OllamaEmbed model texts]
  /\ snd (embed w (OllamaEmbedding model host) texts s)
     = ollama_embed w (log s) model texts
  /\ calls_made (embed w (GeminiEmbedding model) texts) s
     = [GeminiEmbedContent model texts]
  /\ snd (embed w (GeminiEmbedding model) texts s)
     = match gemini_embedContent w (log s) model texts with
       | Ok (Some embeddings) => Ok embeddings
       | Ok None => Throw (Error (lit "Failed to generate embeddings"))
       | Throw e => Throw e
       | Hang => Hang
       end.
Proof.
  split; [apply calls_made_extern |]. split; [reflexivity |]. split.
  - unfold calls_made, embed, bind, extern.
    destruct (gemini_embedContent w (log s) model texts) as [[es|] | e | ];
      simpl; rewrite drop_app_length; reflexivity.
  - unfold embed, bind, extern.
    destruct (gemini_embedContent w (log s) model texts) as [[es|] | e | ];
      reflexivity.
Qed.

(** X17. The handler of [POST /query] never throws.  Without a query, or
    with the empty string, it answers 400 [Query is required] and makes no
    call.  Otherwise it answers 200 with the answer of [query] (the empty
    string included), answers 500 with the fixed message
    [Internal server error] whatever error [query] throws, and sends nothing
    when [query] does not return. *)
Theorem query_route_replies
        (w : World) (config : Config) (o : RagOrchestrator)
        (body_query : option jsstring) (s : state) :
  (forall e, snd (query_route w config o body_query s) <> Throw e)
  /\ (body_query = None \/ body_query = Some [] ->
      query_route w config o body_query s
      = (s, Ok (mkHttpResponse 400 (ErrorBody (lit "Query is required")))))
  /\ (forall q,
        body_query = Some q -> q <> [] ->
        let run := query w o q (topK config) (Some (retrievalThreshold config))
                         (Some (cfg_maxTokens config)) s in
        fst (query_route w config o body_query s) = fst run
        /\ snd (query_route w config o body_query s)
           = match snd run with
             | Ok response => Ok (mkHttpResponse 200 (QueryResponse response))
             | Throw _ =>
               Ok (mkHttpResponse 500 (ErrorBody (lit "Internal server error")))
             | Hang => Hang
             end).
Proof.
  split; [| split].
  - intros e. unfold query_route.
    destruct body_query as [[|c q]|]; try discriminate.
    unfold try_catch, bind.
    destruct (query w o (c :: q) (topK config) (Some (retrievalThreshold config))
                    (Some (cfg_maxTokens config)) s) as [s' [r | e' | ]];
      discriminate.
  - intros [-> | ->]; reflexivity.
  - intros q -> Hq. cbv zeta. destruct q as [|c q]; [contradiction |].
    unfold query_route, try_catch, bind.
    destruct (query w o (c :: q) (topK config) (Some (retrievalThreshold config))
                    (Some (cfg_maxTokens config)) s) as [s' [r | e' | ]];
      split; reflexivity.
Qed.

(** X18. The handler of [POST /ingest] never throws.  It answers 200
    [success] exactly when [ingest] returns, and 500 [Ingestion failed] with
    the thrown error otherwise; an upload without files is such a failure,
    answered 500 with the error [No files provided for ingestion] and no
    call to any provider. *)
Theorem ingestion_route_replies
        (w : World) (ing : RagDataIngestor) (files : list FileInfo)
        (req_query : HandlerResolveParameters) (s : state) :
  (forall e, snd (ingestion_route w ing files req_query s) <> Throw e)
  /\ fst (ingestion_route w ing files req_query s)
     = fst (ingest w ing files (Some req_query) s)
  /\ snd (ingestion_route w ing files req_query s)
     = match snd (ingest w ing files (Some req_query) s) with
       | Ok _ => Ok (mkHttpResponse 200 IngestSuccess)
       | Throw e => Ok (mkHttpResponse 500 (IngestError (lit "Ingestion failed") e))
       | Hang => Hang
       end
  /\ (files = [] ->
      ingestion_route w ing files req_query s
      = (s, Ok (mkHttpResponse 500
                  (IngestError (lit "Ingestion failed")
                     (Error (lit "No files provided for ingestion")))))).
Proof.
  split; [| split; [| split]].
  - intros e. unfold ingestion_route, try_catch, bind.
    destruct (ingest w ing files (Some req_query) s) as [s' [r | e' | ]];
      discriminate.
  - unfold ingestion_route, try_catch, bind.
    destruct (ingest w ing files (Some req_query) s) as [s' [r | e' | ]];
      reflexivity.
  - unfold ingestion_route, try_catch, bind.
    destruct (ingest w ing files (Some req_query) s) as [s' [r | e' | ]];
      reflexivity.
  - intros ->. reflexivity.
Qed.

End AppExtras.

(** ** The matcher: what a successful match guarantees *)

Module MatchFacts.
Import Js Regex MatchSpec.

Lemma find_filter_keep {A} (P Q : A -> bool) (l : list A) :
  (forall x, P x = true -> Q x = true) ->
  find P (filter (fun x => Is_true (Q x)) l) = find P l.
Proof.
  intros H. induction l as [|x l IH]; [reflexivity |].
  rewrite filter_cons. destruct (decide (Is_true (Q x))) as [Hq | Hq].
  - cbn [find]. rewrite IH. reflexivity.
  - cbn [find]. destruct (P x) eqn:Px; [| exact IH].
    destruct Hq. rewrite (H x Px). exact I.
Qed.

Lemma get_cap_set_ne (i j : nat) (s : jsstring) cs :
  i <> j -> get_cap i (set_cap j s cs) = get_cap i cs.
Proof.
  intros Hij. unfold get_cap, set_cap. cbn [find fst].
  destruct (Nat.eqb_spec j i) as [-> | _]; [contradiction |].
  rewrite (find_filter_keep (fun p => Nat.eqb (fst p) i)
                            (fun p => negb (Nat.eqb (fst p) j))).
  - reflexivity.
  - intros x Hx. apply Nat.eqb_eq in Hx. apply negb_true_iff, Nat.eqb_neq.
    congruence.
Qed.

Lemma get_cap_set_eq (i : nat) (s : jsstring) cs : get_cap i (set_cap i s cs) = s.
Proof. unfold get_cap, set_cap. cbn [find fst]. rewrite Nat.eqb_refl. reflexivity. Qed.

Lemma get_cap_clear (i : nat) (gs : list nat) (st : mstate) :
  ~ In i gs -> get_cap i (caps (clear_caps gs st)) = get_cap i (caps st).
Proof.
  intros Hi. unfold get_cap, clear_caps. cbn [caps].
  rewrite (find_filter_keep (fun p => Nat.eqb (fst p) i)
                            (fun p => negb (existsb (Nat.eqb (fst p)) gs))).
  - reflexivity.
  - intros x Hx. apply Nat.eqb_eq in Hx. apply negb_true_iff.
    destruct (existsb (Nat.eqb (fst x)) gs) eqn:E; [| reflexivity].
    apply existsb_exists in E as [y [Hy Hxy]]. apply Nat.eqb_eq in Hxy.
    destruct Hi. congruence.
Qed.

Lemma consumed_refl (st : mstate) : consumed [] st st.
Proof. split; reflexivity. Qed.

Lemma consumed_trans mid1 mid2 (st st1 st2 : mstate) :
  consumed mid1 st st1 -> consumed mid2 st1 st2 -> consumed (mid1 ++ mid2) st st2.
Proof.
  intros [A1 B1] [A2 B2]. split.
  - rewrite A1, A2, app_assoc. reflexivity.
  - rewrite B2, B1, rev_app_distr, app_assoc. reflexivity.
Qed.

Lemma consumed_one (d : char) (rest : list char) (st : mstate) :
  after st = d :: rest ->
  consumed [d] st (MState (d :: before st) rest (caps st)).
Proof. intros H. split; [exact H | reflexivity]. Qed.

Lemma step_weaken ic r n m st st' : m <= n -> step ic r n st st' -> step ic r m st st'.
Proof.
  intros Hmn [mid [Hc [Hl [Hf Hg]]]]. exists mid. repeat split; auto; try apply Hc. lia.
Qed.

Lemma eat_sound ic (s : jsstring) :
  forall (st st' : mstate),
    eat ic s st = Some st' ->
    exists mid, consumed mid st st' /\ caps st' = caps st.
Proof.
  induction s as [|c s IH]; intros st st' H; cbn [eat] in H.
  - injection H as <-. exists []. split; [apply consumed_refl | reflexivity].
  - destruct (after st) as [|d rest] eqn:E; [discriminate |].
    destruct (canonicalize ic c =? canonicalize ic d)%N; [| discriminate].
    destruct (IH _ _ H) as [mid [Hc Hcaps]].
    exists (d :: mid). split; [| exact Hcaps].
    apply (consumed_trans [d] mid st _ st' (consumed_one d rest st E) Hc).
Qed.

Lemma orelse_cases {A} (x : option A) (y : unit -> option A) (res : A) :
  orelse x y = Some res -> x = Some res \/ y tt = Some res.
Proof. unfold orelse. destruct x; auto. Qed.

Lemma forallb_mono {A} (f g : A -> bool) (l : list A) :
  (forall x, f x = true -> g x = true) ->
  forallb f l = true -> forallb g l = true.
Proof.
  intros H. rewrite !forallb_forall. intros Hf x Hx. apply H, Hf, Hx.
Qed.

Section Sound.
Variables (ic ml : bool).

Lemma run_rep mn mx g a st k :
  run ic ml (Rep mn mx g a) st k
  = rep_iter (run ic ml a) (groups a) mn mx g k (mn + length (after st)) 0 st.
Proof. reflexivity. Qed.

Lemma rep_sound (a : regex) mn mx g (k : mstate -> option mstate) :
  (forall st k0 res,
      run ic ml a st k0 = Some res ->
      exists st', step ic a (min_len a) st st' /\ k0 st' = Some res) ->
  forall n cnt st res,
    rep_iter (run ic ml a) (groups a) mn mx g k n cnt st = Some res ->
    exists st', step ic a ((mn - cnt) * min_len a) st st' /\ k st' = Some res.
Proof.
  intros IHa.
  assert (Hstop : forall cnt st res,
             (if mn <=? cnt then k st else None) = Some res ->
             exists st', step ic a ((mn - cnt) * min_len a) st st'
                         /\ k st' = Some res).
  { intros cnt st res H. destruct (Nat.leb_spec mn cnt) as [Hle | Hlt];
      [| discriminate].
    exists st. split; [| exact H]. exists []. split; [apply consumed_refl |].
    replace (mn - cnt) with 0 by lia. repeat split; auto. }
  induction n as [|n IHn]; intros cnt st res H.
  - cbn [rep_iter] in H. apply Hstop, H.
  - cbn [rep_iter] in H.
    assert (Hmore :
      (if under_max cnt mx
       then run ic ml a (clear_caps (groups a) st)
              (fun st' =>
                 if (mn <=? cnt) && (length (after st') =? length (after st))
                 then None
                 else rep_iter (run ic ml a) (groups a) mn mx g k n (S cnt) st')
       else None) = Some res ->
      exists st', step ic a ((mn - cnt) * min_len a) st st' /\ k st' = Some res).
    { intros Hm. destruct (under_max cnt mx); [| discriminate].
      destruct (IHa _ _ _ Hm) as [st1 [[mid1 [Hc1 [Hl1 [Hf1 Hg1]]]] Hk1]].
      destruct ((mn <=? cnt) && (length (after st1) =? length (after st)));
        [discriminate |].
      destruct (IHn _ _ _ Hk1) as [st2 [[mid2 [Hc2 [Hl2 [Hf2 Hg2]]]] Hk2]].
      exists st2. split; [| exact Hk2]. exists (mid1 ++ mid2).
      split; [| split; [| split]].
      - apply (consumed_trans mid1 mid2 st st1 st2); [| exact Hc2].
        destruct Hc1 as [A B]. split; [exact A | exact B].
      - rewrite length_app.
        assert ((mn - cnt) * min_len a <= min_len a + (mn - S cnt) * min_len a).
        { destruct (Nat.le_gt_cases mn cnt) as [Hle | Hgt].
          - replace (mn - cnt) with 0 by lia. lia.
          - replace (mn - cnt) with (S (mn - S cnt)) by lia. lia. }
        lia.
      - rewrite forallb_app, Hf1, Hf2. reflexivity.
      - intros i Hi. rewrite (Hg2 i Hi), (Hg1 i Hi). apply get_cap_clear, Hi. }
    destruct g; apply orelse_cases in H as [E | E];
      first [apply Hmore, E | apply Hstop, E].
Qed.

(** A successful match of [r] consumed a segment of the input ahead, of at
    least [min_len r] units that [r] may consume, left the captures of other
    patterns alone, and then ran the continuation. *)
Theorem run_sound (r : regex) :
  forall st k res,
    run ic ml r st k = Some res ->
    exists st', step ic r (min_len r) st st' /\ k st' = Some res.
Proof.
  induction r as [ | c | items | | a IHa b IHb | a IHa b IHb
                   | mn mx g a IHa | i a IHa | i | | | a IHa | a IHa | items ];
    intros st k res H.
  - (* Eps *)
    exists st. split; [| exact H]. exists []. repeat split; auto.
  - (* Chr *)
    cbn [run] in H. destruct (after st) as [|d rest] eqn:E; [discriminate |].
    destruct (canonicalize ic c =? canonicalize ic d)%N eqn:T; [| discriminate].
    eexists. split; [| exact H]. exists [d].
    split; [apply consumed_one, E |]. cbn. rewrite T. repeat split; auto.
  - (* Cls *)
    cbn [run] in H. destruct (after st) as [|d rest] eqn:E; [discriminate |].
    destruct (class_matches items d) eqn:T; [| discriminate].
    eexists. split; [| exact H]. exists [d].
    split; [apply consumed_one, E |]. cbn. rewrite T. repeat split; auto.
  - (* Dot *)
    cbn [run] in H. destruct (after st) as [|d rest] eqn:E; [discriminate |].
    destruct (is_line_terminator d) eqn:T; [discriminate |].
    eexists. split; [| exact H]. exists [d].
    split; [apply consumed_one, E |]. cbn. rewrite T. repeat split; auto.
  - (* Seq *)
    cbn [run] in H.
    destruct (IHa _ _ _ H) as [st1 [[mid1 [Hc1 [Hl1 [Hf1 Hg1]]]] H1]].
    destruct (IHb _ _ _ H1) as [st2 [[mid2 [Hc2 [Hl2 [Hf2 Hg2]]]] H2]].
    exists st2. split; [| exact H2]. exists (mid1 ++ mid2).
    split; [apply (consumed_trans _ _ _ _ _ Hc1 Hc2) |].
    split; [rewrite length_app; cbn [min_len]; lia |]. split.
    + rewrite forallb_app. apply andb_true_iff. split.
      * eapply forallb_mono; [| exact Hf1]. intros x Hx. cbn. rewrite Hx.
        reflexivity.
      * eapply forallb_mono; [| exact Hf2]. intros x Hx. cbn. rewrite Hx.
        apply orb_true_r.
    + intros i Hi. cbn [groups] in Hi. rewrite in_app_iff in Hi.
      rewrite Hg2, Hg1; tauto.
  - (* Alt *)
    cbn [run] in H. apply orelse_cases in H as [Ea | H].
    + destruct (IHa _ _ _ Ea) as [st1 [[mid1 [Hc1 [Hl1 [Hf1 Hg1]]]] H1]].
      exists st1. split; [| exact H1]. exists mid1. split; [exact Hc1 |].
      split; [cbn [min_len]; lia |]. split.
      * eapply forallb_mono; [| exact Hf1]. intros y Hy. cbn. rewrite Hy.
        reflexivity.
      * intros i Hi. cbn [groups] in Hi. rewrite in_app_iff in Hi.
        apply Hg1. tauto.
    + destruct (IHb _ _ _ H) as [st1 [[mid1 [Hc1 [Hl1 [Hf1 Hg1]]]] H1]].
      exists st1. split; [| exact H1]. exists mid1. split; [exact Hc1 |].
      split; [cbn [min_len]; lia |]. split.
      * eapply forallb_mono; [| exact Hf1]. intros y Hy. cbn. rewrite Hy.
        apply orb_true_r.
      * intros i Hi. cbn [groups] in Hi. rewrite in_app_iff in Hi.
        apply Hg1. tauto.
  - (* Rep *)
    rewrite run_rep in H.
    destruct (rep_sound a mn mx g k IHa _ _ _ _ H) as [st1 [Hs H1]].
    exists st1. split; [| exact H1].
    rewrite Nat.sub_0_r in Hs. exact Hs.
  - (* Grp *)
    cbn [run] in H.
    destruct (IHa _ _ _ H) as [st1 [[mid1 [Hc1 [Hl1 [Hf1 Hg1]]]] H1]].
    eexists. split; [| exact H1]. exists mid1.
    split; [split; apply Hc1 |]. split; [exact Hl1 |]. split; [exact Hf1 |].
    intros j Hj. cbn [groups] in Hj. cbn [caps].
    rewrite get_cap_set_ne by (intros ->; apply Hj; left; reflexivity).
    apply Hg1. intros Hin. apply Hj. right. exact Hin.
  - (* Ref *)
    cbn [run] in H. destruct (eat ic (get_cap i (caps st)) st) as [st1|] eqn:E;
      [| discriminate].
    destruct (eat_sound _ _ _ _ E) as [mid [Hc Hcaps]].
    exists st1. split; [| exact H]. exists mid. split; [exact Hc |].
    split; [cbn; lia |]. split.
    + apply forallb_forall. intros x _. reflexivity.
    + intros j _. rewrite Hcaps. reflexivity.
  - (* Bol *)
    cbn [run] in H. destruct (at_bol ml st); [| discriminate].
    exists st. split; [| exact H]. exists []. repeat split; auto.
  - (* Eol *)
    cbn [run] in H. destruct (at_eol ml st); [| discriminate].
    exists st. split; [| exact H]. exists []. repeat split; auto.
  - (* Ahead *)
    cbn [run] in H. destruct (run ic ml a st Some) as [st1|] eqn:E;
      [| discriminate].
    destruct (IHa _ _ _ E) as [st2 [[mid1 [Hc1 [Hl1 [Hf1 Hg1]]]] H1]].
    injection H1 as ->.
    eexists. split; [| exact H]. exists [].
    split; [split; reflexivity |]. split; [cbn; lia |]. split; [reflexivity |].
    intros j Hj. cbn [caps groups] in *. apply Hg1, Hj.
  - (* NotAhead *)
    cbn [run] in H. destruct (run ic ml a st Some); [discriminate |].
    exists st. split; [| exact H]. exists []. repeat split; auto.
  - (* NotAfter *)
    cbn [run] in H.
    destruct (before st) as [|c bef] eqn:E.
    + exists st. split; [| exact H]. exists []. repeat split; auto.
    + destruct (class_matches items c); [discriminate |].
      exists st. split; [| exact H]. exists []. repeat split; auto.
Qed.

End Sound.

End MatchFacts.

(** ** The text processor, pass by pass *)

Module TextExtras.
Import Js Regex TextProcessor Direct MatchSpec MatchFacts.

Lemma has_LF_false (s : jsstring) :
  has_LF s = false <-> forall c, In c s -> c <> LF.
Proof.
  unfold has_LF. split.
  - intros H c Hc ->. 
    assert (existsb (fun c => (c =? LF)%N) s = true); [| congruence].
    apply existsb_exists. exists LF. split; [exact Hc | reflexivity].
  - intros H. destruct (existsb (fun c => (c =? LF)%N) s) eqn:E; [| reflexivity].
    apply existsb_exists in E as [c [Hc Hl]]. apply N.eqb_eq in Hl.
    destruct (H c Hc Hl).
Qed.

(** A pattern that needs at least one unit does not match where the input
    ahead holds no unit it may consume. *)
Lemma no_match ic ml (r : regex) (st : mstate) :
  1 <= min_len r ->
  (forall c, In c (after st) -> consumable ic r c = false) ->
  run ic ml r st Some = None.
Proof.
  intros Hmin Hno. destruct (run ic ml r st Some) as [res|] eqn:E; [| reflexivity].
  destruct (run_sound ic ml r _ _ _ E) as [st' [[mid [[Ha _] [Hl [Hf _]]]] _]].
  destruct mid as [|c mid]; [cbn in Hl; lia |].
  cbn [forallb] in Hf. apply andb_true_iff in Hf as [Hc _].
  rewrite Hno in Hc; [discriminate |]. rewrite Ha. left. reflexivity.
Qed.

Lemma scan_fixed ic ml (r : regex) (tpl : list piece) :
  1 <= min_len r ->
  forall n bef aft,
    (forall c, In c aft -> consumable ic r c = false) ->
    scan ic ml n r tpl bef aft = aft.
Proof.
  intros Hmin. induction n as [|n IH]; intros bef aft Hno; [reflexivity |].
  cbn [scan]. rewrite no_match by (cbn [after]; auto).
  destruct aft as [|c rest]; [reflexivity |].
  rewrite IH; [reflexivity |]. intros d Hd. apply Hno. right. exact Hd.
Qed.

Lemma only_LF_fixed ic ml (r : regex) (tpl : list piece) (text : jsstring) :
  1 <= min_len r ->
  (forall c, consumable ic r c = true -> c = LF) ->
  has_LF text = false ->
  replace_all ic ml r tpl text = text.
Proof.
  intros Hmin Hc Hno. apply scan_fixed; [exact Hmin |].
  intros c Hin. destruct (consumable ic r c) eqn:E; [| reflexivity].
  apply Hc in E. rewrite has_LF_false in Hno. destruct (Hno c Hin E).
Qed.

Lemma section_consumes (c : char) : consumable false re_section c = true -> c = LF.
Proof.
  change (consumable false re_section c) with ((LF =? c)%N || false).
  rewrite orb_false_r. intros H. apply N.eqb_eq in H. symmetry. exact H.
Qed.

(** A group followed by a pattern that sets no capture of the same index:
    after the match the capture holds what the group consumed. *)
Lemma run_grp_seq ic ml (i : nat) (a b : regex) (st res : mstate) :
  ~ In i (groups b) ->
  run ic ml (Seq (Grp i a) b) st Some = Some res ->
  exists mid1 mid2,
    after st = mid1 ++ mid2 ++ after res
    /\ before res = rev mid2 ++ rev mid1 ++ before st
    /\ forallb (consumable ic a) mid1 = true
    /\ min_len b <= length mid2
    /\ get_cap i (caps res) = mid1.
Proof.
  intros Hi H.
  change (run ic ml (Seq (Grp i a) b) st Some)
    with (run ic ml a st (fun st' =>
            run ic ml b
              (MState (before st') (after st')
                 (set_cap i (rev (take (length (before st') - length (before st))
                                       (before st'))) (caps st'))) Some)) in H.
  destruct (run_sound ic ml a _ _ _ H)
    as [st1 [[mid1 [[A1 B1] [_ [F1 _]]]] H1]].
  destruct (run_sound ic ml b _ _ _ H1)
    as [st2 [[mid2 [[A2 B2] [L2 [_ G2]]]] H2]].
  injection H2 as ->. cbn [after before caps] in *.
  exists mid1, mid2. repeat split; auto.
  - rewrite A1, A2. reflexivity.
  - rewrite B2, B1. reflexivity.
  - rewrite (G2 i Hi), get_cap_set_eq, B1, length_app, length_rev.
    replace (length mid1 + length (before st) - length (before st))
      with (length (rev mid1)) by (rewrite length_rev; lia).
    rewrite take_app_length. apply rev_involutive.
Qed.

Lemma dup_shape :
  re_dup_paragraph
  = Seq (Grp 1 (star Dot)) (plus (Grp 2 (Seq newline (Ref 1)))).
Proof. reflexivity. Qed.

Lemma dot_not_LF (mid : list char) :
  forallb (consumable false (star Dot)) mid = true -> has_LF mid = false.
Proof.
  intros H. apply has_LF_false. intros c Hc ->.
  rewrite forallb_forall in H. specialize (H _ Hc). discriminate H.
Qed.

(** A match of the paragraph pattern is not empty, and its first capture
    holds no line feed. *)
Lemma dup_match (bef aft : list char) (res : mstate) :
  run false false re_dup_paragraph (MState bef aft []) Some = Some res ->
  has_LF (get_cap 1 (caps res)) = false /\ length (after res) < length aft.
Proof.
  rewrite dup_shape. intros H.
  apply run_grp_seq in H as [mid1 [mid2 [A [_ [F [L G]]]]]].
  - split.
    + rewrite G. apply dot_not_LF, F.
    + cbn [after] in A. rewrite A, !length_app.
      change (min_len (plus (Grp 2 (Seq newline (Ref 1))))) with 1 in L. lia.
  - cbn. intros [E | []]. discriminate E.
Qed.

(** A repetition that has run its least count succeeds where its
    continuation does. *)
Lemma rep_iter_stop_ok body gs mn mx g (k : mstate -> option mstate) n cnt st :
  mn <= cnt -> k st <> None -> rep_iter body gs mn mx g k n cnt st <> None.
Proof.
  intros Hle Hk.
  assert (Hstop : (if mn <=? cnt then k st else None) <> None).
  { destruct (Nat.leb_spec mn cnt); [exact Hk | lia]. }
  destruct n as [|n]; [exact Hstop |].
  cbn [rep_iter]. destruct g; unfold orelse.
  - match goal with |- match ?m with _ => _ end <> _ => destruct m end;
      [discriminate | exact Hstop].
  - destruct (if mn <=? cnt then k st else None); [discriminate |].
    destruct Hstop. reflexivity.
Qed.

(** The first round of a greedy repetition that needs one round at least. *)
Lemma rep_iter_first body gs m (k : mstate -> option mstate) n st :
  rep_iter body gs (S m) None true k (S n) 0 st
  = body (clear_caps gs st) (fun st' => rep_iter body gs (S m) None true k n 1 st').
Proof.
  cbn [rep_iter under_max Nat.leb andb]. unfold orelse.
  match goal with |- match ?m with _ => _ end = _ => destruct m end; reflexivity.
Qed.

(** The paragraph pattern matches at every line feed. *)
Lemma dup_at_LF (bef rest : list char) :
  run false false re_dup_paragraph (MState bef (LF :: rest) []) Some <> None.
Proof.
  rewrite dup_shape.
  change (run false false (Seq (Grp 1 (star Dot)) ?b) ?st Some)
    with (run false false (star Dot) st (fun st' =>
            run false false b
              (MState (before st') (after st')
                 (set_cap 1 (rev (take (length (before st') - length (before st))
                                       (before st'))) (caps st'))) Some)).
  unfold star at 1. rewrite run_rep. apply rep_iter_stop_ok; [lia |].
  cbn [before after caps]. rewrite Nat.sub_diag, take_0. cbn [rev].
  unfold plus. rewrite run_rep. cbn [after length Nat.add].
  rewrite rep_iter_first.
  change (run false false (Grp 2 (Seq newline (Ref 1))) ?st ?k)
    with (run false false newline st (fun st1 =>
            run false false (Ref 1) st1 (fun st2 =>
              k (MState (before st2) (after st2)
                   (set_cap 2 (rev (take (length (before st2) - length (before st))
                                         (before st2))) (caps st2)))))).
  unfold newline. cbn [run after clear_caps before]. 
  change (canonicalize false LF =? canonicalize false LF)%N with true. cbn iota.
  cbn [caps].
  rewrite get_cap_clear by (cbn; intros [E | []]; discriminate E).
  cbn [caps]. rewrite get_cap_set_eq. cbn [eat].
  apply rep_iter_stop_ok; [lia | discriminate].
Qed.

(** The scan of the paragraph pass emits no line feed. *)
Lemma dup_scan (n : nat) :
  forall bef aft,
    length aft < n ->
    has_LF (scan false false n re_dup_paragraph [Dollar 1] bef aft) = false.
Proof.
  induction n as [|n IH]; intros bef aft Hn; [lia |].
  cbn [scan].
  destruct (run false false re_dup_paragraph (MState bef aft []) Some)
    as [res|] eqn:E.
  - destruct (dup_match _ _ _ E) as [Hcap Hlen].
    destruct (Nat.eqb_spec (length (after res)) (length aft)) as [Heq | _];
      [lia |].
    unfold has_LF in *. rewrite existsb_app.
    cbn [expand flat_map]. rewrite List.app_nil_r.
    apply orb_false_intro; [exact Hcap | apply IH; lia].
  - destruct aft as [|c rest]; [reflexivity |].
    unfold has_LF in *. cbn [existsb].
    destruct (N.eqb_spec c LF) as [-> | _].
    + destruct (dup_at_LF bef rest E).
    + cbn [orb]. apply IH. cbn [length] in Hn. lia.
Qed.

Lemma dup_no_LF (text : jsstring) :
  has_LF (removeDuplicateParagraphs text) = false.
Proof. apply dup_scan. lia. Qed.

Lemma trimStart_In (s : jsstring) (c : char) : In c (trimStart s) -> In c s.
Proof.
  induction s as [|d s IH]; [auto |]. cbn [trimStart].
  destruct (is_space d); [| auto]. intros H. right. apply IH, H.
Qed.

Lemma trim_In (s : jsstring) (c : char) : In c (trim s) -> In c s.
Proof.
  unfold trim, trimEnd. intros H. apply in_rev, trimStart_In, in_rev in H.
  apply trimStart_In, H.
Qed.

Lemma section_after_dup (text : jsstring) :
  preserveSectionSpacing (removeDuplicateParagraphs text)
  = removeDuplicateParagraphs text.
Proof.
  apply only_LF_fixed; [cbn; lia | apply section_consumes |].
  apply dup_no_LF.
Qed.

Lemma process_no_LF (raw : jsstring) : has_LF (processText raw) = false.
Proof.
  destruct raw as [|c raw]; [reflexivity |].
  unfold processText. cbv zeta. apply has_LF_false. intros d Hd.
  apply trim_In in Hd. revert d Hd. apply has_LF_false.
  rewrite section_after_dup. apply dup_no_LF.
Qed.


Lemma sentence_end_class (p : char) :
  class_matches [One 46%N; One 33%N; One 63%N; One 58%N] p = is_sentence_end p.
Proof.
  unfold class_matches, is_sentence_end. cbn [existsb item_matches].
  rewrite orb_false_r, !orb_assoc. reflexivity.
Qed.

(** Where the line-break pattern matches: at a line feed that follows no
    sentence end and is followed by no line feed; it consumes that unit. *)
Lemma break_run (bef aft : list char) :
  run false false re_line_break (MState bef aft []) Some
  = match aft with
    | c :: rest =>
      if (c =? LF)%N
         && negb (match head bef with Some p => is_sentence_end p | None => false end)
         && negb (starts_with_LF rest)
      then Some (MState (c :: bef) rest [])
      else None
    | [] => None
    end.
Proof.
  change re_line_break
    with (Seq (NotAfter [One 46%N; One 33%N; One 63%N; One 58%N])
              (Seq (Chr LF) (NotAhead (Chr LF)))).
  cbn [run before after caps].
  change (canonicalize false LF) with LF.
  assert (K : match aft with
              | [] => None
              | d :: rest =>
                if (LF =? canonicalize false d)%N
                then match
                    match rest with
                    | [] => None
                    | d0 :: rest0 =>
                      if (LF =? canonicalize false d0)%N
                      then Some (MState (d0 :: d :: bef) rest0 [])
                      else None
                    end
                  with
                  | Some _ => None
                  | None => Some (MState (d :: bef) rest [])
                  end
                else None
              end
              = match aft with
                | c :: rest =>
                  if (c =? LF)%N && negb (starts_with_LF rest)
                  then Some (MState (c :: bef) rest [])
                  else None
                | [] => None
                end).
  { destruct aft as [|d rest]; [reflexivity |].
    change (canonicalize false d) with d. rewrite (N.eqb_sym LF d).
    destruct (d =? LF)%N; [| reflexivity]. cbn [andb].
    destruct rest as [|d0 rest0]; [reflexivity |].
    change (canonicalize false d0) with d0. cbn [starts_with_LF].
    rewrite (N.eqb_sym LF d0). destruct (d0 =? LF)%N; reflexivity. }
  destruct bef as [|p bef'].
  - cbn [head]. rewrite K. destruct aft as [|c rest]; [reflexivity |].
    rewrite andb_true_r. reflexivity.
  - cbn [head]. rewrite sentence_end_class.
    destruct (is_sentence_end p).
    + destruct aft as [|c rest]; [reflexivity |].
      rewrite andb_false_r. reflexivity.
    + rewrite K. destruct aft as [|c rest]; [reflexivity |].
      rewrite andb_true_r. reflexivity.
Qed.

Lemma break_scan (n : nat) :
  forall bef aft,
    length aft < n ->
    scan false false n re_line_break [Text [SP]] bef aft
    = join_lines (head bef) aft.
Proof.
  induction n as [|n IH]; intros bef aft Hn; [lia |].
  cbn [scan]. rewrite break_run.
  destruct aft as [|c rest]; [reflexivity |].
  cbn [join_lines length] in *.
  destruct ((c =? LF)%N
            && negb (match head bef with Some p => is_sentence_end p | None => false end)
            && negb (starts_with_LF rest)).
  - cbn [after before caps].
    destruct (Nat.eqb_spec (length rest) (S (length rest))) as [E | _]; [lia |].
    cbn [expand flat_map app]. rewrite IH by lia. reflexivity.
  - rewrite IH by lia. reflexivity.
Qed.

Lemma break_direct (text : jsstring) :
  fixLineBreaks text = join_lines None text.
Proof. apply (break_scan (S (length text)) [] text). lia. Qed.


Lemma lead_drop (s : jsstring) : lead (drop (lead s) s) = 0.
Proof.
  induction s as [|c s IH]; [reflexivity |]. cbn [lead].
  destruct (c =? LF)%N eqn:E; cbn [drop]; [exact IH |].
  cbn [lead]. rewrite E. reflexivity.
Qed.

Lemma lead_le_length (s : jsstring) : lead s <= length s.
Proof.
  induction s as [|c s IH]; [reflexivity |]. cbn [lead length].
  destruct (c =? LF)%N; lia.
Qed.

(** The greedy loop of the blank-line pattern consumes the whole run of line
    feeds ahead, and succeeds when that makes three rounds at least. *)
Lemma chr_LF_step (st : mstate) (k : mstate -> option mstate) :
  run false false (Chr LF) st k
  = match after st with
    | d :: rest =>
      if (d =? LF)%N then k (MState (d :: before st) rest (caps st)) else None
    | [] => None
    end.
Proof.
  cbn [run]. destruct (after st) as [|d rest]; [reflexivity |].
  change (canonicalize false LF =? canonicalize false d)%N with (LF =? d)%N.
  rewrite (N.eqb_sym LF d). reflexivity.
Qed.

Lemma blank_iter (n : nat) :
  forall cnt st,
    lead (after st) <= n ->
    caps st = [] ->
    option_map after
      (rep_iter (run false false (Chr LF)) [] 3 None true Some n cnt st)
    = if 3 <=? cnt + lead (after st)
      then Some (drop (lead (after st)) (after st)) else None.
Proof.
  induction n as [|n IH]; intros cnt [bef aft cs] Hn Hc;
    cbn [after caps] in *; subst cs.
  - assert (lead aft = 0) as -> by lia.
    cbn [rep_iter drop]. rewrite Nat.add_0_r.
    destruct (3 <=? cnt); reflexivity.
  - cbn [rep_iter under_max]. rewrite chr_LF_step.
    change (clear_caps [] (MState bef aft [])) with (MState bef aft []).
    cbn [after before caps].
    destruct aft as [|d rest].
    + cbn [orelse lead drop]. rewrite Nat.add_0_r.
      destruct (3 <=? cnt); reflexivity.
    + cbn [lead] in *.
      destruct (d =? LF)%N eqn:Ed.
      * cbn [length].
        destruct (Nat.eqb_spec (length rest) (S (length rest))) as [E | _];
          [lia |].
        rewrite andb_false_r.
        specialize (IH (S cnt) (MState (d :: bef) rest [])).
        cbn [after caps] in IH. specialize (IH ltac:(lia) eq_refl).
        replace (cnt + S (lead rest)) with (S cnt + lead rest) by lia.
        cbn [drop].
        destruct (rep_iter (run false false (Chr LF)) [] 3 None true Some n
                    (S cnt) (MState (d :: bef) rest [])) as [res|] eqn:Er.
        -- cbn [orelse]. exact IH.
        -- cbn [orelse option_map] in *.
           destruct (Nat.leb_spec 3 (S cnt + lead rest)); [discriminate IH |].
           destruct (Nat.leb_spec 3 cnt); [lia | reflexivity].
      * cbn [orelse drop]. rewrite Nat.add_0_r.
        destruct (3 <=? cnt); reflexivity.
Qed.

Lemma blank_run (bef aft : list char) :
  option_map after (run false false re_blank_lines (MState bef aft []) Some)
  = if 3 <=? lead aft then Some (drop (lead aft) aft) else None.
Proof.
  unfold re_blank_lines, at_least, newline. rewrite run_rep.
  rewrite blank_iter; [reflexivity | | reflexivity].
  cbn [after]. pose proof (lead_le_length aft). lia.
Qed.

Lemma squeeze_run (s : jsstring) :
  3 <= lead s -> squeeze s = LF :: LF :: squeeze (drop (lead s) s).
Proof.
  induction s as [|c s IH]; cbn [lead]; [lia |].
  destruct (N.eqb_spec c LF) as [-> | _]; [| lia]. intros H.
  cbn [squeeze drop]. change (LF =? LF)%N with true. cbn [andb].
  destruct (Nat.leb_spec 2 (lead s)) as [_ | Hlt]; [| lia].
  destruct (Nat.le_gt_cases 3 (lead s)) as [H3 | H3]; [apply IH, H3 |].
  destruct s as [|c1 s1]; [cbn in H; lia |]. cbn [lead] in *.
  destruct (N.eqb_spec c1 LF) as [-> | _]; [| lia].
  destruct s1 as [|c2 s2]; [cbn in H; lia |]. cbn [lead] in *.
  destruct (N.eqb_spec c2 LF) as [-> | _]; [| lia].
  assert (Hz : lead s2 = 0) by lia. rewrite Hz. cbn [drop squeeze lead].
  change (LF =? LF)%N with true. rewrite Hz. reflexivity.
Qed.

Lemma blank_scan (n : nat) :
  forall bef aft,
    length aft < n ->
    scan false false n re_blank_lines [Text [LF; LF]] bef aft = squeeze aft.
Proof.
  induction n as [|n IH]; intros bef aft Hn; [lia |].
  cbn [scan]. pose proof (blank_run bef aft) as Hr.
  destruct (run false false re_blank_lines (MState bef aft []) Some)
    as [res|]; cbn [option_map] in Hr.
  - destruct (Nat.leb_spec 3 (lead aft)) as [H3 | _]; [| discriminate Hr].
    injection Hr as Hr. rewrite Hr, length_drop.
    pose proof (lead_le_length aft).
    destruct (Nat.eqb_spec (length aft - lead aft) (length aft)) as [E | _];
      [lia |].
    cbn [expand flat_map app]. rewrite IH by (rewrite length_drop; lia).
    symmetry. apply squeeze_run, H3.
  - destruct (Nat.leb_spec 3 (lead aft)) as [_ | H3]; [discriminate Hr |].
    destruct aft as [|c rest]; [reflexivity |].
    cbn [squeeze]. cbn [lead length] in *. rewrite IH by lia.
    destruct (c =? LF)%N; [| reflexivity].
    destruct (Nat.leb_spec 2 (lead rest)); [lia | reflexivity].
Qed.

Lemma blank_direct (text : jsstring) :
  normalizeParagraphs text = squeeze text.
Proof. apply blank_scan. lia. Qed.


(** *** The passes only delete *)

Lemma expand_nil (cs : list (nat * jsstring)) : expand [] cs = [].
Proof. reflexivity. Qed.

(** A global replacement whose every match is replaced by a piece from the
    head of the match returns a subsequence of the text. *)
Lemma scan_sublist ic ml (r : regex) (tpl : list piece) :
  (forall bef aft res,
      run ic ml r (MState bef aft []) Some = Some res ->
      exists mid, aft = expand tpl (caps res) ++ mid ++ after res) ->
  forall n bef aft, sublist (scan ic ml n r tpl bef aft) aft.
Proof.
  intros Hm. induction n as [|n IH]; intros bef aft; [reflexivity |].
  cbn [scan].
  destruct (run ic ml r (MState bef aft []) Some) as [res|] eqn:E.
  - destruct (Hm _ _ _ E) as [mid Hmid]. cbv zeta.
    destruct (Nat.eqb_spec (length (after res)) (length aft)) as [Hl | _].
    + assert (Hout : expand tpl (caps res) = []).
      { apply length_zero_iff_nil. apply (f_equal length) in Hmid.
        rewrite !length_app in Hmid. lia. }
      rewrite Hout. destruct aft as [|c rest]; [reflexivity |].
      cbn [app]. apply sublist_skip, IH.
    + rewrite Hmid. apply sublist_app; [reflexivity |].
      apply sublist_inserts_l, IH.
  - destruct aft as [|c rest]; [reflexivity |]. apply sublist_skip, IH.
Qed.

(** Replacing by the empty string. *)
Lemma delete_sublist ic ml (r : regex) (text : jsstring) :
  sublist (replace_all ic ml r [] text) text.
Proof.
  apply scan_sublist. intros bef aft res H.
  destruct (run_sound ic ml r _ _ _ H) as [st' [[mid [[A _] _]] E]].
  injection E as ->. exists mid. exact A.
Qed.

Lemma run_bol_seq ic ml (r : regex) (st res : mstate) :
  run ic ml (Seq Bol r) st Some = Some res -> run ic ml r st Some = Some res.
Proof. cbn [run]. destruct (at_bol ml st); [auto | discriminate]. Qed.

(** Replacing by the first capture, for a pattern that starts with its first
    group. *)
Lemma keep_first_sublist ic ml (a b : regex) (text : jsstring) :
  ~ In 1 (groups b) ->
  sublist (replace_all ic ml (Seq (Grp 1 a) b) [Dollar 1] text) text.
Proof.
  intros Hi. apply scan_sublist. intros bef aft res H.
  apply run_grp_seq in H as [mid1 [mid2 [A [_ [_ [_ G]]]]]]; [| exact Hi].
  exists mid2. cbn [expand flat_map]. rewrite List.app_nil_r, G. exact A.
Qed.

Lemma keep_first_bol_sublist ic ml (a b : regex) (text : jsstring) :
  ~ In 1 (groups b) ->
  sublist (replace_all ic ml (Seq Bol (Seq (Grp 1 a) b)) [Dollar 1] text) text.
Proof.
  intros Hi. apply scan_sublist. intros bef aft res H.
  apply run_bol_seq in H.
  apply run_grp_seq in H as [mid1 [mid2 [A [_ [_ [_ G]]]]]]; [| exact Hi].
  exists mid2. cbn [expand flat_map]. rewrite List.app_nil_r, G. exact A.
Qed.

Lemma removePageNumbers_sublist (text : jsstring) :
  sublist (removePageNumbers text) text.
Proof.
  unfold removePageNumbers.
  repeat (etrans; [apply delete_sublist |]). reflexivity.
Qed.

Lemma cleanNumberedToc_sublist (text : jsstring) :
  sublist (cleanNumberedToc text) text.
Proof.
  apply (keep_first_bol_sublist false true). cbn. intuition discriminate.
Qed.

Lemma removeDuplicateLines_sublist (text : jsstring) :
  sublist (removeDuplicateLines text) text.
Proof.
  apply (keep_first_bol_sublist false true). cbn. intuition discriminate.
Qed.

Lemma removeDuplicateParagraphs_sublist (text : jsstring) :
  sublist (removeDuplicateParagraphs text) text.
Proof.
  apply (keep_first_sublist false false). cbn. intuition discriminate.
Qed.

Lemma squeeze_sublist (s : jsstring) : sublist (squeeze s) s.
Proof.
  induction s as [|c s IH]; [reflexivity |]. cbn [squeeze].
  destruct ((c =? LF)%N && (2 <=? lead s));
    [apply sublist_cons, IH | apply sublist_skip, IH].
Qed.

Lemma trimStart_sublist (s : jsstring) : sublist (trimStart s) s.
Proof.
  induction s as [|c s IH]; [reflexivity |]. cbn [trimStart].
  destruct (is_space c); [apply sublist_cons, IH | reflexivity].
Qed.

Lemma sublist_rev {A} (l1 l2 : list A) : sublist l1 l2 -> sublist (rev l1) (rev l2).
Proof.
  induction 1 as [| x l1 l2 _ IH | x l1 l2 _ IH]; cbn [rev].
  - reflexivity.
  - apply sublist_app; [exact IH | reflexivity].
  - apply sublist_inserts_r, IH.
Qed.

Lemma trim_sublist (s : jsstring) : sublist (trim s) s.
Proof.
  unfold trim, trimEnd. etrans; [| apply trimStart_sublist].
  rewrite <- (rev_involutive (trimStart s)) at 2.
  apply sublist_rev, trimStart_sublist.
Qed.

Lemma blur_join_lines (s : jsstring) :
  forall prev, map blur (join_lines prev s) = map blur s.
Proof.
  induction s as [|c s IH]; intros prev; [reflexivity |].
  cbn [join_lines map]. rewrite IH. f_equal.
  destruct ((c =? LF)%N) eqn:E; cbn [andb].
  - unfold blur at 2. rewrite E.
    destruct (negb _ && negb _); [reflexivity |].
    unfold blur. rewrite E. reflexivity.
  - reflexivity.
Qed.

Lemma blur_no_LF (s : jsstring) : has_LF s = false -> map blur s = s.
Proof.
  intros H. rewrite has_LF_false in H.
  induction s as [|c s IH]; [reflexivity |]. cbn [map]. rewrite IH.
  - unfold blur. destruct (N.eqb_spec c LF) as [E | _]; [| reflexivity].
    destruct (H c (or_introl eq_refl) E).
  - intros d Hd. apply H. right. exact Hd.
Qed.

Lemma sublist_map {A B} (f : A -> B) (l1 l2 : list A) :
  sublist l1 l2 -> sublist (map f l1) (map f l2).
Proof.
  induction 1; cbn [map]; [constructor | apply sublist_skip | apply sublist_cons];
    assumption.
Qed.

(** X19. The duplicate-paragraph pass leaves no line feed in the text: the
    first group of its pattern may be empty, so the pattern matches at each
    line feed, and what replaces a match is a piece of one line. *)
Theorem removeDuplicateParagraphs_no_line_feed (text : jsstring) :
  has_LF (removeDuplicateParagraphs text) = false.
Proof.
  unfold removeDuplicateParagraphs, replace_all.
  apply dup_scan. lia.
Qed.

(** X20. The section-spacing pass never changes the text inside
    [processText]: it gets the text of the duplicate-paragraph pass, in which
    its pattern, which starts with a line feed, matches nowhere. *)
Theorem preserveSectionSpacing_dead_pass (text : jsstring) :
  preserveSectionSpacing (removeDuplicateParagraphs text)
  = removeDuplicateParagraphs text.
Proof.
  unfold preserveSectionSpacing. apply only_LF_fixed.
  - cbn. lia.
  - apply section_consumes.
  - apply dup_no_LF.
Qed.

(** X21. The processed text holds no line feed, whatever the raw text. *)
Theorem processText_no_line_feed (raw : jsstring) :
  has_LF (processText raw) = false.
Proof.
  destruct raw as [|c raw]; [reflexivity |].
  unfold processText. cbv zeta.
  apply has_LF_false. intros d Hd. apply trim_In in Hd.
  revert d Hd. apply has_LF_false.
  rewrite section_after_dup. apply dup_no_LF.
Qed.

(** X22. The line-break pass changes into a space each line feed that
    neither follows one of [. ! ? :] nor stands before a line feed, and
    changes nothing else. *)
Theorem fixLineBreaks_joins_lines (text : jsstring) :
  fixLineBreaks text = join_lines None text.
Proof.
  unfold fixLineBreaks, replace_all.
  apply (break_scan (S (length text)) [] text). lia.
Qed.

(** X23. The paragraph pass drops each line feed that has two line feeds or
    more right behind it, so that a run of three or more becomes two, and
    changes nothing else. *)
Theorem normalizeParagraphs_squeezes (text : jsstring) :
  normalizeParagraphs text = squeeze text.
Proof.
  unfold normalizeParagraphs, replace_all.
  apply blank_scan. lia.
Qed.

(** X24. Eight passes only delete: what each returns is a subsequence of
    the text it got. *)
Theorem deleting_passes_sublist (text : jsstring) :
  sublist (removePageNumbers text) text
  /\ sublist (cleanTocLeaders text) text
  /\ sublist (cleanNumberedToc text) text
  /\ sublist (removeLeaderDotLinesSafe text) text
  /\ sublist (removeHeadersFooters text) text
  /\ sublist (normalizeParagraphs text) text
  /\ sublist (removeDuplicateLines text) text
  /\ sublist (removeDuplicateParagraphs text) text.
Proof.
  repeat split.
  - apply removePageNumbers_sublist.
  - apply delete_sublist.
  - apply cleanNumberedToc_sublist.
  - apply delete_sublist.
  - apply delete_sublist.
  - rewrite blank_direct. apply squeeze_sublist.
  - apply removeDuplicateLines_sublist.
  - apply removeDuplicateParagraphs_sublist.
Qed.

(** X25. The processed text is a subsequence of the raw text with its line
    feeds read as spaces: [processText] deletes units and turns line feeds
    into spaces, and it neither adds nor reorders anything. *)
Theorem processText_only_deletes (raw : jsstring) :
  sublist (processText raw) (map blur raw).
Proof.
  destruct raw as [|c0 raw0]; [reflexivity |].
  set (raw := c0 :: raw0).
  rewrite <- (blur_no_LF (processText raw)) by apply process_no_LF.
  unfold processText, raw at 1. cbv zeta. fold raw.
  set (p5 := removeHeadersFooters
               (removeLeaderDotLinesSafe
                  (cleanNumberedToc (cleanTocLeaders (removePageNumbers raw))))).
  assert (H5 : sublist p5 raw).
  { unfold p5.
    etrans; [apply delete_sublist |].
    etrans; [apply delete_sublist |].
    etrans; [apply cleanNumberedToc_sublist |].
    etrans; [apply delete_sublist |].
    apply removePageNumbers_sublist. }
  etrans; [| apply sublist_map, H5].
  rewrite <- (blur_join_lines p5 None), <- break_direct.
  apply sublist_map.
  etrans; [apply trim_sublist |].
  rewrite section_after_dup.
  etrans; [apply removeDuplicateParagraphs_sublist |].
  etrans; [apply removeDuplicateLines_sublist |].
  rewrite blank_direct. apply squeeze_sublist.
Qed.

End TextExtras.
